(** * mev-bot: price aggregation and opportunity detection

    A shallow embedding of the TypeScript sources of the bot
    (ChainManager, DexMonitor, PriceCalculator, DatabaseService and the
    constants they read) together with the properties that the design
    specification states about them.

    Conventions of the embedding.
    - A JavaScript [number] that holds a price, a liquidity, a cost or a
      margin is an IEEE-754 binary64 value: Rocq's primitive [float], whose
      operations are the ones JavaScript performs (round to nearest even,
      NaN, signed zeros and infinities included).
    - Millisecond timestamps ([Date.now()], [Date.getTime()]), block
      numbers, counters and [bigint]s are integers: [Z] or [nat].
    - A [Map] is an insertion-ordered association list ([JsMap]).
    - A [Promise] that settles is a [Result]: fulfilled with a value or
      rejected with an error.  Everything the program reads from outside
      (clock, RPC answers, file system) is an explicit argument. *)

From Stdlib Require Import ZArith List String Ascii Bool Lia Floats.
From Stdlib Require Import Sorted Permutation.
Import ListNotations.

Set Implicit Arguments.

Local Open Scope Z_scope.
Local Open Scope string_scope.
Local Open Scope list_scope.

(* ===================================================================== *)
(** * JavaScript values *)
(* ===================================================================== *)

Module Js.

(** ** Numbers *)

Definition number := float.

(** [a < b], [a > b], [a <= b], [a >= b]: false as soon as one side is NaN. *)
Definition lt (a b : number) : bool := PrimFloat.ltb a b.
Definition gt (a b : number) : bool := PrimFloat.ltb b a.
Definition le (a b : number) : bool := PrimFloat.leb a b.
Definition ge (a b : number) : bool := PrimFloat.leb b a.

(** [Math.abs]. *)
Definition Math_abs (a : number) : number := PrimFloat.abs a.

(** [Math.min] of two arguments: NaN if either is NaN, and -0 is smaller
    than +0. *)
Definition Math_min (a b : number) : number :=
  if PrimFloat.is_nan a || PrimFloat.is_nan b then PrimFloat.nan
  else if PrimFloat.ltb a b then a
  else if PrimFloat.ltb b a then b
  else if PrimFloat.get_sign a then a else b.

(** [Number(b)] for a [bigint] [b]: the nearest binary64 value. *)
Definition Number_of_bigint (b : Z) : number :=
  SF2Prim (binary_normalize prec emax b 0 false).

(** ** Errors and settled promises *)

Inductive ErrorKind := PlainError | ReferenceError.

Record Error := mkError { kind : ErrorKind; message : string }.

Inductive Result (A : Type) :=
| Ok (a : A)
| Throw (e : Error).
Arguments Ok {A} a.
Arguments Throw {A} e.

(** ** Strings *)

(** [String.prototype.toLowerCase] on ASCII text. *)
Definition lower_ascii (c : ascii) : ascii :=
  let n := nat_of_ascii c in
  if (Nat.leb 65 n && Nat.leb n 90)%bool then ascii_of_nat (n + 32) else c.

Fixpoint toLowerCase (s : string) : string :=
  match s with
  | EmptyString => EmptyString
  | String c r => String (lower_ascii c) (toLowerCase r)
  end.

(** Does the string contain the character [c]? *)
Fixpoint contains (c : ascii) (s : string) : bool :=
  match s with
  | EmptyString => false
  | String d r => Ascii.eqb c d || contains c r
  end.

End Js.

(* ===================================================================== *)
(** * Insertion-ordered maps ([Map<K, V>]) *)
(* ===================================================================== *)

Module JsMap.
Section Defs.
Variables (K V : Type).
Variable eqb : K -> K -> bool.

Definition t := list (K * V).

Definition empty : t := [].

(** [m.get(k)]; [None] stands for [undefined]. *)
Fixpoint get (k : K) (m : t) : option V :=
  match m with
  | [] => None
  | (k', v) :: r => if eqb k k' then Some v else get k r
  end.

(** [m.set(k, v)]: an existing key keeps its position, a new key goes
    last. *)
Fixpoint set (k : K) (v : V) (m : t) : t :=
  match m with
  | [] => [(k, v)]
  | (k', v') :: r => if eqb k k' then (k', v) :: r else (k', v') :: set k v r
  end.

(** [Array.from(m.values())] and [Array.from(m.keys())]. *)
Definition values (m : t) : list V := map snd m.
Definition keys (m : t) : list K := map fst m.

End Defs.
End JsMap.

(* ===================================================================== *)
(** * Arrays *)
(* ===================================================================== *)

Module JsArray.
Section Sort.
Variable A : Type.

(** [before a b]: the comparator, called on [a] and [b], does not return
    a positive number, so [a] need not move behind [b]. *)
Variable before : A -> A -> bool.

(** [l.sort(compareFn)]. The sort is stable, and for a comparator that
    orders the elements consistently its result is the one stable sorted
    arrangement; it is computed here by insertion from the right. *)
Fixpoint insert (x : A) (sorted : list A) : list A :=
  match sorted with
  | [] => [x]
  | y :: r => if before x y then x :: y :: r else y :: insert x r
  end.

Definition sort (l : list A) : list A := fold_right insert [] l.

End Sort.

(** [l.slice(0, finish)]: a negative [finish] counts from the end. *)
Definition slice_to {A} (finish : Z) (l : list A) : list A :=
  if (finish <? 0)%Z
  then firstn (Z.to_nat (Z.of_nat (List.length l) + finish)) l
  else firstn (Z.to_nat finish) l.

End JsArray.

(* ===================================================================== *)
(** * types/chain.ts, types/price.ts, types/config.ts *)
(* ===================================================================== *)

Inductive ChainId := ETHEREUM | ARBITRUM | POLYGON | BASE.

(** The numeric value of the enum member. *)
Definition ChainId_value (c : ChainId) : Z :=
  match c with
  | ETHEREUM => 1
  | ARBITRUM => 42161
  | POLYGON => 137
  | BASE => 8453
  end.

(** The enum member inside a template literal. *)
Definition ChainId_toString (c : ChainId) : string :=
  match c with
  | ETHEREUM => "1"
  | ARBITRUM => "42161"
  | POLYGON => "137"
  | BASE => "8453"
  end.

Definition ChainId_eqb (a b : ChainId) : bool :=
  Z.eqb (ChainId_value a) (ChainId_value b).

Inductive DexName :=
| UNISWAP_V2 | UNISWAP_V3 | SUSHISWAP | CAMELOT | QUICKSWAP | AERODROME | BASESWAP.

(** The string value of the enum member. *)
Definition DexName_value (d : DexName) : string :=
  match d with
  | UNISWAP_V2 => "uniswap_v2"
  | UNISWAP_V3 => "uniswap_v3"
  | SUSHISWAP => "sushiswap"
  | CAMELOT => "camelot"
  | QUICKSWAP => "quickswap"
  | AERODROME => "aerodrome"
  | BASESWAP => "baseswap"
  end.

Definition DexName_eqb (a b : DexName) : bool :=
  String.eqb (DexName_value a) (DexName_value b).

Record DexConfig := mkDexConfig {
  dex_name : DexName;
  dex_chainId : ChainId;
  dex_version : string;
  dex_feeTier : option Z;
  dex_isActive : bool
}.

Record TokenPair := mkTokenPair {
  baseToken : string;
  quoteToken : string;
  baseTokenAddress : string;
  quoteTokenAddress : string;
  baseTokenDecimals : Z;
  quoteTokenDecimals : Z;
  pairAddress : string
}.

(** [PriceData]; the [id] (a fresh uuid) is left out: nothing reads it. *)
Record PriceData := mkPriceData {
  pd_chainId : ChainId;
  pd_dexName : DexName;
  pd_tokenPair : string;
  pd_baseToken : string;
  pd_quoteToken : string;
  pd_price : Js.number;
  pd_priceUsd : Js.number;
  pd_liquidity : Js.number;
  pd_volume24h : Js.number;
  pd_timestamp : Z;
  pd_blockNumber : Z;
  pd_gasPrice : option Z;
  pd_feeTier : option Z
}.

(** [ArbitrageOpportunity], again without its uuid. *)
Record ArbitrageOpportunity := mkOpportunity {
  op_tokenPair : string;
  op_baseToken : string;
  op_quoteToken : string;
  sourceChain : ChainId;
  sourceDex : DexName;
  targetChain : ChainId;
  targetDex : DexName;
  sourcePrice : Js.number;
  targetPrice : Js.number;
  priceDifference : Js.number;
  priceDifferencePercent : Js.number;
  potentialProfit : Js.number;
  gasCost : Js.number;
  netProfit : Js.number;
  profitMargin : Js.number;
  op_timestamp : Z;
  isProfitable : bool;
  op_minProfitThreshold : Js.number
}.

(** [AppConfig.trading]. *)
Record TradingConfig := mkTrading {
  minProfitThreshold : Js.number;
  maxGasCost : Js.number;
  minLiquidityThreshold : Js.number
}.

(* ===================================================================== *)
(** * utils/constants.ts *)
(* ===================================================================== *)

Module TOKEN_ADDRESSES.
Definition ETH := "0xC02aaA39b223FE8D0A0e5C4F27eAD9083C756Cc2".
Definition USDC := "0xA0b86a33E6441b8C4C8C8C8C8C8C8C8C8C8C8C8".
Definition USDT := "0xdAC17F958D2ee523a2206206994597C13D831ec7".
Definition WBTC := "0x2260FAC5E5542a773Aa44fBCfeDf7C193bc2C599".
End TOKEN_ADDRESSES.

Definition TOKEN_PAIRS : list TokenPair :=
  [ mkTokenPair "ETH" "USDC" TOKEN_ADDRESSES.ETH TOKEN_ADDRESSES.USDC 18 6 "";
    mkTokenPair "ETH" "USDT" TOKEN_ADDRESSES.ETH TOKEN_ADDRESSES.USDT 18 6 "";
    mkTokenPair "WBTC" "USDC" TOKEN_ADDRESSES.WBTC TOKEN_ADDRESSES.USDC 8 6 "";
    mkTokenPair "WBTC" "ETH" TOKEN_ADDRESSES.WBTC TOKEN_ADDRESSES.ETH 8 18 "" ].

(** [GAS_PRICES[chainId].gasLimit]. *)
Definition GAS_PRICES_gasLimit (c : ChainId) : Z :=
  match c with
  | ETHEREUM => 300000
  | ARBITRUM => 1000000
  | POLYGON => 500000
  | BASE => 500000
  end.

Module SYSTEM_CONSTANTS.
Definition MAX_RETRIES : nat := 3.
Definition PRICE_UPDATE_INTERVAL : Z := 1000.
Definition MAX_PRICE_AGE : Z := 60000.
End SYSTEM_CONSTANTS.

(* ===================================================================== *)
(** * config/chains.ts *)
(* ===================================================================== *)

(** [DEX_CONFIGS]; the factory and router addresses are never read by the
    code modelled here and are left out. *)
Definition DEX_CONFIGS : list DexConfig :=
  [ mkDexConfig UNISWAP_V2 ETHEREUM "v2" None true;
    mkDexConfig UNISWAP_V3 ETHEREUM "v3" (Some 3000) true;
    mkDexConfig SUSHISWAP ETHEREUM "v2" None true;
    mkDexConfig UNISWAP_V3 ARBITRUM "v3" (Some 3000) true;
    mkDexConfig SUSHISWAP ARBITRUM "v2" None true;
    mkDexConfig CAMELOT ARBITRUM "v2" None true;
    mkDexConfig UNISWAP_V3 POLYGON "v3" (Some 3000) true;
    mkDexConfig SUSHISWAP POLYGON "v2" None true;
    mkDexConfig QUICKSWAP POLYGON "v2" None true;
    mkDexConfig UNISWAP_V3 BASE "v3" (Some 3000) true;
    mkDexConfig AERODROME BASE "v2" None true;
    mkDexConfig BASESWAP BASE "v2" None true ].

Definition getActiveDexConfigs : list DexConfig :=
  filter dex_isActive DEX_CONFIGS.

(* ===================================================================== *)
(** * Asynchronous methods: state and rejection *)
(* ===================================================================== *)

(** An [async] method of an object whose fields are [S]: it runs from a
    state, may change it, and settles. The state it leaves behind is kept
    when it rejects, as the fields of a JavaScript object are. *)
Definition Eff (S A : Type) : Type := S -> S * Js.Result A.

Module Eff.
Section Ops.
Context {S : Type}.

Definition ret {A} (a : A) : Eff S A := fun s => (s, Js.Ok a).

Definition throw {A} (e : Js.Error) : Eff S A := fun s => (s, Js.Throw e).

Definition bind {A B} (m : Eff S A) (k : A -> Eff S B) : Eff S B :=
  fun s =>
    match m s with
    | (s', Js.Ok a) => k a s'
    | (s', Js.Throw e) => (s', Js.Throw e)
    end.

(** [try { m } catch (e) { h e }]. *)
Definition try_catch {A} (m : Eff S A) (h : Js.Error -> Eff S A) : Eff S A :=
  fun s =>
    match m s with
    | (s', Js.Ok a) => (s', Js.Ok a)
    | (s', Js.Throw e) => h e s'
    end.

Definition get : Eff S S := fun s => (s, Js.Ok s).

Definition modify (f : S -> S) : Eff S unit := fun s => (f s, Js.Ok tt).

End Ops.
End Eff.

Notation "x <- m ;; k" := (Eff.bind m (fun x => k))
  (at level 61, m at next level, right associativity).
Notation "m ;;; k" := (Eff.bind m (fun _ => k))
  (at level 61, right associativity).

(* ===================================================================== *)
(** * services/database.ts *)
(* ===================================================================== *)

(** One element of [performanceMetrics] (its uuid left out). *)
Record Metric := mkMetric {
  m_operation : string;
  m_duration_ms : Z;
  m_chain_id : option ChainId;
  m_dex_name : option DexName;
  m_success : bool;
  m_error_message : option string;
  m_timestamp : Z
}.

(** [DatabaseData]; the health and alert tables are not touched by the
    code modelled here. *)
Record DatabaseData := mkDatabase {
  prices : list PriceData;
  opportunities : list ArbitrageOpportunity;
  performanceMetrics : list Metric
}.

(** [SystemHealth] and [PriceAlert] of types/price.ts. *)
Inductive RpcStatus := StatusHealthy | StatusDegraded | StatusDown.

Record SystemHealth := mkSystemHealth {
  sh_id : string;
  sh_chainId : ChainId;
  sh_rpcStatus : RpcStatus;
  sh_lastBlockNumber : Z;
  sh_lastBlockTime : option Z;
  sh_latency : Z;
  sh_errorCount : nat;
  sh_uptime : option Z;
  sh_timestamp : Z
}.

Record PriceAlert := mkPriceAlert {
  pa_id : string;
  pa_opportunityId : string;
  pa_tokenPair : string;
  pa_profitMargin : Js.number;
  pa_netProfit : Js.number;
  pa_sourceChain : ChainId;
  pa_targetChain : ChainId;
  pa_timestamp : Z;
  pa_isNotified : bool;
  pa_notificationSentAt : option Z
}.

(** All five tables of [DatabaseData]: the three above and the health and
    alert tables. *)
Record Tables := mkTables {
  core : DatabaseData;
  systemHealth : list SystemHealth;
  priceAlerts : list PriceAlert
}.

(** The service is taken as initialised: [initialize] returns at once. *)
Module DatabaseService.
Section WithFileSystem.

(** [fs.writeFile] of the serialised data: the one place where a store
    can fail. *)
Variable writeFile : DatabaseData -> Js.Result unit.

Definition saveData : Eff DatabaseData unit :=
  fun db => (db, writeFile db).

(** [l.push(x); if (l.length > n) l = l.slice(-n)]. *)
Definition push_capped {A} (n : nat) (l : list A) (x : A) : list A :=
  let l' := l ++ [x] in
  if Nat.ltb n (List.length l') then skipn (List.length l' - n) l' else l'.

Definition storePriceData (priceData : PriceData) : Eff DatabaseData unit :=
  Eff.modify (fun db =>
    mkDatabase (push_capped (10 * 1000) (prices db) priceData)
               (opportunities db) (performanceMetrics db)) ;;;
  saveData.

Definition storeArbitrageOpportunity (opportunity : ArbitrageOpportunity)
  : Eff DatabaseData unit :=
  Eff.modify (fun db =>
    mkDatabase (prices db)
               (push_capped 1000 (opportunities db) opportunity)
               (performanceMetrics db)) ;;;
  saveData.

Definition storePerformanceMetric
    (operation : string) (duration : Z) (success : bool)
    (chainId : option ChainId) (dexName : option DexName)
    (errorMessage : option string) (timestamp : Z)
  : Eff DatabaseData unit :=
  Eff.modify (fun db =>
    mkDatabase (prices db) (opportunities db)
               (push_capped 1000 (performanceMetrics db)
                  (mkMetric operation duration chainId dexName success
                            errorMessage timestamp))) ;;;
  saveData.

End WithFileSystem.

(** ** Queries

    A query reads [this.data] and builds a new array with [filter]; the
    tables are left as they are. *)

(** [(a, b) => b.timestamp.getTime() - a.timestamp.getTime()] is not
    positive. *)
Definition newestFirst {A} (timestamp : A -> Z) (a b : A) : bool :=
  (timestamp b - timestamp a <=? 0)%Z.

Definition getRecentPrices (tokenPair : string) (limit : Z) (db : DatabaseData)
  : list PriceData :=
  JsArray.slice_to limit
    (JsArray.sort (newestFirst pd_timestamp)
       (filter (fun p => String.eqb (pd_tokenPair p) tokenPair) (prices db))).

Definition getPricesByChainAndDex (chainId : ChainId) (dexName : DexName)
    (limit : Z) (db : DatabaseData) : list PriceData :=
  JsArray.slice_to limit
    (JsArray.sort (newestFirst pd_timestamp)
       (filter (fun p => ChainId_eqb (pd_chainId p) chainId
                         && DexName_eqb (pd_dexName p) dexName)
               (prices db))).

(** [getPerformanceMetrics(operation, hours)] at time [now]; an operation
    that is [undefined] or the empty string is falsy and filters nothing. *)
Definition getPerformanceMetrics (operation : option string) (hours : Z)
    (now : Z) (db : DatabaseData) : list Metric :=
  let cutoffTime := now - hours * 60 * 60 * 1000 in
  let metrics :=
    filter (fun m => (cutoffTime <? m_timestamp m)%Z) (performanceMetrics db) in
  match operation with
  | Some op =>
      if String.eqb op "" then metrics
      else filter (fun m => String.eqb (m_operation m) op) metrics
  | None => metrics
  end.

(** [getUnprocessedAlerts]. *)
Definition getUnprocessedAlerts (t : Tables) : list PriceAlert :=
  JsArray.sort (newestFirst pa_timestamp)
    (filter (fun a => negb (pa_isNotified a)) (priceAlerts t)).

(** ** Methods on the health and alert tables *)

Section WithTables.

(** [fs.writeFile] of all five tables. *)
Variable writeTables : Tables -> Js.Result unit.

Definition saveTables : Eff Tables unit :=
  fun t => (t, writeTables t).

Definition storeSystemHealth (health : SystemHealth) : Eff Tables unit :=
  Eff.modify (fun t =>
    mkTables (core t) (push_capped 1000 (systemHealth t) health)
             (priceAlerts t)) ;;;
  saveTables.

Definition storePriceAlert (alert : PriceAlert) : Eff Tables unit :=
  Eff.modify (fun t =>
    mkTables (core t) (systemHealth t)
             (push_capped 500 (priceAlerts t) alert)) ;;;
  saveTables.

(** [getSystemHealth]: [sort] is called on [this.data.systemHealth]
    itself, so the table is reordered in place and then returned. *)
Definition getSystemHealth : Eff Tables (list SystemHealth) :=
  fun t =>
    let healthData := JsArray.sort (newestFirst sh_timestamp) (systemHealth t) in
    (mkTables (core t) healthData (priceAlerts t), Js.Ok healthData).

(** [alert.isNotified = true; alert.notificationSentAt = new Date()] on
    the first alert that [find] returns; [None] when there is none. *)
Fixpoint notifyFirst (alertId : string) (now : Z) (alerts : list PriceAlert)
  : option (list PriceAlert) :=
  match alerts with
  | [] => None
  | a :: rest =>
      if String.eqb (pa_id a) alertId then
        Some (mkPriceAlert (pa_id a) (pa_opportunityId a) (pa_tokenPair a)
                (pa_profitMargin a) (pa_netProfit a) (pa_sourceChain a)
                (pa_targetChain a) (pa_timestamp a) true (Some now) :: rest)
      else option_map (cons a) (notifyFirst alertId now rest)
  end.

Definition markAlertAsNotified (alertId : string) (now : Z) : Eff Tables unit :=
  t <- Eff.get ;;
  match notifyFirst alertId now (priceAlerts t) with
  | Some alerts =>
      Eff.modify (fun t => mkTables (core t) (systemHealth t) alerts) ;;;
      saveTables
  | None => Eff.ret tt
  end.

(** [cleanOldData]; [now7] and [now30] are the two readings of the clock.
    The [catch] logs and does not throw again. *)
Definition cleanOldData (now7 now30 : Z) : Eff Tables unit :=
  Eff.try_catch
    (Eff.modify (fun t =>
       let sevenDaysAgo := now7 - 7 * 24 * 60 * 60 * 1000 in
       let thirtyDaysAgo := now30 - 30 * 24 * 60 * 60 * 1000 in
       mkTables
         (mkDatabase
            (filter (fun p => (sevenDaysAgo <? pd_timestamp p)%Z)
                    (prices (core t)))
            (filter (fun o => (thirtyDaysAgo <? op_timestamp o)%Z)
                    (opportunities (core t)))
            (filter (fun m => (thirtyDaysAgo <? m_timestamp m)%Z)
                    (performanceMetrics (core t))))
         (filter (fun h => (sevenDaysAgo <? sh_timestamp h)%Z) (systemHealth t))
         (filter (fun a => (sevenDaysAgo <? pa_timestamp a)%Z) (priceAlerts t))) ;;;
     saveTables)
    (fun _ => Eff.ret tt).

End WithTables.
End DatabaseService.

(* ===================================================================== *)
(** * services/priceCalculator.ts *)
(* ===================================================================== *)

Module PriceCalculator.
Section WithWorld.

(** [this.config.trading]. *)
Variable config : TradingConfig.

(** What [chainManager.getProvider(chainId)] followed by
    [provider.getFeeData()] settles to: the [gasPrice] field (a bigint
    or null), or a rejection. *)
Variable feeData : ChainId -> Js.Result (option Z).

(** The clock; one detection pass is short enough for a single reading. *)
Variable now : Z.

Variable writeFile : DatabaseData -> Js.Result unit.

(** [estimateGasCost]: the [catch] turns any failure into a cost of zero. *)
Definition estimateGasCost (chainId : ChainId) : Js.number :=
  match feeData chainId with
  | Js.Ok gasPrice =>
      let estimatedGasLimit := GAS_PRICES_gasLimit chainId in
      let gasCostWei :=
        (match gasPrice with Some g => g | None => 0 end) * estimatedGasLimit in
      let gasCostEth := (Js.Number_of_bigint gasCostWei / 1e18)%float in
      let ethPrice := 2000%float in
      (gasCostEth * ethPrice)%float
  | Js.Throw _ => 0%float
  end.

(** [calculateOpportunity]; [None] is [null]. Arithmetic on numbers does
    not throw and the estimator catches its own errors, so the [catch]
    around the body is never entered. *)
Definition calculateOpportunity (sourcePrice targetPrice : PriceData)
  : option ArbitrageOpportunity :=
  let priceDifference :=
    Js.Math_abs (pd_price sourcePrice - pd_price targetPrice)%float in
  let priceDifferencePercent :=
    (priceDifference / Js.Math_min (pd_price sourcePrice) (pd_price targetPrice)
     * 100)%float in
  if Js.lt priceDifferencePercent (minProfitThreshold config) then None
  else
    let isSourceCheaper := Js.lt (pd_price sourcePrice) (pd_price targetPrice) in
    let buyPrice := if isSourceCheaper then pd_price sourcePrice else pd_price targetPrice in
    let sellPrice := if isSourceCheaper then pd_price targetPrice else pd_price sourcePrice in
    let buyChain := if isSourceCheaper then pd_chainId sourcePrice else pd_chainId targetPrice in
    let sellChain := if isSourceCheaper then pd_chainId targetPrice else pd_chainId sourcePrice in
    let buyDex := if isSourceCheaper then pd_dexName sourcePrice else pd_dexName targetPrice in
    let sellDex := if isSourceCheaper then pd_dexName targetPrice else pd_dexName sourcePrice in
    let potentialProfit := ((sellPrice - buyPrice) * pd_liquidity sourcePrice)%float in
    let buyGasCost := estimateGasCost buyChain in
    let sellGasCost := estimateGasCost sellChain in
    let totalGasCost := (buyGasCost + sellGasCost)%float in
    let netProfit := (potentialProfit - totalGasCost)%float in
    let profitMargin := (netProfit / potentialProfit * 100)%float in
    let isProfitable :=
      Js.gt netProfit 0%float &&
      Js.ge profitMargin (minProfitThreshold config) &&
      Js.le totalGasCost (maxGasCost config) in
    Some {| op_tokenPair := pd_tokenPair sourcePrice;
            op_baseToken := pd_baseToken sourcePrice;
            op_quoteToken := pd_quoteToken sourcePrice;
            sourceChain := buyChain;
            sourceDex := buyDex;
            targetChain := sellChain;
            targetDex := sellDex;
            sourcePrice := buyPrice;
            targetPrice := sellPrice;
            priceDifference := priceDifference;
            priceDifferencePercent := priceDifferencePercent;
            potentialProfit := potentialProfit;
            gasCost := totalGasCost;
            netProfit := netProfit;
            profitMargin := profitMargin;
            op_timestamp := now;
            isProfitable := isProfitable;
            op_minProfitThreshold := minProfitThreshold config |}.

(** The filter at the head of [calculatePairOpportunities]. *)
Definition isRecent (price : PriceData) : bool :=
  (now - pd_timestamp price <? SYSTEM_CONSTANTS.MAX_PRICE_AGE)%Z.

Definition sameVenue (a b : PriceData) : bool :=
  ChainId_eqb (pd_chainId a) (pd_chainId b) &&
  DexName_eqb (pd_dexName a) (pd_dexName b).

(** The inner loop, [for (j = i + 1; ...)]: [sourcePrice] is
    [recentPrices[i]] and [targets] are the entries after it. *)
Fixpoint compareWith (sourcePrice : PriceData) (targets : list PriceData)
    (acc : list ArbitrageOpportunity)
  : Eff DatabaseData (list ArbitrageOpportunity) :=
  match targets with
  | [] => Eff.ret acc
  | targetPrice :: rest =>
      if sameVenue sourcePrice targetPrice then compareWith sourcePrice rest acc
      else
        match calculateOpportunity sourcePrice targetPrice with
        | Some opportunity =>
            if isProfitable opportunity then
              DatabaseService.storeArbitrageOpportunity writeFile opportunity ;;;
              compareWith sourcePrice rest (acc ++ [opportunity])
            else compareWith sourcePrice rest acc
        | None => compareWith sourcePrice rest acc
        end
  end.

(** The outer loop, [for (i = 0; ...)]. *)
Fixpoint compareAll (recentPrices : list PriceData)
    (acc : list ArbitrageOpportunity)
  : Eff DatabaseData (list ArbitrageOpportunity) :=
  match recentPrices with
  | [] => Eff.ret acc
  | sourcePrice :: rest =>
      acc' <- compareWith sourcePrice rest acc ;;
      compareAll rest acc'
  end.

Definition calculatePairOpportunities (tokenPair : string)
    (prices : list PriceData)
  : Eff DatabaseData (list ArbitrageOpportunity) :=
  let recentPrices := filter isRecent prices in
  if Nat.ltb (List.length recentPrices) 2 then Eff.ret []
  else compareAll recentPrices [].

(** [groupPricesByPair]: a [Map] from pair name to the prices of that
    pair, in order of first appearance. *)
Fixpoint groupPricesByPair_from (priceData : list PriceData)
    (grouped : JsMap.t string (list PriceData))
  : JsMap.t string (list PriceData) :=
  match priceData with
  | [] => grouped
  | price :: rest =>
      let key := pd_tokenPair price in
      let bucket :=
        match JsMap.get String.eqb key grouped with
        | Some l => l
        | None => []
        end in
      groupPricesByPair_from rest
        (JsMap.set String.eqb key (bucket ++ [price]) grouped)
  end.

Definition groupPricesByPair (priceData : list PriceData) :=
  groupPricesByPair_from priceData (JsMap.empty _ _).

Fixpoint forEachPair (groups : JsMap.t string (list PriceData))
    (acc : list ArbitrageOpportunity)
  : Eff DatabaseData (list ArbitrageOpportunity) :=
  match groups with
  | [] => Eff.ret acc
  | (tokenPair, prices) :: rest =>
      pairOpportunities <- calculatePairOpportunities tokenPair prices ;;
      forEachPair rest (acc ++ pairOpportunities)
  end.

Definition calculateArbitrageOpportunities (priceData : list PriceData)
  : Eff DatabaseData (list ArbitrageOpportunity) :=
  forEachPair (groupPricesByPair priceData) [].

(** [validateOpportunity], with [now] the time of the validation. The
    estimator catches its own errors, so the [catch] is never entered. *)
Definition validateOpportunity (opportunity : ArbitrageOpportunity) : bool :=
  let maxAge := SYSTEM_CONSTANTS.MAX_PRICE_AGE in
  let opportunityAge := now - op_timestamp opportunity in
  if (maxAge <? opportunityAge)%Z then false
  else
    let currentGasCost :=
      (estimateGasCost (sourceChain opportunity)
       + estimateGasCost (targetChain opportunity))%float in
    let currentNetProfit :=
      (potentialProfit opportunity - currentGasCost)%float in
    let currentProfitMargin :=
      (currentNetProfit / potentialProfit opportunity * 100)%float in
    Js.gt currentNetProfit 0%float
    && Js.ge currentProfitMargin (minProfitThreshold config)
    && Js.le currentGasCost (maxGasCost config).

End WithWorld.
End PriceCalculator.

(* ===================================================================== *)
(** * config/chains.ts: chain configurations *)
(* ===================================================================== *)

Record ChainConfig := mkChainConfig {
  cfg_id : ChainId;
  cfg_name : string;
  cfg_http : list string;
  cfg_ws : list string
}.

Section ChainConfigs.

(** [process.env]. *)
Variable env : string -> option string.

(** [process.env.NAME || fallback]: an unset or empty variable is falsy. *)
Definition envOr (name fallback : string) : string :=
  match env name with
  | Some v => if String.eqb v "" then fallback else v
  | None => fallback
  end.

Definition getChainConfig (chainId : ChainId) : ChainConfig :=
  match chainId with
  | ETHEREUM =>
      mkChainConfig ETHEREUM "Ethereum"
        [ envOr "ETHEREUM_RPC_HTTP" "https://eth-mainnet.alchemyapi.io/v2/your-api-key";
          "https://mainnet.infura.io/v3/your-project-id";
          "https://rpc.ankr.com/eth" ]
        [ envOr "ETHEREUM_RPC_WS" "wss://eth-mainnet.ws.alchemyapi.io/v2/your-api-key";
          "wss://mainnet.infura.io/ws/v3/your-project-id" ]
  | ARBITRUM =>
      mkChainConfig ARBITRUM "Arbitrum"
        [ envOr "ARBITRUM_RPC_HTTP" "https://arb-mainnet.g.alchemy.com/v2/your-api-key";
          "https://arb1.arbitrum.io/rpc";
          "https://rpc.ankr.com/arbitrum" ]
        [ envOr "ARBITRUM_RPC_WS" "wss://arb-mainnet.g.alchemy.com/v2/your-api-key";
          "wss://arb1.arbitrum.io/ws" ]
  | POLYGON =>
      mkChainConfig POLYGON "Polygon"
        [ envOr "POLYGON_RPC_HTTP" "https://polygon-mainnet.g.alchemy.com/v2/your-api-key";
          "https://polygon-rpc.com";
          "https://rpc.ankr.com/polygon" ]
        [ envOr "POLYGON_RPC_WS" "wss://polygon-mainnet.g.alchemy.com/v2/your-api-key";
          "wss://polygon-rpc.com/ws" ]
  | BASE =>
      mkChainConfig BASE "Base"
        [ envOr "BASE_RPC_HTTP" "https://mainnet.base.org";
          "https://base.blockpi.network/v1/rpc/public";
          "https://1rpc.io/base" ]
        [ envOr "BASE_RPC_WS" "wss://mainnet.base.org";
          "wss://base.blockpi.network/v1/rpc/public" ]
  end.

(** config/env.ts: [validateEnvironment]. *)
Definition requiredVars : list string :=
  [ "ETHEREUM_RPC_HTTP"; "ETHEREUM_RPC_WS";
    "ARBITRUM_RPC_HTTP"; "ARBITRUM_RPC_WS";
    "POLYGON_RPC_HTTP"; "POLYGON_RPC_WS";
    "BASE_RPC_HTTP"; "BASE_RPC_WS" ].

(** [!process.env[varName]]. *)
Definition unset (varName : string) : bool :=
  match env varName with
  | Some v => String.eqb v ""
  | None => true
  end.

Definition validateEnvironment : Js.Result unit :=
  let missingVars := filter unset requiredVars in
  if Nat.ltb 0 (List.length missingVars) then
    Js.Throw (Js.mkError Js.PlainError
      ("Missing required environment variables: "
       ++ String.concat ", " missingVars)%string)
  else Js.Ok tt.

End ChainConfigs.

(* ===================================================================== *)
(** * services/chainManager.ts *)
(* ===================================================================== *)

Record RpcConnection := mkRpcConnection {
  url : string;
  isActive : bool;
  lastUsed : Z;
  latency : Z;
  errorCount : nat;
  maxRetries : nat
}.

(** An [ethers.JsonRpcProvider]: the endpoint it talks to and, to tell two
    provider objects apart, the number of network calls that had been made
    when it was constructed. *)
Record Provider := mkProvider {
  provider_url : string;
  provider_serial : nat
}.

(** [ChainConnection]. [lastBlockTime] is [None] for an invalid [Date]. *)
Record ChainConnection := mkChainConnection {
  cc_chainId : ChainId;
  provider : option Provider;
  wsProvider : option Provider;
  connections : list RpcConnection;
  currentConnectionIndex : nat;
  isHealthy : bool;
  lastBlockNumber : Z;
  lastBlockTime : option Z
}.

(** One request sent to an endpoint. *)
Record NetworkCall := mkCall { call_url : string; call_method : string }.

(** The fields of the [ChainManager] singleton, and the network calls the
    process has made so far. *)
Record ChainManagerState := mkChainManager {
  cm_connections : JsMap.t ChainId ChainConnection;
  cm_io : list NetworkCall
}.

(** The outside world as the chain manager and the providers it hands out
    see it. The [nat] is the number of network calls made before the one
    being answered, so any schedule of failures can be described. *)
Record RpcWorld := mkRpcWorld {
  rpc_getBlockNumber : nat -> string -> Js.Result Z;
  rpc_getBlock : nat -> string -> Js.Result (option Z);
  rpc_getFeeData : nat -> string -> Js.Result (option Z);
  clock : nat -> Z
}.

(** [l[i] = f(l[i])] for an index inside the array. *)
Fixpoint list_modify {A} (i : nat) (f : A -> A) (l : list A) : list A :=
  match l, i with
  | [], _ => []
  | x :: r, O => f x :: r
  | x :: r, S j => x :: list_modify j f r
  end.

(** p-retry's [pRetry(input, { retries, onFailedAttempt })]: [input] is run;
    when it rejects [onFailedAttempt] is awaited and, while retries are
    left, [input] is run again; with none left the promise rejects with the
    error of the last run. Every rejection counts as a failed attempt (the
    library's immediate abort on an [AbortError] is not used by the bot);
    the delay between runs is not modelled. *)
Fixpoint pRetry {S A} (input : Eff S A)
    (onFailedAttempt : Js.Error -> Eff S unit) (retries : nat) : Eff S A :=
  Eff.try_catch input (fun error =>
    onFailedAttempt error ;;;
    match retries with
    | O => Eff.throw error
    | Datatypes.S retriesLeft => pRetry input onFailedAttempt retriesLeft
    end).

Module ChainManager.

Definition createRpcConnections (chainConfig : ChainConfig) (now : Z)
  : list RpcConnection :=
  map (fun u => mkRpcConnection u true now 0 0 SYSTEM_CONSTANTS.MAX_RETRIES)
      (cfg_http chainConfig)
  ++
  map (fun u => mkRpcConnection u true now 0 0 SYSTEM_CONSTANTS.MAX_RETRIES)
      (cfg_ws chainConfig).

(** The constructor: [initializeConnections]. *)
Definition initializeConnections (env : string -> option string) (now : Z)
  : ChainManagerState :=
  let chains := [ETHEREUM; ARBITRUM; POLYGON; BASE] in
  mkChainManager
    (fold_left
       (fun m chainId =>
          let chainConfig := getChainConfig env chainId in
          JsMap.set ChainId_eqb chainId
            (mkChainConnection chainId None None
               (createRpcConnections chainConfig now) 0 false 0 (Some now))
            m)
       chains (JsMap.empty _ _))
    [].

Section WithWorld.

Variable world : RpcWorld.

Definition Cm (A : Type) := Eff ChainManagerState A.

(** The time read when [s] is the current state. *)
Definition Date_now (s : ChainManagerState) : Z :=
  clock world (List.length (cm_io s)).

(** Mutation of the [ChainConnection] object held under [chainId]. *)
Definition modifyConnection (chainId : ChainId)
    (f : ChainConnection -> ChainConnection) : Cm unit :=
  Eff.modify (fun s =>
    match JsMap.get ChainId_eqb chainId (cm_connections s) with
    | Some c =>
        mkChainManager (JsMap.set ChainId_eqb chainId (f c) (cm_connections s))
                       (cm_io s)
    | None => s
    end).

(** Mutation of [connection.connections[i]]. *)
Definition modifyRpc (chainId : ChainId) (i : nat)
    (f : RpcConnection -> RpcConnection) : Cm unit :=
  modifyConnection chainId (fun c =>
    mkChainConnection (cc_chainId c) (provider c) (wsProvider c)
      (list_modify i f (connections c))
      (currentConnectionIndex c) (isHealthy c)
      (lastBlockNumber c) (lastBlockTime c)).

(** One request to [u], answered by the world. *)
Definition networkCall {A} (answer : nat -> string -> Js.Result A)
    (u method : string) : Cm A :=
  fun s =>
    (mkChainManager (cm_connections s) (cm_io s ++ [mkCall u method]),
     answer (List.length (cm_io s)) u).

(** The operation [establishConnection] hands to [pRetry]: construct a
    provider for the endpoint, test it with [getBlockNumber], and on
    success record latency and time and reset the error counter. *)
Definition connectOnce (chainId : ChainId) (i : nat) (u : string)
  : Cm Provider :=
  s0 <- Eff.get ;;
  let start := Date_now s0 in
  let p := mkProvider u (List.length (cm_io s0)) in
  networkCall (rpc_getBlockNumber world) u "eth_blockNumber" ;;;
  s1 <- Eff.get ;;
  let finish := Date_now s1 in
  modifyRpc chainId i (fun r =>
    mkRpcConnection (url r) (isActive r) finish (finish - start) 0
                    (maxRetries r)) ;;;
  Eff.ret p.

Definition incrementErrorCount (r : RpcConnection) : RpcConnection :=
  mkRpcConnection (url r) (isActive r) (lastUsed r) (latency r)
                  (S (errorCount r)) (maxRetries r).

Definition deactivate (r : RpcConnection) : RpcConnection :=
  mkRpcConnection (url r) false (lastUsed r) (latency r)
                  (errorCount r) (maxRetries r).

Definition allFailed (chainId : ChainId) : Js.Error :=
  Js.mkError Js.PlainError
    ("All RPC connections failed for chain " ++ ChainId_toString chainId)%string.

(** The loop of [establishConnection] from index [i], with [remaining]
    endpoints still to visit. *)
Fixpoint establishFrom (chainId : ChainId) (i remaining : nat) : Cm Provider :=
  match remaining with
  | O =>
      modifyConnection chainId (fun c =>
        mkChainConnection (cc_chainId c) (provider c) (wsProvider c)
          (connections c) (currentConnectionIndex c) false
          (lastBlockNumber c) (lastBlockTime c)) ;;;
      Eff.throw (allFailed chainId)
  | S remaining' =>
      s <- Eff.get ;;
      match JsMap.get ChainId_eqb chainId (cm_connections s) with
      | None => Eff.throw (allFailed chainId)
      | Some connection =>
          match nth_error (connections connection) i with
          | None => Eff.throw (allFailed chainId)
          | Some rpcConnection =>
              if negb (isActive rpcConnection)
                 || Nat.leb (maxRetries rpcConnection) (errorCount rpcConnection)
              then establishFrom chainId (S i) remaining'
              else
                Eff.try_catch
                  (p <-
                     pRetry (connectOnce chainId i (url rpcConnection))
                            (fun _ => modifyRpc chainId i incrementErrorCount)
                            2 ;;
                   s' <- Eff.get ;;
                   modifyConnection chainId (fun c =>
                     mkChainConnection (cc_chainId c) (Some p)
                       (wsProvider c) (connections c) i true
                       (lastBlockNumber c) (Some (Date_now s'))) ;;;
                   Eff.ret p)
                  (fun _ =>
                     modifyRpc chainId i
                       (fun r => deactivate (incrementErrorCount r)) ;;;
                     establishFrom chainId (S i) remaining')
          end
      end
  end.

Definition establishConnection (chainId : ChainId)
    (connection : ChainConnection) : Cm Provider :=
  establishFrom chainId 0 (List.length (connections connection)).

Definition getProvider (chainId : ChainId) : Cm Provider :=
  s <- Eff.get ;;
  match JsMap.get ChainId_eqb chainId (cm_connections s) with
  | None =>
      Eff.throw (Js.mkError Js.PlainError
        ("No connection found for chain " ++ ChainId_toString chainId)%string)
  | Some connection =>
      match provider connection with
      | Some p =>
          if isHealthy connection then Eff.ret p
          else establishConnection chainId connection
      | None => establishConnection chainId connection
      end
  end.

Definition markUnhealthy (c : ChainConnection) : ChainConnection :=
  mkChainConnection (cc_chainId c) (provider c) (wsProvider c)
    (connections c) (currentConnectionIndex c) false
    (lastBlockNumber c) (lastBlockTime c).

Definition updateBlockInfo (chainId : ChainId) : Cm unit :=
  s <- Eff.get ;;
  match JsMap.get ChainId_eqb chainId (cm_connections s) with
  | None => Eff.ret tt
  | Some _ =>
      Eff.try_catch
        (p <- getProvider chainId ;;
         blockNumber <- networkCall (rpc_getBlockNumber world)
                          (provider_url p) "eth_blockNumber" ;;
         block <- networkCall (rpc_getBlock world)
                    (provider_url p) "eth_getBlockByNumber" ;;
         modifyConnection chainId (fun c =>
           mkChainConnection (cc_chainId c) (provider c)
             (wsProvider c) (connections c) (currentConnectionIndex c)
             (isHealthy c) blockNumber
             (option_map (fun t => t * 1000) block)))
        (fun _ => modifyConnection chainId markUnhealthy)
  end.

Definition getBlockNumber (chainId : ChainId) : Cm Z :=
  p <- getProvider chainId ;;
  networkCall (rpc_getBlockNumber world) (provider_url p) "eth_blockNumber".

Definition getGasPrice (chainId : ChainId) : Cm Z :=
  p <- getProvider chainId ;;
  gasPrice <- networkCall (rpc_getFeeData world)
                (provider_url p) "eth_gasPrice" ;;
  Eff.ret (match gasPrice with Some g => g | None => 0 end).

Definition isChainHealthy (chainId : ChainId) (s : ChainManagerState) : bool :=
  match JsMap.get ChainId_eqb chainId (cm_connections s) with
  | Some connection => isHealthy connection
  | None => false
  end.

Definition getConnectionStatus (s : ChainManagerState)
  : list (ChainId * bool) :=
  map (fun kv => (fst kv, isHealthy (snd kv))) (cm_connections s).

(** [performHealthCheck]: [updateBlockInfo] catches its own errors, so the
    [catch] of the loop body is never entered. *)
Fixpoint healthCheckEach (chains : list ChainId) : Cm unit :=
  match chains with
  | [] => Eff.ret tt
  | chainId :: rest =>
      Eff.try_catch (updateBlockInfo chainId)
        (fun _ => modifyConnection chainId markUnhealthy) ;;;
      healthCheckEach rest
  end.

Definition performHealthCheck : Cm unit :=
  s <- Eff.get ;;
  healthCheckEach (JsMap.keys (cm_connections s)).

(** ** [getWebSocketProvider] *)

(** [connection.connections.filter(...)]: the endpoints whose URL starts
    with [wss://] and that are active, each with its index in
    [connection.connections] (the filtered array holds the same
    objects). *)
Fixpoint wsConnections_from (i : nat) (l : list RpcConnection)
  : list (nat * RpcConnection) :=
  match l with
  | [] => []
  | conn :: rest =>
      if String.prefix "wss://" (url conn) && isActive conn
      then (i, conn) :: wsConnections_from (S i) rest
      else wsConnections_from (S i) rest
  end.

Definition noWebSocket (chainId : ChainId) : Js.Error :=
  Js.mkError Js.PlainError
    ("No active WebSocket connections for chain "
     ++ ChainId_toString chainId)%string.

Definition allWebSocketsFailed (chainId : ChainId) : Js.Error :=
  Js.mkError Js.PlainError
    ("All WebSocket connections failed for chain "
     ++ ChainId_toString chainId)%string.

(** The [try] block of the loop: construct a provider, test it, record
    the success on the endpoint and on the connection. *)
Definition connectWebSocket (chainId : ChainId) (i : nat) (u : string)
  : Cm Provider :=
  s0 <- Eff.get ;;
  let p := mkProvider u (List.length (cm_io s0)) in
  networkCall (rpc_getBlockNumber world) u "eth_blockNumber" ;;;
  s1 <- Eff.get ;;
  modifyRpc chainId i (fun r =>
    mkRpcConnection (url r) (isActive r) (Date_now s1) 0 0 (maxRetries r)) ;;;
  modifyConnection chainId (fun c =>
    mkChainConnection (cc_chainId c) (provider c) (Some p) (connections c)
      (currentConnectionIndex c) true (lastBlockNumber c) (lastBlockTime c)) ;;;
  Eff.ret p.

(** [for (const wsConnection of wsConnections)]. *)
Fixpoint tryWebSockets (chainId : ChainId)
    (wsConnections : list (nat * RpcConnection)) : Cm Provider :=
  match wsConnections with
  | [] => Eff.throw (allWebSocketsFailed chainId)
  | (i, wsConnection) :: rest =>
      Eff.try_catch (connectWebSocket chainId i (url wsConnection))
        (fun _ =>
           modifyRpc chainId i (fun r => deactivate (incrementErrorCount r)) ;;;
           tryWebSockets chainId rest)
  end.

(** The part of [getWebSocketProvider] after the cached provider has been
    ruled out. *)
Definition establishWebSocket (chainId : ChainId)
    (connection : ChainConnection) : Cm Provider :=
  let wsConnections := wsConnections_from 0 (connections connection) in
  if Nat.eqb (List.length wsConnections) 0 then Eff.throw (noWebSocket chainId)
  else tryWebSockets chainId wsConnections.

Definition getWebSocketProvider (chainId : ChainId) : Cm Provider :=
  s <- Eff.get ;;
  match JsMap.get ChainId_eqb chainId (cm_connections s) with
  | None =>
      Eff.throw (Js.mkError Js.PlainError
        ("No connection found for chain " ++ ChainId_toString chainId)%string)
  | Some connection =>
      match wsProvider connection with
      | Some p =>
          if isHealthy connection then Eff.ret p
          else establishWebSocket chainId connection
      | None => establishWebSocket chainId connection
      end
  end.

End WithWorld.
End ChainManager.

(* ===================================================================== *)
(** * services/dexMonitor.ts *)
(* ===================================================================== *)

(** The fields of the [DexMonitor] singleton. *)
Record DexMonitorState := mkDexMonitor {
  priceCache : JsMap.t string PriceData;
  lastUpdateTime : JsMap.t string Z
}.

(** The three singletons the poller works on. *)
Record Bot := mkBot {
  chainManager : ChainManagerState;
  dexMonitor : DexMonitorState;
  databaseService : DatabaseData
}.

(** What the pair and pool contracts answer. As in [RpcWorld], the [nat]
    is the number of network calls made before; the [string] is the
    contract address. Reserves, [sqrtPriceX96] and liquidity are unsigned
    integers. *)
Record VenueWorld := mkVenueWorld {
  pair_getReserves : nat -> string -> Js.Result (Z * Z);
  pair_token0 : nat -> string -> Js.Result string;
  pair_token1 : nat -> string -> Js.Result string;
  pool_slot0 : nat -> string -> Js.Result Z;
  pool_liquidity : nat -> string -> Js.Result Z
}.

(** The two address lookups that the fetchers reach through [this]. The
    fetchers are modelled for any pair of lookups, so that the code after
    the lookup is covered; [DexMonitor.placeholders] is the pair the class
    ships. *)
Record AddressLookup := mkAddressLookup {
  getPairAddress : DexConfig -> TokenPair -> Provider -> option string;
  getPoolAddress : DexConfig -> TokenPair -> Provider -> option string
}.

Module DexMonitor.

(** The lookups as the class ships them: placeholders whose body is
    [return null], to be written per DEX factory. *)
Definition placeholders : AddressLookup :=
  mkAddressLookup (fun _ _ _ => None) (fun _ _ _ => None).

Definition initial : DexMonitorState :=
  mkDexMonitor (JsMap.empty _ _) (JsMap.empty _ _).

(** [`${chainId}-${name}-${baseToken}-${quoteToken}`]. *)
Definition cacheKey (dexConfig : DexConfig) (tokenPair : TokenPair) : string :=
  (ChainId_toString (dex_chainId dexConfig) ++ "-" ++
   DexName_value (dex_name dexConfig) ++ "-" ++
   baseToken tokenPair ++ "-" ++ quoteToken tokenPair)%string.

(** [calculateUniswapV3Price]. *)
Definition calculateUniswapV3Price (sqrtPriceX96 : Z) : Js.number :=
  let Q96 := 2 ^ 96 in
  (Js.Number_of_bigint (sqrtPriceX96 * sqrtPriceX96 * Q96)
   / Js.Number_of_bigint (Q96 * Q96))%float.

(** ** Lexical scopes of [fetchPriceForDex]

    The names each block can see. [startTime] is a [const] of the [try]
    block. *)
Definition moduleScope : list string :=
  [ "ethers"; "uuidv4"; "logger"; "createChildLogger"; "logPerformance";
    "ChainId"; "DexName"; "getDexConfig"; "getActiveDexConfigs";
    "chainManager"; "databaseService"; "SYSTEM_CONSTANTS"; "TOKEN_PAIRS";
    "UNISWAP_V2_PAIR_ABI"; "UNISWAP_V3_POOL_ABI"; "ERC20_ABI";
    "DexMonitor"; "dexMonitor"; "Date"; "Number"; "Promise"; "Error" ].

Definition functionScope : list string :=
  [ "dexConfig"; "tokenPair"; "correlationId"; "childLogger"; "cacheKey";
    "now"; "lastUpdate" ] ++ moduleScope.

Definition tryBlockScope : list string :=
  [ "startTime"; "provider"; "blockNumber"; "gasPrice"; "priceData" ]
  ++ functionScope.

Definition catchBlockScope : list string := "error" :: functionScope.

Definition resolves (name : string) (scope : list string) : bool :=
  existsb (String.eqb name) scope.

Section WithWorld.

Variable world : RpcWorld.
Variable venue : VenueWorld.
Variable this : AddressLookup.
Variable writeFile : DatabaseData -> Js.Result unit.

Definition Poll (A : Type) := Eff Bot A.

Definition onChainManager {A} (m : Eff ChainManagerState A) : Poll A :=
  fun b =>
    let (cm', r) := m (chainManager b) in
    (mkBot cm' (dexMonitor b) (databaseService b), r).

Definition onDatabase {A} (m : Eff DatabaseData A) : Poll A :=
  fun b =>
    let (db', r) := m (databaseService b) in
    (mkBot (chainManager b) (dexMonitor b) db', r).

Definition onDexMonitor (f : DexMonitorState -> DexMonitorState) : Poll unit :=
  Eff.modify (fun b => mkBot (chainManager b) (f (dexMonitor b)) (databaseService b)).

Definition Date_now (b : Bot) : Z := ChainManager.Date_now world (chainManager b).

Definition plainError (msg : string) : Js.Error := Js.mkError Js.PlainError msg.

(** A call on a contract at [address] through [p]. *)
Definition contractCall {A} (answer : nat -> string -> Js.Result A)
    (p : Provider) (address method : string) : Poll A :=
  onChainManager (fun s =>
    (mkChainManager (cm_connections s)
                    (cm_io s ++ [mkCall (provider_url p) method]),
     answer (List.length (cm_io s)) address)).

Definition fetchUniswapV2Price (dexConfig : DexConfig) (tokenPair : TokenPair)
    (p : Provider) (blockNumber : Z) (gasPrice : option Z) : Poll PriceData :=
  match getPairAddress this dexConfig tokenPair p with
  | None => Eff.throw (plainError "Pair address not found")
  | Some pairAddress =>
      if String.eqb pairAddress "" then
        Eff.throw (plainError "Pair address not found")
      else
        reserves <- contractCall (pair_getReserves venue) p pairAddress "getReserves" ;;
        token0 <- contractCall (pair_token0 venue) p pairAddress "token0" ;;
        token1 <- contractCall (pair_token1 venue) p pairAddress "token1" ;;
        let isToken0Base :=
          String.eqb (Js.toLowerCase token0)
                     (Js.toLowerCase (baseTokenAddress tokenPair)) in
        let reserve0 := fst reserves in
        let reserve1 := snd reserves in
        let baseReserve := if isToken0Base then reserve0 else reserve1 in
        let quoteReserve := if isToken0Base then reserve1 else reserve0 in
        let price :=
          (Js.Number_of_bigint quoteReserve / Js.Number_of_bigint baseReserve)%float in
        let liquidity :=
          (Js.Number_of_bigint baseReserve + Js.Number_of_bigint quoteReserve)%float in
        b <- Eff.get ;;
        Eff.ret {| pd_chainId := dex_chainId dexConfig;
                   pd_dexName := dex_name dexConfig;
                   pd_tokenPair :=
                     (baseToken tokenPair ++ "/" ++ quoteToken tokenPair)%string;
                   pd_baseToken := baseToken tokenPair;
                   pd_quoteToken := quoteToken tokenPair;
                   pd_price := price;
                   pd_priceUsd := price;
                   pd_liquidity := liquidity;
                   pd_volume24h := 0%float;
                   pd_timestamp := Date_now b;
                   pd_blockNumber := blockNumber;
                   pd_gasPrice := gasPrice;
                   pd_feeTier := None |}
  end.

Definition fetchUniswapV3Price (dexConfig : DexConfig) (tokenPair : TokenPair)
    (p : Provider) (blockNumber : Z) (gasPrice : option Z) : Poll PriceData :=
  match getPoolAddress this dexConfig tokenPair p with
  | None => Eff.throw (plainError "Pool address not found")
  | Some poolAddress =>
      if String.eqb poolAddress "" then
        Eff.throw (plainError "Pool address not found")
      else
        sqrtPriceX96 <- contractCall (pool_slot0 venue) p poolAddress "slot0" ;;
        liquidity <- contractCall (pool_liquidity venue) p poolAddress "liquidity" ;;
        let price := calculateUniswapV3Price sqrtPriceX96 in
        b <- Eff.get ;;
        Eff.ret {| pd_chainId := dex_chainId dexConfig;
                   pd_dexName := dex_name dexConfig;
                   pd_tokenPair :=
                     (baseToken tokenPair ++ "/" ++ quoteToken tokenPair)%string;
                   pd_baseToken := baseToken tokenPair;
                   pd_quoteToken := quoteToken tokenPair;
                   pd_price := price;
                   pd_priceUsd := price;
                   pd_liquidity := Js.Number_of_bigint liquidity;
                   pd_volume24h := 0%float;
                   pd_timestamp := Date_now b;
                   pd_blockNumber := blockNumber;
                   pd_gasPrice := gasPrice;
                   pd_feeTier := dex_feeTier dexConfig |}
  end.

Definition fetchSushiSwapPrice := fetchUniswapV2Price.

(** The body of [if (priceData) { ... }]: an object is truthy, so every
    quote a fetcher returns is stored. *)
Definition cacheAndStore (key : string) (now : Z) (priceData : PriceData)
  : Poll unit :=
  onDexMonitor (fun d =>
    mkDexMonitor (JsMap.set String.eqb key priceData (priceCache d))
                 (lastUpdateTime d)) ;;;
  onDexMonitor (fun d =>
    mkDexMonitor (priceCache d)
                 (JsMap.set String.eqb key now (lastUpdateTime d))) ;;;
  onDatabase (DatabaseService.storePriceData writeFile priceData).

(** The statements of the [try] block after [startTime] is bound. *)
Definition tryBlock (dexConfig : DexConfig) (tokenPair : TokenPair)
    (key : string) (now : Z) : Poll unit :=
  p <- onChainManager (ChainManager.getProvider world (dex_chainId dexConfig)) ;;
  blockNumber <- onChainManager
    (ChainManager.networkCall (rpc_getBlockNumber world)
       (provider_url p) "eth_blockNumber") ;;
  gasPrice <- onChainManager
    (ChainManager.networkCall (rpc_getFeeData world)
       (provider_url p) "eth_gasPrice") ;;
  match dex_name dexConfig with
  | UNISWAP_V2 =>
      priceData <- fetchUniswapV2Price dexConfig tokenPair p blockNumber gasPrice ;;
      cacheAndStore key now priceData
  | UNISWAP_V3 =>
      priceData <- fetchUniswapV3Price dexConfig tokenPair p blockNumber gasPrice ;;
      cacheAndStore key now priceData
  | SUSHISWAP =>
      priceData <- fetchSushiSwapPrice dexConfig tokenPair p blockNumber gasPrice ;;
      cacheAndStore key now priceData
  | _ => Eff.ret tt
  end.

(** The [catch] block. Its call of [storePerformanceMetric] has
    [Date.now() - startTime] as second argument; arguments are evaluated
    before the call, and a name that no enclosing scope binds raises a
    [ReferenceError]. [startTime] is the value the [try] block bound. *)
Definition catchBlock (dexConfig : DexConfig) (startTime : Z)
    (error : Js.Error) : Poll unit :=
  b <- Eff.get ;;
  if resolves "startTime" catchBlockScope then
    onDatabase
      (DatabaseService.storePerformanceMetric writeFile
         ("price_fetch_" ++ DexName_value (dex_name dexConfig))%string
         (Date_now b - startTime) false
         (Some (dex_chainId dexConfig)) (Some (dex_name dexConfig))
         (Some (Js.message error)) (Date_now b))
  else
    Eff.throw (Js.mkError Js.ReferenceError "startTime is not defined").

Definition fetchPriceForDex (dexConfig : DexConfig) (tokenPair : TokenPair)
  : Poll unit :=
  b <- Eff.get ;;
  let key := cacheKey dexConfig tokenPair in
  let now := Date_now b in
  let lastUpdate :=
    match JsMap.get String.eqb key (lastUpdateTime (dexMonitor b)) with
    | Some t => t
    | None => 0
    end in
  if (now - lastUpdate <? SYSTEM_CONSTANTS.PRICE_UPDATE_INTERVAL)%Z then Eff.ret tt
  else
    let startTime := Date_now b in
    Eff.try_catch (tryBlock dexConfig tokenPair key now)
                  (catchBlock dexConfig startTime).

(** [Promise.allSettled]: a rejected fetch is not propagated. *)
Definition settled (m : Poll unit) : Poll unit :=
  Eff.try_catch m (fun _ => Eff.ret tt).

(** [monitorPrices]: one fetch per active DEX and monitored pair. The
    fetches are started together; here they run to completion one after
    the other, in the order they are started. *)
Fixpoint forEachFetch (jobs : list (DexConfig * TokenPair)) : Poll unit :=
  match jobs with
  | [] => Eff.ret tt
  | (dexConfig, tokenPair) :: rest =>
      settled (fetchPriceForDex dexConfig tokenPair) ;;;
      forEachFetch rest
  end.

Definition monitorJobs : list (DexConfig * TokenPair) :=
  flat_map (fun dexConfig => map (fun tokenPair => (dexConfig, tokenPair)) TOKEN_PAIRS)
           getActiveDexConfigs.

Definition monitorPrices : Poll unit := forEachFetch monitorJobs.

End WithWorld.

(** [getCachedPrice]: [this.priceCache.get(cacheKey) || null]. *)
Definition getCachedPrice (d : DexMonitorState)
    (chainId : ChainId) (dexName : DexName) (tokenPair : string)
  : option PriceData :=
  let key := (ChainId_toString chainId ++ "-" ++ DexName_value dexName
              ++ "-" ++ tokenPair)%string in
  JsMap.get String.eqb key (priceCache d).

(** [getAllCachedPrices]: [Array.from(this.priceCache.values())]. *)
Definition getAllCachedPrices (d : DexMonitorState) : list PriceData :=
  JsMap.values (priceCache d).

Definition clearCache (d : DexMonitorState) : DexMonitorState :=
  mkDexMonitor (JsMap.empty _ _) (JsMap.empty _ _).

(** [getMonitoringStats]: the number of active DEX configurations, the
    size of the cache, and the times of last update. *)
Definition getMonitoringStats (d : DexMonitorState)
  : nat * nat * JsMap.t string Z :=
  (List.length getActiveDexConfigs, List.length (priceCache d), lastUpdateTime d).

End DexMonitor.

(* ===================================================================== *)
(** * index.ts: the bot *)
(* ===================================================================== *)

Module MevBot.
Section WithWorld.

Variable world : RpcWorld.
Variable venue : VenueWorld.
Variable this : AddressLookup.
Variable writeFile : DatabaseData -> Js.Result unit.
Variable config : TradingConfig.
Variable feeData : ChainId -> Js.Result (option Z).

(** [testChainConnections]: the [catch] logs and throws the error again. *)
Fixpoint testChainConnections_each (chains : list ChainId)
  : Eff ChainManagerState unit :=
  match chains with
  | [] => Eff.ret tt
  | chainId :: rest =>
      p <- ChainManager.getProvider world chainId ;;
      ChainManager.networkCall (rpc_getBlockNumber world)
        (provider_url p) "eth_blockNumber" ;;;
      testChainConnections_each rest
  end.

Definition testChainConnections : Eff ChainManagerState unit :=
  testChainConnections_each [ETHEREUM; ARBITRUM; POLYGON; BASE].

(** The callback of [startPriceMonitoring], run once: poll, read the whole
    cache and, if it holds anything, hand it to the detector. The [catch]
    logs the error and the callback returns. *)
Definition monitoringCycle : Eff Bot unit :=
  Eff.try_catch
    (DexMonitor.monitorPrices world venue this writeFile ;;;
     b <- Eff.get ;;
     let allPrices := DexMonitor.getAllCachedPrices (dexMonitor b) in
     if Nat.ltb 0 (List.length allPrices) then
       DexMonitor.onDatabase
         (PriceCalculator.calculateArbitrageOpportunities config feeData
            (DexMonitor.Date_now world b) writeFile allPrices) ;;;
       Eff.ret tt
     else Eff.ret tt)
    (fun _ => Eff.ret tt).

End WithWorld.
End MevBot.

(* ===================================================================== *)
(** * Vocabulary of the properties *)
(* ===================================================================== *)

Module DetectorSpec.
Import PriceCalculator.
Section Detector.

Variable config : TradingConfig.
Variable feeData : ChainId -> Js.Result (option Z).
Variable now : Z.
Variable writeFile : DatabaseData -> Js.Result unit.

(** The record of one ordered pair of quotes, if the pair survives the
    venue check and the price-difference threshold. *)
Definition candidate (s t : PriceData) : list ArbitrageOpportunity :=
  if sameVenue s t then []
  else match calculateOpportunity config feeData now s t with
       | Some o => [o]
       | None => []
       end.

(** The records of all surviving pairs, in the order the loops visit them. *)
Fixpoint survivors (recentPrices : list PriceData) : list ArbitrageOpportunity :=
  match recentPrices with
  | [] => []
  | s :: rest => flat_map (candidate s) rest ++ survivors rest
  end.

(** The database after the records of [l] have been stored one by one. *)
Definition stored (db : DatabaseData) (l : list ArbitrageOpportunity)
  : DatabaseData :=
  mkDatabase (prices db)
    (fold_left (DatabaseService.push_capped 1000) l (opportunities db))
    (performanceMetrics db).

(** "The returned list contains a record for every surviving pair,
    whatever its profitable flag." *)
Definition returns_every_survivor (tokenPair : string)
    (prices : list PriceData) (db : DatabaseData) : Prop :=
  forall o, In o (survivors (filter (isRecent now) prices)) ->
    match snd (calculatePairOpportunities config feeData now writeFile
                 tokenPair prices db) with
    | Js.Ok returned => In o returned
    | Js.Throw _ => True
    end.

(** "When gross profit is zero the record is non-profitable and its
    margin is a finite number." *)
Definition margin_guarded (s t : PriceData) : Prop :=
  forall o, calculateOpportunity config feeData now s t = Some o ->
    PrimFloat.is_zero (potentialProfit o) = true ->
    isProfitable o = false /\ PrimFloat.is_finite (profitMargin o) = true.

(** The lower-priced of two quotes. *)
Definition buySide (s t : PriceData) : PriceData :=
  if Js.lt (pd_price s) (pd_price t) then s else t.

End Detector.
End DetectorSpec.

Module PollerSpec.

(** [price > 0] and [liquidity >= 0]. *)
Definition validQuote (q : PriceData) : bool :=
  Js.gt (pd_price q) 0%float && Js.ge (pd_liquidity q) 0%float.

Definition cacheValid (d : DexMonitorState) : Prop :=
  forall q, In q (DexMonitor.getAllCachedPrices d) -> validQuote q = true.

(** "A fetch-and-store step keeps every cached quote valid." *)
Definition fetch_keeps_cache_valid (world : RpcWorld) (venue : VenueWorld)
    (this : AddressLookup) (writeFile : DatabaseData -> Js.Result unit)
    (dexConfig : DexConfig) (tokenPair : TokenPair) (b : Bot) : Prop :=
  cacheValid (dexMonitor b) ->
  cacheValid (dexMonitor
    (fst (DexMonitor.fetchPriceForDex world venue this writeFile
            dexConfig tokenPair b))).

(** The fetchers only return quotes that satisfy [P]. *)
Definition fetchersReturn (world : RpcWorld) (venue : VenueWorld)
    (this : AddressLookup) (P : PriceData -> Prop) : Prop :=
  forall dexConfig tokenPair p blockNumber gasPrice b b' q,
    (DexMonitor.fetchUniswapV2Price world venue this dexConfig tokenPair p
       blockNumber gasPrice b = (b', Js.Ok q) -> P q) /\
    (DexMonitor.fetchUniswapV3Price world venue this dexConfig tokenPair p
       blockNumber gasPrice b = (b', Js.Ok q) -> P q).

(** "All the quotes returned are younger than the maximum age." *)
Definition returns_only_fresh (d : DexMonitorState) (now : Z) : Prop :=
  forall q, In q (DexMonitor.getAllCachedPrices d) ->
    now - pd_timestamp q < SYSTEM_CONSTANTS.MAX_PRICE_AGE.

(** What a step did to the cache: nothing, or one unconditional store,
    under [key], of a quote that a fetcher returned; [r] is how the step
    settled. *)
Inductive CacheStep (world : RpcWorld) (venue : VenueWorld)
    (this : AddressLookup) (writeFile : DatabaseData -> Js.Result unit)
    (dexConfig : DexConfig) (tokenPair : TokenPair)
    (key : string) (now : Z) (d d' : DexMonitorState) (r : Js.Result unit)
  : Prop :=
| cache_untouched :
    d' = d ->
    CacheStep world venue this writeFile dexConfig tokenPair key now d d' r
| cache_written q p blockNumber gasPrice b0 b1 :
    (DexMonitor.fetchUniswapV2Price world venue this dexConfig tokenPair p
       blockNumber gasPrice b0 = (b1, Js.Ok q) \/
     DexMonitor.fetchUniswapV3Price world venue this dexConfig tokenPair p
       blockNumber gasPrice b0 = (b1, Js.Ok q)) ->
    d' = mkDexMonitor (JsMap.set String.eqb key q (priceCache d))
                      (JsMap.set String.eqb key now (lastUpdateTime d)) ->
    ((forall x, writeFile x = Js.Ok tt) -> r = Js.Ok tt) ->
    CacheStep world venue this writeFile dexConfig tokenPair key now d d' r.

(** No key of the cache holds a slash; the pair name of every cached
    quote does. *)
Definition KeysAndNames (d : DexMonitorState) : Prop :=
  forall k q, In (k, q) (priceCache d) ->
    Js.contains "/" k = false /\ Js.contains "/" (pd_tokenPair q) = true.

(** The states of the poller: it starts with an empty cache; the cache is
    written by fetches over the configured DEXs and pairs, under any
    behaviour of the outside world, and emptied by [clearCache]; the chain
    manager and the database change as their own code dictates. *)
Inductive Reachable : Bot -> Prop :=
| reach_start cm db : Reachable (mkBot cm DexMonitor.initial db)
| reach_fetch world venue this writeFile dexConfig tokenPair b :
    Reachable b ->
    In dexConfig getActiveDexConfigs ->
    In tokenPair TOKEN_PAIRS ->
    Reachable (fst (DexMonitor.fetchPriceForDex world venue this writeFile
                      dexConfig tokenPair b))
| reach_clear b :
    Reachable b ->
    Reachable (mkBot (chainManager b) (DexMonitor.clearCache (dexMonitor b))
                     (databaseService b))
| reach_others b cm db :
    Reachable b -> Reachable (mkBot cm (dexMonitor b) db).

End PollerSpec.

Module ConnectionSpec.

(** "Inactive only once the error counter has reached the retry budget." *)
Definition withinBudget (r : RpcConnection) : Prop :=
  isActive r = false -> (maxRetries r <= errorCount r)%nat.

(** The endpoint record [connections[i]] of chain [chainId]. *)
Definition endpointAt (s : ChainManagerState) (chainId : ChainId) (i : nat)
  : option RpcConnection :=
  match JsMap.get ChainId_eqb chainId (cm_connections s) with
  | Some connection => nth_error (connections connection) i
  | None => None
  end.

(** What the proofs carry about an endpoint: a budget that one failed
    connection exhausts, and deactivation only past the budget. *)
Definition ok (r : RpcConnection) : Prop :=
  (maxRetries r <= 4)%nat /\ withinBudget r.

Definition Inv (s : ChainManagerState) : Prop :=
  forall k connection, In (k, connection) (cm_connections s) ->
    Forall ok (connections connection).

(** The endpoint being connected to: active, with at least [n] errors. *)
Definition Working (chainId : ChainId) (i n : nat) (s : ChainManagerState)
  : Prop :=
  Inv s /\ exists r, endpointAt s chainId i = Some r /\
                     isActive r = true /\ (n <= errorCount r)%nat.

(** The connection cached for a chain: a provider, marked healthy. *)
Definition Cached (chainId : ChainId) (p : Provider) (s : ChainManagerState)
  : Prop :=
  exists connection,
    JsMap.get ChainId_eqb chainId (cm_connections s) = Some connection /\
    provider connection = Some p /\ isHealthy connection = true.

(** The manager has a record for the chain. *)
Definition Known (chainId : ChainId) (s : ChainManagerState) : Prop :=
  exists connection,
    JsMap.get ChainId_eqb chainId (cm_connections s) = Some connection.

(** The states of the connection manager: built by the constructor and
    changed by the methods modelled above and by requests sent through the
    providers it handed out, under any behaviour of the network.
    ([getWebSocketProvider], which nothing in the bot calls, is not among
    them.) *)
Inductive Reachable : ChainManagerState -> Prop :=
| reach_new env now : Reachable (ChainManager.initializeConnections env now)
| reach_getProvider world chainId s :
    Reachable s -> Reachable (fst (ChainManager.getProvider world chainId s))
| reach_updateBlockInfo world chainId s :
    Reachable s -> Reachable (fst (ChainManager.updateBlockInfo world chainId s))
| reach_getBlockNumber world chainId s :
    Reachable s -> Reachable (fst (ChainManager.getBlockNumber world chainId s))
| reach_getGasPrice world chainId s :
    Reachable s -> Reachable (fst (ChainManager.getGasPrice world chainId s))
| reach_performHealthCheck world s :
    Reachable s -> Reachable (fst (ChainManager.performHealthCheck world s))
| reach_request (A : Type) (answer : nat -> string -> Js.Result A) u method s :
    Reachable s ->
    Reachable (fst (ChainManager.networkCall answer u method s)).

End ConnectionSpec.

Module ManagerSpec.
Import ChainManager.

(** The record the manager holds for [chainId] satisfies [P]. *)
Definition At (chainId : ChainId) (P : ChainConnection -> Prop)
    (s : ChainManagerState) : Prop :=
  exists connection,
    JsMap.get ChainId_eqb chainId (cm_connections s) = Some connection /\
    P connection.

(** An endpoint between two resolutions: its budget is [MAX_RETRIES], and
    while it is active no error is counted against it. *)
Definition settled (r : RpcConnection) : Prop :=
  maxRetries r = SYSTEM_CONSTANTS.MAX_RETRIES /\
  (isActive r = true -> errorCount r = 0%nat).

Definition Rest (s : ChainManagerState) : Prop :=
  forall chainId connection,
    JsMap.get ChainId_eqb chainId (cm_connections s) = Some connection ->
    Forall settled (connections connection).

(** The chain is marked unhealthy and none of its endpoints is active. *)
Definition Dead (chainId : ChainId) (s : ChainManagerState) : Prop :=
  At chainId (fun connection =>
    isHealthy connection = false /\
    Forall (fun r => isActive r = false) (connections connection)) s.

(** The connection a resolution has just established through endpoint
    [k]: cached and healthy; the endpoint is active, free of errors and
    the one the provider talks to; every endpoint before it is inactive. *)
Definition EstablishedAt (k : nat) (p : Provider) (connection : ChainConnection)
  : Prop :=
  provider connection = Some p /\
  isHealthy connection = true /\
  currentConnectionIndex connection = k /\
  (exists r, nth_error (connections connection) k = Some r /\
             url r = provider_url p /\ isActive r = true /\
             errorCount r = 0%nat) /\
  (forall j r, (j < k)%nat -> nth_error (connections connection) j = Some r ->
               isActive r = false).

(** The states of the loop of [establishConnection] over the [n]
    endpoints of a chain that was at rest. Before endpoint [i] is tried,
    the endpoints before it are inactive; *)
Definition Visiting (n i : nat) (connection : ChainConnection) : Prop :=
  List.length (connections connection) = n /\
  forall j r, nth_error (connections connection) j = Some r ->
    settled r /\ ((j < i)%nat -> isActive r = false).

(** while the test of endpoint [i], at [u], is run and run again, it is
    active and errors are counted against it; *)
Definition Trying (n i : nat) (u : string) (connection : ChainConnection)
  : Prop :=
  List.length (connections connection) = n /\
  forall j r, nth_error (connections connection) j = Some r ->
    maxRetries r = SYSTEM_CONSTANTS.MAX_RETRIES /\
    (j <> i -> settled r) /\
    ((j < i)%nat -> isActive r = false) /\
    (j = i -> isActive r = true /\ url r = u).

(** once a run has succeeded its error counter is back at zero. *)
Definition Answered (n i : nat) (u : string) (connection : ChainConnection)
  : Prop :=
  List.length (connections connection) = n /\
  forall j r, nth_error (connections connection) j = Some r ->
    settled r /\
    ((j < i)%nat -> isActive r = false) /\
    (j = i -> isActive r = true /\ url r = u /\ errorCount r = 0%nat).

(** The two outcomes of the loop. *)
Definition Resolved (n : nat) (p : Provider) (connection : ChainConnection)
  : Prop :=
  List.length (connections connection) = n /\
  Forall settled (connections connection) /\
  exists k, EstablishedAt k p connection.

Definition Exhausted (n : nat) (connection : ChainConnection) : Prop :=
  List.length (connections connection) = n /\
  isHealthy connection = false /\
  Forall (fun r => isActive r = false /\
                   maxRetries r = SYSTEM_CONSTANTS.MAX_RETRIES)
         (connections connection).

(** The endpoints of a chain are at rest. *)
Definition SettledAt (chainId : ChainId) (s : ChainManagerState) : Prop :=
  forall connection,
    JsMap.get ChainId_eqb chainId (cm_connections s) = Some connection ->
    Forall settled (connections connection).

(** Endpoint [i] of a chain is still the endpoint [r] was: same URL, same
    budget, and not active again if [r] was inactive. *)
Definition Kept (chainId : ChainId) (i : nat) (r : RpcConnection)
    (s : ChainManagerState) : Prop :=
  exists r', ConnectionSpec.endpointAt s chainId i = Some r' /\
    url r' = url r /\ maxRetries r' = maxRetries r /\
    (isActive r = false -> isActive r' = false).

(** The request that tests an endpoint. *)
Definition testCall (r : RpcConnection) : NetworkCall :=
  mkCall (url r) "eth_blockNumber".

(** No provider for WebSocket is cached and usable. *)
Definition noCachedWebSocket (connection : ChainConnection) : Prop :=
  wsProvider connection = None \/ isHealthy connection = false.

(** The states of the loop of [getWebSocketProvider]: the requests sent
    so far are [io], and every WebSocket endpoint that is still active is
    among the candidates [l] yet to be tried. *)
Definition WsLoop (chainId : ChainId) (io : list NetworkCall)
    (l : list (nat * RpcConnection)) (s : ChainManagerState) : Prop :=
  cm_io s = io /\
  At chainId (fun connection =>
    noCachedWebSocket connection /\
    forall j r, nth_error (connections connection) j = Some r ->
      String.prefix "wss://" (url r) = true -> isActive r = true ->
      In j (map fst l)) s.

(** One operation on the manager, under any behaviour of the network. *)
Inductive Step : ChainManagerState -> ChainManagerState -> Prop :=
| step_getProvider world chainId s :
    Step s (fst (getProvider world chainId s))
| step_getWebSocketProvider world chainId s :
    Step s (fst (getWebSocketProvider world chainId s))
| step_updateBlockInfo world chainId s :
    Step s (fst (updateBlockInfo world chainId s))
| step_getBlockNumber world chainId s :
    Step s (fst (getBlockNumber world chainId s))
| step_getGasPrice world chainId s :
    Step s (fst (getGasPrice world chainId s))
| step_performHealthCheck world s :
    Step s (fst (performHealthCheck world s))
| step_request (A : Type) (answer : nat -> string -> Js.Result A) u method s :
    Step s (fst (networkCall answer u method s)).

(** Any number of operations, one after the other. *)
Inductive Steps : ChainManagerState -> ChainManagerState -> Prop :=
| steps_none s : Steps s s
| steps_more s s' s'' : Steps s s' -> Step s' s'' -> Steps s s''.

End ManagerSpec.

Module CacheSpec.

(** The DEX names for which the [switch] of [fetchPriceForDex] has a
    case. *)
Definition supported (d : DexName) : bool :=
  match d with
  | UNISWAP_V2 | UNISWAP_V3 | SUSHISWAP => true
  | _ => false
  end.

(** The cache key built from the fields of a quote. *)
Definition ownKey (q : PriceData) : string :=
  (ChainId_toString (pd_chainId q) ++ "-" ++ DexName_value (pd_dexName q)
   ++ "-" ++ pd_baseToken q ++ "-" ++ pd_quoteToken q)%string.

(** Every entry of the cache sits under the key built from its own
    fields, for a configured DEX and a monitored pair; no key occurs
    twice; and the times of last update are kept under the same keys. *)
Definition Keyed (d : DexMonitorState) : Prop :=
  (forall k q, In (k, q) (priceCache d) ->
     k = ownKey q /\
     exists dexConfig tokenPair,
       In (dexConfig, tokenPair) DexMonitor.monitorJobs /\
       k = DexMonitor.cacheKey dexConfig tokenPair) /\
  NoDup (JsMap.keys (priceCache d)) /\
  JsMap.keys (lastUpdateTime d) = JsMap.keys (priceCache d).

(** The state after the fetches of [jobs], one after the other, each from
    the state the one before left. *)
Definition afterFetches (world : RpcWorld) (venue : VenueWorld)
    (this : AddressLookup) (writeFile : DatabaseData -> Js.Result unit)
    (jobs : list (DexConfig * TokenPair)) (b : Bot) : Bot :=
  fold_left
    (fun b job =>
       fst (DexMonitor.fetchPriceForDex world venue this writeFile
              (fst job) (snd job) b))
    jobs b.

End CacheSpec.

Module StorageSpec.

(** What [push] followed by [slice(-n)] makes of a table: the new record
    is last, at most [n] records are kept, and the ones dropped are the
    first of the old table. *)
Definition Appended {A} (n : nat) (old : list A) (x : A) (new : list A) : Prop :=
  (List.length new <= n)%nat /\
  (exists kept, new = kept ++ [x]) /\
  (exists dropped, old ++ [x] = dropped ++ new).

(** [result] holds the (at most) [limit] newest of [candidates], newest
    first. *)
Definition NewestOf {A} (timestamp : A -> Z) (limit : Z)
    (candidates result : list A) : Prop :=
  Sorted.StronglySorted (fun a b => timestamp b <= timestamp a) result /\
  (0 <= limit -> Z.of_nat (List.length result) <= limit) /\
  (Z.of_nat (List.length candidates) <= limit ->
   Permutation.Permutation result candidates) /\
  exists older,
    Permutation.Permutation (result ++ older) candidates /\
    forall x y, In x result -> In y older -> timestamp y <= timestamp x.

(** The names of the two variables that [validateEnvironment] requires
    for a chain. *)
Definition httpVariable (chainId : ChainId) : string :=
  match chainId with
  | ETHEREUM => "ETHEREUM_RPC_HTTP"
  | ARBITRUM => "ARBITRUM_RPC_HTTP"
  | POLYGON => "POLYGON_RPC_HTTP"
  | BASE => "BASE_RPC_HTTP"
  end.

Definition wsVariable (chainId : ChainId) : string :=
  match chainId with
  | ETHEREUM => "ETHEREUM_RPC_WS"
  | ARBITRUM => "ARBITRUM_RPC_WS"
  | POLYGON => "POLYGON_RPC_WS"
  | BASE => "BASE_RPC_WS"
  end.

End StorageSpec.

Module FailoverSpec.

(** The endpoints that the loop of [establishConnection] passes over. *)
Definition skipped (r : RpcConnection) : bool :=
  negb (isActive r) || Nat.leb (maxRetries r) (errorCount r).

(** The requests a resolution that fails sends to an endpoint: the run of
    [pRetry] and its two retries. *)
Definition testsOf (r : RpcConnection) : list NetworkCall :=
  if skipped r then [] else repeat (ManagerSpec.testCall r) 3.

(** An endpoint after a resolution has failed on it: one error for each
    of the three runs and one for the [catch]. *)
Definition givenUp (r : RpcConnection) : RpcConnection :=
  if skipped r then r
  else mkRpcConnection (url r) false (lastUsed r) (latency r)
                       (errorCount r + 4) (maxRetries r).

End FailoverSpec.

(** ** Hoare triples for asynchronous methods *)

(** From a state that satisfies [P], [m] settles with a result and a state
    that satisfy [Q]. *)
Definition hoare {S A} (P : S -> Prop) (m : Eff S A)
    (Q : Js.Result A -> S -> Prop) : Prop :=
  forall s, P s -> Q (snd (m s)) (fst (m s)).

(* ===================================================================== *)
(** * Concrete inputs *)
(* ===================================================================== *)

Module Scenario.

(** The defaults of [EnvironmentSchema]. *)
Definition config : TradingConfig := mkTrading 2%float 100%float 10000%float.

Definition quote (c : ChainId) (d : DexName) (price liquidity : Js.number)
    (timestamp : Z) : PriceData :=
  mkPriceData c d "ETH/USDC" "ETH" "USDC" price price liquidity 0%float
              timestamp 100 None None.

Definition venueX := quote ETHEREUM UNISWAP_V2 2000%float 10%float 0.
Definition venueY := quote ARBITRUM SUSHISWAP 2050%float 10%float 0.
Definition venueY_small := quote ARBITRUM SUSHISWAP 2050%float 5%float 0.
Definition venueY_empty := quote ARBITRUM SUSHISWAP 2050%float 0%float 0.

(** Gas at 50 gwei on Ethereum and 10 gwei on Arbitrum: 30 + 20 dollars. *)
Definition cheapGas (c : ChainId) : Js.Result (option Z) :=
  match c with
  | ETHEREUM => Js.Ok (Some 50000000000)
  | ARBITRUM => Js.Ok (Some 10000000000)
  | _ => Js.Ok None
  end.

(** Gas at 500 gwei on Ethereum and 150 gwei on Arbitrum: 300 + 300
    dollars. *)
Definition dearGas (c : ChainId) : Js.Result (option Z) :=
  match c with
  | ETHEREUM => Js.Ok (Some 500000000000)
  | ARBITRUM => Js.Ok (Some 150000000000)
  | _ => Js.Ok None
  end.

(** No fee data to be had: the estimator falls back to zero. *)
Definition noGas (c : ChainId) : Js.Result (option Z) :=
  Js.Throw (Js.mkError Js.PlainError "fee data unavailable").

Definition diskOk (d : DatabaseData) : Js.Result unit := Js.Ok tt.

(** A file system that refuses every write. *)
Definition diskFull (d : DatabaseData) : Js.Result unit :=
  Js.Throw (Js.mkError Js.PlainError "ENOSPC: no space left on device").

Definition emptyDb : DatabaseData := mkDatabase [] [] [].

(** A network on which every request is answered, one millisecond apart,
    starting five seconds after the epoch. *)
Definition calmNetwork : RpcWorld :=
  mkRpcWorld (fun _ _ => Js.Ok 100) (fun _ _ => Js.Ok (Some 1700000000))
             (fun _ _ => Js.Ok (Some 50000000000))
             (fun k => 5000 + Z.of_nat k).

(** A network on which no request is answered, five seconds later. *)
Definition deadNetwork : RpcWorld :=
  let down := Js.mkError Js.PlainError "connect ECONNREFUSED" in
  mkRpcWorld (fun _ _ => Js.Throw down) (fun _ _ => Js.Throw down)
             (fun _ _ => Js.Throw down)
             (fun k => 10000 + Z.of_nat k).

(** The first two endpoints are down: six runs fail, the seventh
    succeeds. *)
Definition twoDown : RpcWorld :=
  mkRpcWorld
    (fun k _ => if Nat.ltb k 6 then Js.Throw (Js.mkError Js.PlainError "timeout")
                else Js.Ok 100)
    (fun _ _ => Js.Ok (Some 1700000000))
    (fun _ _ => Js.Ok (Some 50000000000))
    (fun k => 5000 + Z.of_nat k).

(** A pool that holds the base token and none of the quote token. *)
Definition drainedPool : VenueWorld :=
  mkVenueWorld (fun _ _ => Js.Ok (1000, 0))
               (fun _ _ => Js.Ok TOKEN_ADDRESSES.ETH)
               (fun _ _ => Js.Ok TOKEN_ADDRESSES.USDC)
               (fun _ _ => Js.Ok 0) (fun _ _ => Js.Ok 0).

(** A pool with reserves on both sides. *)
Definition fundedPool : VenueWorld :=
  mkVenueWorld (fun _ _ => Js.Ok (1000, 2000000))
               (fun _ _ => Js.Ok TOKEN_ADDRESSES.ETH)
               (fun _ _ => Js.Ok TOKEN_ADDRESSES.USDC)
               (fun _ _ => Js.Ok (2 ^ 96)) (fun _ _ => Js.Ok 5).

(** Address lookups that find a contract. *)
Definition lookupFound : AddressLookup :=
  mkAddressLookup (fun _ _ _ => Some "0xB4e16d0168e52d35CaCD2c6185b44281Ec28C9Dc")
                  (fun _ _ _ => Some "0x88e6A0c2dDD26FEEb64F039a2c41296FcB3f5640").

Definition noEnv (name : string) : option string := None.

Definition uniswapV2 : DexConfig := mkDexConfig UNISWAP_V2 ETHEREUM "v2" None true.

Definition ethUsdc : TokenPair :=
  mkTokenPair "ETH" "USDC" TOKEN_ADDRESSES.ETH TOKEN_ADDRESSES.USDC 18 6 "".

(** The three singletons right after start-up. *)
Definition freshBot : Bot :=
  mkBot (ChainManager.initializeConnections noEnv 0) DexMonitor.initial emptyDb.

(** The bot after one successful fetch of ETH/USDC on Uniswap V2. *)
Definition warmBot : Bot :=
  fst (DexMonitor.fetchPriceForDex calmNetwork fundedPool lookupFound diskOk
         uniswapV2 ethUsdc freshBot).

(** The connection manager after a resolution during an outage, and after
    a resolution on a calm network. *)
Definition afterOutage : ChainManagerState :=
  fst (ChainManager.getProvider deadNetwork ETHEREUM
         (ChainManager.initializeConnections noEnv 0)).

Definition connected : ChainManagerState :=
  fst (ChainManager.getProvider calmNetwork ETHEREUM
         (ChainManager.initializeConnections noEnv 0)).

(** A cache with a quote observed at time zero and two observed a minute
    later. *)
Definition mixedCache : DexMonitorState :=
  mkDexMonitor
    [ ("1-uniswap_v3-ETH-USDC", quote ETHEREUM UNISWAP_V3 2400%float 10%float 0);
      ("1-uniswap_v2-ETH-USDC", quote ETHEREUM UNISWAP_V2 2000%float 10%float 60000);
      ("42161-sushiswap-ETH-USDC", quote ARBITRUM SUSHISWAP 2050%float 10%float 60000) ]
    [].

(** A cache whose only quote was observed at time zero. *)
Definition oldCache : DexMonitorState :=
  mkDexMonitor [("1-uniswap_v2-ETH-USDC", venueX)]
               [("1-uniswap_v2-ETH-USDC", 0)].

End Scenario.

Unset Implicit Arguments.

(* ===================================================================== *)
(** * Facts about binary64 arithmetic *)
(* ===================================================================== *)

Module FloatFacts.

Lemma is_zero_inv (x : float) :
  PrimFloat.is_zero x = true -> exists s, Prim2SF x = S754_zero s.
Proof.
  unfold PrimFloat.is_zero. rewrite eqb_spec.
  change (Prim2SF zero) with (S754_zero false).
  destruct (Prim2SF x) as [s | s | | s m e]; intros H.
  - eauto.
  - destruct s; discriminate H.
  - discriminate H.
  - destruct s; discriminate H.
Qed.

(** A number that is zero and a cost that is not negative: the
    difference is not positive, and the quotient of the difference by
    the number, times one hundred, is NaN or infinite. *)
Lemma zero_gross (pp tg : float) :
  PrimFloat.is_zero pp = true ->
  PrimFloat.ltb tg 0 = false ->
  PrimFloat.ltb 0 (pp - tg) = false /\
  PrimFloat.is_finite ((pp - tg) / pp * 100) = false.
Proof.
  intros Hz Hneg.
  destruct (is_zero_inv _ Hz) as [s Hs].
  rewrite ltb_spec in Hneg.
  unfold PrimFloat.is_finite, PrimFloat.is_nan, PrimFloat.is_infinity.
  rewrite ltb_spec, !eqb_spec, abs_spec, !mul_spec, !div_spec, !sub_spec, Hs.
  change (Prim2SF 0) with (S754_zero false) in *.
  change (Prim2SF infinity) with (S754_infinity false).
  change (Prim2SF 100) with (S754_finite false 7036874417766400 (-46)).
  destruct (Prim2SF tg) as [st | st | | st m e]; destruct s; try destruct st;
    try discriminate Hneg; split; reflexivity.
Qed.

End FloatFacts.

(* ===================================================================== *)
(** * Facts about maps and the effect monad *)
(* ===================================================================== *)

Module JsMapFacts.
Section Facts.
Variables (K V : Type).
Variable eqb : K -> K -> bool.
Hypothesis eqb_spec : forall a b, eqb a b = true <-> a = b.

Local Abbreviation get := (JsMap.get eqb).
Local Abbreviation set := (JsMap.set eqb).

Lemma eqb_refl k : eqb k k = true.
Proof. now apply eqb_spec. Qed.

Lemma get_set_same k v (m : JsMap.t K V) : get k (set k v m) = Some v.
Proof.
  induction m as [|[k' v'] m IH]; simpl.
  - now rewrite eqb_refl.
  - destruct (eqb k k') eqn:E; simpl; rewrite E; auto.
Qed.

Lemma get_set_other k k' v (m : JsMap.t K V) :
  k <> k' -> get k' (set k v m) = get k' m.
Proof.
  intros Hne. induction m as [|[k0 v0] m IH]; simpl.
  - destruct (eqb k' k) eqn:E; auto. apply eqb_spec in E. congruence.
  - destruct (eqb k k0) eqn:E; simpl.
    + apply eqb_spec in E. subst k0.
      destruct (eqb k' k) eqn:E'; auto. apply eqb_spec in E'. congruence.
    + now rewrite IH.
Qed.

(** An entry of the map after [set] is the new one or an old one. *)
Lemma in_set k v (m : JsMap.t K V) k' v' :
  In (k', v') (set k v m) -> (k' = k /\ v' = v) \/ In (k', v') m.
Proof.
  induction m as [|[k0 v0] m IH]; simpl.
  - intros [H|[]]. inversion H. auto.
  - destruct (eqb k k0) eqn:E; simpl.
    + apply eqb_spec in E. subst k0. intros [H|H]; [inversion H|]; auto.
    + intros [H|H]; auto. destruct (IH H); auto.
Qed.

Lemma get_in k v (m : JsMap.t K V) : get k m = Some v -> In (k, v) m.
Proof.
  induction m as [|[k0 v0] m IH]; simpl; [discriminate|].
  destruct (eqb k k0) eqn:E.
  - apply eqb_spec in E. intros H. inversion H. subst. auto.
  - auto.
Qed.

Lemma get_absent k (m : JsMap.t K V) :
  (forall k' v, In (k', v) m -> k' <> k) -> get k m = None.
Proof.
  induction m as [|[k0 v0] m IH]; simpl; auto.
  intros H. destruct (eqb k k0) eqn:E.
  - apply eqb_spec in E. subst. exfalso. eapply H; eauto.
  - apply IH. intros. eapply H; eauto.
Qed.

Lemma in_values v (m : JsMap.t K V) :
  In v (JsMap.values m) <-> exists k, In (k, v) m.
Proof.
  unfold JsMap.values. rewrite in_map_iff. split.
  - intros [[k v'] [E H]]. simpl in E. subst. eauto.
  - intros [k H]. exists (k, v). auto.
Qed.

End Facts.
End JsMapFacts.

Lemma ChainId_eqb_spec a b : ChainId_eqb a b = true <-> a = b.
Proof. destruct a, b; split; intros H; try reflexivity; discriminate H. Qed.

Lemma DexName_eqb_spec a b : DexName_eqb a b = true <-> a = b.
Proof. destruct a, b; split; intros H; try reflexivity; discriminate H. Qed.

(* ===================================================================== *)
(** * The opportunity detector *)
(* ===================================================================== *)

Module DetectorProps.
Import PriceCalculator DetectorSpec.

Section Detector.
Variable config : TradingConfig.
Variable feeData : ChainId -> Js.Result (option Z).
Variable now : Z.
Variable writeFile : DatabaseData -> Js.Result unit.

Local Abbreviation calculateOpportunity :=
  (PriceCalculator.calculateOpportunity config feeData now).
Local Abbreviation compareWith :=
  (PriceCalculator.compareWith config feeData now writeFile).
Local Abbreviation compareAll :=
  (PriceCalculator.compareAll config feeData now writeFile).
Local Abbreviation calculatePairOpportunities :=
  (PriceCalculator.calculatePairOpportunities config feeData now writeFile).
Local Abbreviation candidate := (DetectorSpec.candidate config feeData now).
Local Abbreviation survivors := (DetectorSpec.survivors config feeData now).

(** The fields of a generated record, in terms of the two inputs. *)
Lemma calculateOpportunity_fields s t o :
  calculateOpportunity s t = Some o ->
  let cheaper := Js.lt (pd_price s) (pd_price t) in
  sourcePrice o = (if cheaper then pd_price s else pd_price t) /\
  targetPrice o = (if cheaper then pd_price t else pd_price s) /\
  sourceChain o = (if cheaper then pd_chainId s else pd_chainId t) /\
  sourceDex o = (if cheaper then pd_dexName s else pd_dexName t) /\
  potentialProfit o = ((targetPrice o - sourcePrice o) * pd_liquidity s)%float /\
  netProfit o = (potentialProfit o - gasCost o)%float /\
  profitMargin o = (netProfit o / potentialProfit o * 100)%float /\
  isProfitable o =
    Js.gt (netProfit o) 0%float
    && Js.ge (profitMargin o) (minProfitThreshold config)
    && Js.le (gasCost o) (maxGasCost config).
Proof.
  unfold PriceCalculator.calculateOpportunity.
  destruct (Js.lt _ (minProfitThreshold config)); [discriminate|].
  intros H. inversion H. clear H. simpl. repeat split; reflexivity.
Qed.

(** C1. For every record that [calculateOpportunity] generates, the
    profitable flag is the conjunction of: net profit greater than zero,
    net margin at least the configured minimum, and total cost at most the
    configured maximum, all three read from that same record. *)
Theorem profitable_flag_is_conjunction s t o :
  calculateOpportunity s t = Some o ->
  isProfitable o =
    Js.gt (netProfit o) 0%float
    && Js.ge (profitMargin o) (minProfitThreshold config)
    && Js.le (gasCost o) (maxGasCost config).
Proof.
  intros H. now apply calculateOpportunity_fields in H.
Qed.

Lemma stored_nil db : stored db [] = db.
Proof. now destruct db. Qed.

Lemma stored_app db l1 l2 : stored (stored db l1) l2 = stored db (l1 ++ l2).
Proof. unfold stored. simpl. now rewrite fold_left_app. Qed.

Lemma compareWith_ok s targets : forall acc db db' r,
  compareWith s targets acc db = (db', Js.Ok r) ->
  r = acc ++ filter isProfitable (flat_map (candidate s) targets).
Proof.
  induction targets as [|t rest IH]; intros acc db db' r; simpl.
  - unfold Eff.ret. intros H. inversion H. now rewrite app_nil_r.
  - unfold DetectorSpec.candidate at 1.
    destruct (sameVenue s t); [apply IH|].
    destruct (calculateOpportunity s t) as [o|]; [|apply IH].
    simpl. destruct (isProfitable o) eqn:Ep.
    + unfold Eff.bind at 1.
      destruct (DatabaseService.storeArbitrageOpportunity writeFile o db)
        as [db1 [[]|e]]; [|discriminate].
      intros H. apply IH in H. rewrite H, <- app_assoc. reflexivity.
    + apply IH.
Qed.

Lemma compareAll_ok l : forall acc db db' r,
  compareAll l acc db = (db', Js.Ok r) ->
  r = acc ++ filter isProfitable (survivors l).
Proof.
  induction l as [|s rest IH]; intros acc db db' r; simpl.
  - unfold Eff.ret. intros H. inversion H. now rewrite app_nil_r.
  - unfold Eff.bind at 1.
    destruct (compareWith s rest acc db) as [db1 [acc1|e]] eqn:E; [|discriminate].
    intros H. apply IH in H. apply compareWith_ok in E. subst.
    now rewrite filter_app, app_assoc.
Qed.

Lemma survivors_short l : (List.length l < 2)%nat -> survivors l = [].
Proof.
  destruct l as [|a [|b l]]; simpl; auto. lia.
Qed.

(** Whatever the file system does, a detection pass that completes
    returns the profitable survivors and nothing else. *)
Lemma calculatePairOpportunities_ok tokenPair prices db db' r :
  calculatePairOpportunities tokenPair prices db = (db', Js.Ok r) ->
  r = filter isProfitable (survivors (filter (isRecent now) prices)).
Proof.
  unfold PriceCalculator.calculatePairOpportunities.
  destruct (Nat.ltb _ 2) eqn:E.
  - apply Nat.ltb_lt in E. rewrite (survivors_short _ E).
    unfold Eff.ret. intros H. now inversion H.
  - intros H. now apply compareAll_ok in H.
Qed.

Section WritesSucceed.
Hypothesis writes : forall d, writeFile d = Js.Ok tt.

Lemma compareWith_total s targets : forall acc db,
  compareWith s targets acc db =
  (stored db (filter isProfitable (flat_map (candidate s) targets)),
   Js.Ok (acc ++ filter isProfitable (flat_map (candidate s) targets))).
Proof.
  induction targets as [|t rest IH]; intros acc db; simpl.
  - now rewrite stored_nil, app_nil_r.
  - unfold DetectorSpec.candidate at 1 3.
    destruct (sameVenue s t); [apply IH|].
    destruct (calculateOpportunity s t) as [o|]; [|apply IH].
    simpl. destruct (isProfitable o) eqn:Ep; [|apply IH].
    unfold Eff.bind at 1.
    unfold DatabaseService.storeArbitrageOpportunity, DatabaseService.saveData,
      Eff.bind, Eff.modify. rewrite writes, IH. simpl.
    now rewrite <- app_assoc.
Qed.

Lemma compareAll_total l : forall acc db,
  compareAll l acc db =
  (stored db (filter isProfitable (survivors l)),
   Js.Ok (acc ++ filter isProfitable (survivors l))).
Proof.
  induction l as [|s rest IH]; intros acc db; simpl.
  - now rewrite stored_nil, app_nil_r.
  - unfold Eff.bind. rewrite compareWith_total, IH.
    now rewrite stored_app, filter_app, app_assoc.
Qed.

Lemma calculatePairOpportunities_total tokenPair prices db :
  let found := filter isProfitable (survivors (filter (isRecent now) prices)) in
  calculatePairOpportunities tokenPair prices db = (stored db found, Js.Ok found).
Proof.
  unfold PriceCalculator.calculatePairOpportunities. simpl.
  destruct (Nat.ltb _ 2) eqn:E.
  - apply Nat.ltb_lt in E. rewrite (survivors_short _ E). simpl.
    now rewrite stored_nil.
  - now rewrite compareAll_total.
Qed.
End WritesSucceed.

(** Every survivor is computed from two quotes of the list. *)
Lemma survivors_from l o :
  In o (survivors l) ->
  exists s t, In s l /\ In t l /\ sameVenue s t = false /\
              calculateOpportunity s t = Some o.
Proof.
  induction l as [|a rest IH]; simpl; [tauto|].
  rewrite in_app_iff, in_flat_map. intros [[t [Ht Hc]]|H].
  - unfold DetectorSpec.candidate in Hc.
    destruct (sameVenue a t) eqn:Ev; [destruct Hc|].
    destruct (calculateOpportunity a t) as [o'|] eqn:Ec; [|destruct Hc].
    destruct Hc as [<-|[]]. exists a, t. auto.
  - destruct (IH H) as (s & t & Hs & Ht & Hv & Hc). exists s, t. auto.
Qed.


(** Every record a detection pass returns is computed from two input
    quotes whose age, now minus observation time, is less than
    [MAX_PRICE_AGE]. *)
Lemma detector_uses_fresh_quotes tokenPair prices db db' r o :
  calculatePairOpportunities tokenPair prices db = (db', Js.Ok r) ->
  In o r ->
  exists s t, In s prices /\ In t prices /\
    now - pd_timestamp s < SYSTEM_CONSTANTS.MAX_PRICE_AGE /\
    now - pd_timestamp t < SYSTEM_CONSTANTS.MAX_PRICE_AGE /\
    calculateOpportunity s t = Some o.
Proof.
  intros H Ho. apply calculatePairOpportunities_ok in H. subst r.
  apply filter_In in Ho. destruct Ho as [Ho _].
  apply survivors_from in Ho. destruct Ho as (s & t & Hs & Ht & _ & Hc).
  apply filter_In in Hs, Ht. destruct Hs as [Hs Hs'], Ht as [Ht Ht'].
  unfold isRecent in Hs', Ht'. apply Z.ltb_lt in Hs', Ht'.
  exists s, t. auto.
Qed.


(** Grouping by pair neither invents nor alters quotes. *)
Lemma groupPricesByPair_from_in priceData : forall grouped k l q,
  In (k, l) (groupPricesByPair_from priceData grouped) -> In q l ->
  In q priceData \/ exists k' l', In (k', l') grouped /\ In q l'.
Proof.
  induction priceData as [|p rest IH]; intros grouped k l q; simpl.
  - intros H Hq. right. eauto.
  - intros H Hq. destruct (IH _ _ _ _ H Hq) as [Hr|(k' & l' & Hin & Hq')]; auto.
    apply (JsMapFacts.in_set _ _ String.eqb String.eqb_eq) in Hin.
    destruct Hin as [[-> ->]|Hin]; [|right; eauto].
    apply in_app_iff in Hq'. destruct Hq' as [Hq'|[<-|[]]]; auto.
    destruct (JsMap.get String.eqb (pd_tokenPair p) grouped) as [l0|] eqn:E;
      [|destruct Hq'].
    apply (JsMapFacts.get_in _ _ String.eqb String.eqb_eq) in E. right. eauto.
Qed.

Lemma forEachPair_ok groups : forall acc db db' r o,
  forEachPair config feeData now writeFile groups acc db = (db', Js.Ok r) ->
  In o r ->
  In o acc \/
  exists k l, In (k, l) groups /\
    In o (filter isProfitable (survivors (filter (isRecent now) l))).
Proof.
  induction groups as [|[k l] rest IH]; intros acc db db' r o; simpl.
  - unfold Eff.ret. intros H. inversion H. auto.
  - unfold Eff.bind at 1.
    destruct (calculatePairOpportunities k l db) as [db1 [found|e]] eqn:E;
      [|discriminate].
    intros H Ho. apply calculatePairOpportunities_ok in E. subst found.
    destruct (IH _ _ _ _ _ H Ho) as [Hacc|(k' & l' & Hin & Hr)].
    + apply in_app_iff in Hacc. destruct Hacc; eauto 6.
    + right. eauto 6.
Qed.


End Detector.

Import Scenario.

(** Scenario A of the specification: buy 10 units at 2000, sell at 2050,
    total cost 50. *)
Example scenario_A :
  option_map (fun o => (priceDifferencePercent o, potentialProfit o, gasCost o,
                        netProfit o, profitMargin o, isProfitable o))
    (PriceCalculator.calculateOpportunity config cheapGas 0 venueX venueY)
  = Some (2.5, 500, 50, 450, 90, true)%float.
Proof. reflexivity. Qed.

(** Scenario B: the same prices with a total cost of 600. *)
Example scenario_B :
  option_map (fun o => (gasCost o, netProfit o, isProfitable o))
    (PriceCalculator.calculateOpportunity config dearGas 0 venueX venueY)
  = Some (600, -100, false)%float.
Proof. reflexivity. Qed.

(** Scenario C: a gap of half a percent is discarded before any cost is
    estimated. *)
Example scenario_C :
  PriceCalculator.calculateOpportunity config cheapGas 0 venueX
    (quote ARBITRUM SUSHISWAP 2010%float 10%float 0)
  = None.
Proof. reflexivity. Qed.

Lemma profitable_flag_is_conjunction_witness :
  exists o,
    PriceCalculator.calculateOpportunity config cheapGas 0 venueX venueY = Some o /\
    isProfitable o =
      Js.gt (netProfit o) 0%float
      && Js.ge (profitMargin o) (minProfitThreshold config)
      && Js.le (gasCost o) (maxGasCost config).
Proof.
  eexists. split; [reflexivity|].
  apply (profitable_flag_is_conjunction config cheapGas 0 venueX venueY).
  reflexivity.
Defined.







(** C6 at a failing input. The dearer quote comes first and holds 5 units,
    the cheaper one, the buy side, holds 10: gross profit is computed as
    50 * 5 = 250, not as 50 * 10 = 500. *)
Theorem gross_profit_uses_first_quote_liquidity :
  exists o,
    PriceCalculator.calculateOpportunity config cheapGas 0 venueY_small venueX
      = Some o /\
    DetectorSpec.buySide venueY_small venueX = venueX /\
    sourceDex o = pd_dexName venueX /\
    potentialProfit o = 250%float /\
    ((targetPrice o - sourcePrice o)
     * pd_liquidity (DetectorSpec.buySide venueY_small venueX))%float = 500%float.
Proof.
  vm_compute. eexists. repeat split.
Qed.

End DetectorProps.

(* ===================================================================== *)
(** * Reasoning about asynchronous methods *)
(* ===================================================================== *)

Module EffFacts.
Section Rules.
Context {S : Type}.

Lemma bind_inv {A B} (m : Eff S A) (k : A -> Eff S B) s s' r :
  Eff.bind m k s = (s', r) ->
  (exists s1 a, m s = (s1, Js.Ok a) /\ k a s1 = (s', r)) \/
  (exists e, m s = (s', Js.Throw e) /\ r = Js.Throw e).
Proof.
  unfold Eff.bind. destruct (m s) as [s1 [a|e]]; intros H.
  - left. eauto.
  - right. inversion H. eauto.
Qed.

Lemma try_catch_inv {A} (m : Eff S A) h s s' r :
  Eff.try_catch m h s = (s', r) ->
  (exists a, m s = (s', Js.Ok a) /\ r = Js.Ok a) \/
  (exists s1 e, m s = (s1, Js.Throw e) /\ h e s1 = (s', r)).
Proof.
  unfold Eff.try_catch. destruct (m s) as [s1 [a|e]]; intros H.
  - left. inversion H. eauto.
  - right. eauto.
Qed.

Lemma hoare_weaken {A} (P P' : S -> Prop) (m : Eff S A) (Q Q' : Js.Result A -> S -> Prop) :
  hoare P' m Q' ->
  (forall s, P s -> P' s) ->
  (forall r s, Q' r s -> Q r s) ->
  hoare P m Q.
Proof. unfold hoare. auto. Qed.

Lemma hoare_ret {A} (P : S -> Prop) (a : A) Q :
  (forall s, P s -> Q (Js.Ok a) s) -> hoare P (Eff.ret a) Q.
Proof. unfold hoare. auto. Qed.

Lemma hoare_throw {A} (P : S -> Prop) e (Q : Js.Result A -> S -> Prop) :
  (forall s, P s -> Q (Js.Throw e) s) -> hoare P (Eff.throw e) Q.
Proof. unfold hoare. auto. Qed.

Lemma hoare_modify (P : S -> Prop) f Q :
  (forall s, P s -> Q (Js.Ok tt) (f s)) -> hoare P (Eff.modify f) Q.
Proof. unfold hoare. auto. Qed.

Lemma hoare_bind {A B} (P : S -> Prop) (m : Eff S A) (k : A -> Eff S B)
    (R : A -> S -> Prop) (Q : Js.Result B -> S -> Prop) :
  hoare P m (fun r s => match r with
                        | Js.Ok a => R a s
                        | Js.Throw e => Q (Js.Throw e) s
                        end) ->
  (forall a, hoare (R a) (k a) Q) ->
  hoare P (Eff.bind m k) Q.
Proof.
  intros Hm Hk s HP. specialize (Hm s HP). unfold Eff.bind.
  destruct (m s) as [s' [a|e]]; simpl in *; auto. now apply Hk.
Qed.

Lemma hoare_get {A} (P : S -> Prop) (k : S -> Eff S A) Q :
  (forall s0, hoare (fun s => s = s0 /\ P s) (k s0) Q) ->
  hoare P (Eff.bind Eff.get k) Q.
Proof.
  intros Hk s HP. unfold Eff.bind, Eff.get. now apply (Hk s).
Qed.

Lemma hoare_try_catch {A} (P : S -> Prop) (m : Eff S A) h
    (R : Js.Error -> S -> Prop) (Q : Js.Result A -> S -> Prop) :
  hoare P m (fun r s => match r with
                        | Js.Ok a => Q (Js.Ok a) s
                        | Js.Throw e => R e s
                        end) ->
  (forall e, hoare (R e) (h e) Q) ->
  hoare P (Eff.try_catch m h) Q.
Proof.
  intros Hm Hh s HP. specialize (Hm s HP). unfold Eff.try_catch.
  destruct (m s) as [s' [a|e]]; simpl in *; auto. now apply Hh.
Qed.

(** [pRetry] with [n] retries: if every failed run followed by the
    callback takes [I k] to [I (S k)], a rejection after all runs leaves
    [I (k + n + 1)]. *)
Lemma hoare_pRetry {A} (I : nat -> S -> Prop)
    (input : Eff S A) onFailedAttempt (Q : Js.Result A -> S -> Prop) :
  (forall k, hoare (I k) input (fun r s => match r with
                                           | Js.Ok a => Q (Js.Ok a) s
                                           | Js.Throw _ => I k s
                                           end)) ->
  (forall k e, hoare (I k) (onFailedAttempt e)
                 (fun r s => match r with
                             | Js.Ok _ => I (Datatypes.S k) s
                             | Js.Throw e' => Q (Js.Throw e') s
                             end)) ->
  forall n k,
    (forall e s, I (k + n + 1)%nat s -> Q (Js.Throw e) s) ->
    hoare (I k) (pRetry input onFailedAttempt n) Q.
Proof.
  intros Hin Hfail n. induction n as [|n IH]; intros k Hend; simpl.
  - eapply hoare_try_catch with (R := fun _ s => I k s); [apply Hin|].
    intros e. simpl.
    eapply hoare_bind with (R := fun _ s => I (Datatypes.S k) s); [apply Hfail|].
    intros ?. apply hoare_throw. intros s Hs. apply Hend.
    now replace (k + 0 + 1)%nat with (Datatypes.S k) by lia.
  - eapply hoare_try_catch with (R := fun _ s => I k s); [apply Hin|].
    intros e. simpl.
    eapply hoare_bind with (R := fun _ s => I (Datatypes.S k) s); [apply Hfail|].
    intros ?. apply IH. intros e' s Hs. apply (Hend e').
    now replace (k + Datatypes.S n + 1)%nat with (Datatypes.S k + n + 1)%nat by lia.
Qed.

End Rules.
End EffFacts.

(* ===================================================================== *)
(** * The connection manager *)
(* ===================================================================== *)

Module ConnectionProps.
Import ChainManager ConnectionSpec EffFacts.

Lemma nth_error_list_modify {A} (g : A -> A) l : forall i,
  nth_error (list_modify i g l) i = option_map g (nth_error l i).
Proof.
  induction l as [|x l IH]; intros [|i]; simpl; auto.
Qed.

Lemma Forall_list_modify {A} (P : A -> Prop) (g : A -> A) l : forall i,
  Forall P l ->
  (forall x, nth_error l i = Some x -> P x -> P (g x)) ->
  Forall P (list_modify i g l).
Proof.
  induction l as [|x l IH]; intros [|i] Hl Hg; simpl; auto;
    inversion Hl; subst; constructor; auto.
Qed.

Local Arguments pRetry : simpl never.

Section WithWorld.
Variable world : RpcWorld.

Lemma modifyConnection_Inv chainId f s :
  Inv s ->
  (forall c, JsMap.get ChainId_eqb chainId (cm_connections s) = Some c ->
             Forall ok (connections c) -> Forall ok (connections (f c))) ->
  Inv (fst (modifyConnection chainId f s)).
Proof.
  intros HI Hf. unfold modifyConnection, Eff.modify. simpl.
  destruct (JsMap.get ChainId_eqb chainId (cm_connections s)) as [c|] eqn:E; auto.
  intros k c' Hin. simpl in Hin.
  apply (JsMapFacts.in_set _ _ ChainId_eqb ChainId_eqb_spec) in Hin.
  destruct Hin as [[-> ->]|Hin]; [|eapply HI; eauto].
  apply Hf; auto.
  apply (JsMapFacts.get_in _ _ ChainId_eqb ChainId_eqb_spec) in E. eapply HI; eauto.
Qed.

Lemma modifyRpc_Inv chainId i g s :
  Inv s ->
  (forall r, endpointAt s chainId i = Some r -> ok r -> ok (g r)) ->
  Inv (fst (modifyRpc chainId i g s)).
Proof.
  intros HI Hg. apply modifyConnection_Inv; auto.
  intros c E Hc. simpl. apply Forall_list_modify; auto.
  intros x Hx. apply Hg. unfold endpointAt. now rewrite E.
Qed.

Lemma modifyRpc_endpointAt chainId i g s :
  endpointAt (fst (modifyRpc chainId i g s)) chainId i
  = option_map g (endpointAt s chainId i).
Proof.
  unfold modifyRpc, modifyConnection, Eff.modify, endpointAt. simpl.
  destruct (JsMap.get ChainId_eqb chainId (cm_connections s)) as [c|] eqn:E; simpl.
  - rewrite (JsMapFacts.get_set_same _ _ ChainId_eqb ChainId_eqb_spec). simpl.
    apply nth_error_list_modify.
  - now rewrite E.
Qed.

Lemma modifyRpc_result chainId i g s : snd (modifyRpc chainId i g s) = Js.Ok tt.
Proof. reflexivity. Qed.

Lemma modifyConnection_result chainId f s :
  snd (modifyConnection chainId f s) = Js.Ok tt.
Proof. reflexivity. Qed.

(** A request changes the log of calls and nothing else. *)
Lemma networkCall_connections {A} (answer : nat -> string -> Js.Result A) u m s :
  cm_connections (fst (networkCall answer u m s)) = cm_connections s.
Proof. reflexivity. Qed.

Lemma Inv_ext s s' : cm_connections s' = cm_connections s -> Inv s -> Inv s'.
Proof. unfold Inv. intros ->. auto. Qed.

Lemma Working_ext chainId i n s s' :
  cm_connections s' = cm_connections s -> Working chainId i n s -> Working chainId i n s'.
Proof.
  unfold Working, Inv, endpointAt. intros ->. auto.
Qed.

Lemma hoare_networkCall {A} (answer : nat -> string -> Js.Result A) u m
    (P : ChainManagerState -> Prop) :
  (forall s s', cm_connections s' = cm_connections s -> P s -> P s') ->
  hoare P (networkCall answer u m) (fun _ s => P s).
Proof.
  intros Hext s HP. eapply Hext; [|exact HP]. reflexivity.
Qed.

(** One run of the connection test on an active endpoint. *)
Lemma hoare_connectOnce chainId i u n :
  hoare (Working chainId i n) (connectOnce world chainId i u)
    (fun r s => match r with
                | Js.Ok _ => Inv s
                | Js.Throw _ => Working chainId i n s
                end).
Proof.
  unfold connectOnce.
  apply hoare_get. intros s0.
  eapply hoare_bind with (R := fun _ s => Working chainId i n s).
  { eapply hoare_weaken.
    - apply hoare_networkCall with (P := Working chainId i n).
      intros s s'. apply Working_ext.
    - now intros s [_ H].
    - intros [a|e] s H; exact H. }
  intros ?. apply hoare_get. intros s1.
  eapply hoare_bind with (R := fun _ s => Inv s).
  { intros s [_ [HI (r & Hr & Hact & _)]].
    rewrite modifyRpc_result. apply modifyRpc_Inv; auto.
    intros r' Hr' [Hmax _]. rewrite Hr in Hr'. inversion Hr'; subst r'.
    split; simpl; auto. unfold withinBudget. simpl. congruence. }
  intros ?. apply hoare_ret. auto.
Qed.

(** The callback of a failed run: one more error, still active. *)
Lemma hoare_onFailedAttempt chainId i n :
  hoare (Working chainId i n) (modifyRpc chainId i incrementErrorCount)
    (fun r s => match r with
                | Js.Ok _ => Working chainId i (S n) s
                | Js.Throw _ => False
                end).
Proof.
  intros s [HI (r & Hr & Hact & Hn)]. rewrite modifyRpc_result. split.
  - apply modifyRpc_Inv; auto. intros r' _ [Hmax Hb]. split; simpl; auto.
    unfold withinBudget in *. simpl. intros H. specialize (Hb H). lia.
  - exists (incrementErrorCount r). rewrite modifyRpc_endpointAt, Hr.
    simpl. repeat split; auto. lia.
Qed.

(** The [catch] of [establishConnection] after the three runs. *)
Lemma hoare_deactivate chainId i :
  hoare (Working chainId i 3)
    (modifyRpc chainId i (fun r => deactivate (incrementErrorCount r)))
    (fun _ s => Inv s).
Proof.
  intros s [HI (r & Hr & Hact & Hn)]. apply modifyRpc_Inv; auto.
  intros r' Hr' [Hmax _]. rewrite Hr in Hr'. inversion Hr'; subst r'.
  split; simpl; auto. unfold withinBudget. simpl. intros _. lia.
Qed.

Lemma hoare_establishFrom chainId remaining : forall i,
  hoare Inv (establishFrom world chainId i remaining) (fun _ s => Inv s).
Proof.
  induction remaining as [|remaining IH]; intros i; simpl.
  - eapply hoare_bind with (R := fun _ s => Inv s).
    + intros s HI. rewrite modifyConnection_result.
      apply modifyConnection_Inv; auto.
    + intros ?. apply hoare_throw. auto.
  - apply hoare_get. intros s0.
    destruct (JsMap.get ChainId_eqb chainId (cm_connections s0)) as [c|] eqn:Ec;
      [|apply hoare_throw; now intros s [_ H]].
    destruct (nth_error (connections c) i) as [rpc|] eqn:Er;
      [|apply hoare_throw; now intros s [_ H]].
    destruct (negb (isActive rpc) || Nat.leb (maxRetries rpc) (errorCount rpc)) eqn:Eskip.
    { eapply hoare_weaken; [apply IH| |]; cbv beta; auto. now intros s [_ H]. }
    apply orb_false_iff in Eskip. destruct Eskip as [Eact _].
    apply negb_false_iff in Eact.
    eapply hoare_try_catch with (R := fun _ s => Working chainId i 3 s).
    + eapply hoare_bind with (R := fun _ s => Inv s).
      * eapply hoare_weaken.
        -- apply (hoare_pRetry (fun n s => Working chainId i n s)) with
             (k := 0%nat)
             (Q := fun r s => match r with
                              | Js.Ok _ => Inv s
                              | Js.Throw _ => Working chainId i 3 s
                              end).
           ++ intros k. eapply hoare_weaken; [apply (hoare_connectOnce chainId i _ k)| |]; cbv beta; auto.
           ++ intros k e. eapply hoare_weaken; [apply (hoare_onFailedAttempt chainId i k)| |]; cbv beta; auto.
              intros [a|e'] s H; [exact H|destruct H].
           ++ intros e s H. exact H.
        -- intros s [-> HI]. split; auto. exists rpc. unfold endpointAt.
           rewrite Ec. repeat split; auto. lia.
        -- intros [a|e] s H; exact H.
      * intros p. apply hoare_get. intros s1.
        eapply hoare_bind with (R := fun _ s => Inv s).
        -- intros s [_ HI]. rewrite modifyConnection_result.
           apply modifyConnection_Inv; auto.
        -- intros ?. apply hoare_ret. auto.
    + intros e. eapply hoare_bind with (R := fun _ s => Inv s).
      * eapply hoare_weaken; [apply hoare_deactivate| |]; cbv beta; auto.
        intros [a|e'] s H; exact H.
      * intros ?. apply IH.
Qed.

Lemma hoare_getProvider chainId :
  hoare Inv (getProvider world chainId) (fun _ s => Inv s).
Proof.
  unfold getProvider. apply hoare_get. intros s0.
  destruct (JsMap.get ChainId_eqb chainId (cm_connections s0)) as [c|];
    [|apply hoare_throw; now intros s [_ H]].
  assert (He : hoare (fun s => s = s0 /\ Inv s)
                 (establishConnection world chainId c) (fun _ s => Inv s)).
  { eapply hoare_weaken; [apply hoare_establishFrom| |]; cbv beta; auto. now intros s [_ H]. }
  destruct (provider c); auto.
  destruct (isHealthy c); auto.
  apply hoare_ret. now intros s [_ H].
Qed.

Lemma hoare_updateBlockInfo chainId :
  hoare Inv (updateBlockInfo world chainId) (fun _ s => Inv s).
Proof.
  unfold updateBlockInfo. apply hoare_get. intros s0.
  destruct (JsMap.get ChainId_eqb chainId (cm_connections s0));
    [|apply hoare_ret; now intros s [_ H]].
  eapply hoare_try_catch with (R := fun _ s => Inv s).
  - eapply hoare_bind with (R := fun _ s => Inv s).
    { eapply hoare_weaken; [apply hoare_getProvider| |].
      - now intros s [_ H].
      - intros [a|e] s H; exact H. }
    intros p. eapply hoare_bind with (R := fun _ s => Inv s).
    { eapply hoare_weaken; [apply hoare_networkCall with (P := Inv)| |]; cbv beta; auto.
      - intros s s'. apply Inv_ext.
      - intros [a|e] s H; exact H. }
    intros blockNumber. eapply hoare_bind with (R := fun _ s => Inv s).
    { eapply hoare_weaken; [apply hoare_networkCall with (P := Inv)| |]; cbv beta; auto.
      - intros s s'. apply Inv_ext.
      - intros [a|e] s H; exact H. }
    intros block s HI. rewrite modifyConnection_result.
    apply modifyConnection_Inv; auto.
  - intros e s HI. apply modifyConnection_Inv; auto.
Qed.

Lemma hoare_getBlockNumber chainId :
  hoare Inv (getBlockNumber world chainId) (fun _ s => Inv s).
Proof.
  unfold getBlockNumber. eapply hoare_bind with (R := fun _ s => Inv s).
  - eapply hoare_weaken; [apply hoare_getProvider| |]; cbv beta; auto.
    intros [a|e] s H; exact H.
  - intros p. apply hoare_networkCall. intros s s'. apply Inv_ext.
Qed.

Lemma hoare_getGasPrice chainId :
  hoare Inv (getGasPrice world chainId) (fun _ s => Inv s).
Proof.
  unfold getGasPrice. eapply hoare_bind with (R := fun _ s => Inv s).
  - eapply hoare_weaken; [apply hoare_getProvider| |]; cbv beta; auto.
    intros [a|e] s H; exact H.
  - intros p. eapply hoare_bind with (R := fun _ s => Inv s).
    + eapply hoare_weaken; [apply hoare_networkCall with (P := Inv)| |]; cbv beta; auto.
      * intros s s'. apply Inv_ext.
      * intros [a|e] s H; exact H.
    + intros g. apply hoare_ret. auto.
Qed.

Lemma hoare_healthCheckEach chains :
  hoare Inv (healthCheckEach world chains) (fun _ s => Inv s).
Proof.
  induction chains as [|c rest IH]; simpl.
  - apply hoare_ret. auto.
  - eapply hoare_bind with (R := fun _ s => Inv s); [|intros ?; apply IH].
    eapply hoare_try_catch with (R := fun _ s => Inv s).
    + eapply hoare_weaken;
        [apply hoare_updateBlockInfo|auto|intros [a|e] s H; exact H].
    + intros e s HI. rewrite modifyConnection_result.
      apply modifyConnection_Inv; auto.
Qed.

Lemma hoare_performHealthCheck :
  hoare Inv (performHealthCheck world) (fun _ s => Inv s).
Proof.
  unfold performHealthCheck. apply hoare_get. intros s0.
  eapply hoare_weaken; [apply hoare_healthCheckEach| |]; cbv beta; auto.
  now intros s [_ H].
Qed.

(** A run that fails leaves the endpoint record as it was; the callback
    then adds one to its error counter and changes nothing else. *)
Lemma hoare_failed_runs chainId i u r n :
  hoare (fun s => endpointAt s chainId i = Some r)
    (pRetry (connectOnce world chainId i u)
            (fun _ => modifyRpc chainId i incrementErrorCount) n)
    (fun res s => match res with
                  | Js.Ok _ => True
                  | Js.Throw _ =>
                      endpointAt s chainId i
                      = Some (Nat.iter (n + 1) incrementErrorCount r)
                  end).
Proof.
  apply (hoare_pRetry
           (fun k s => endpointAt s chainId i = Some (Nat.iter k incrementErrorCount r)))
    with (k := 0%nat).
  - intros k. unfold connectOnce. apply hoare_get. intros s0.
    eapply hoare_bind with (R := fun _ _ => True).
    + intros s [_ H]. unfold networkCall. simpl.
      destruct (rpc_getBlockNumber world _ u); auto.
    + intros ?. apply hoare_get. intros s1.
      eapply hoare_bind with (R := fun _ _ => True).
      * intros s _. now rewrite modifyRpc_result.
      * intros ?. apply hoare_ret. auto.
  - intros k e s H. rewrite modifyRpc_result, modifyRpc_endpointAt, H. reflexivity.
  - intros e s H. exact H.
Qed.

End WithWorld.

Local Arguments createRpcConnections : simpl never.

Lemma createRpcConnections_ok chainConfig now :
  Forall ok (createRpcConnections chainConfig now).
Proof.
  unfold createRpcConnections. apply Forall_app.
  split; apply Forall_map, Forall_forall; intros u _; split; simpl;
    try (unfold SYSTEM_CONSTANTS.MAX_RETRIES; lia);
    unfold withinBudget; simpl; discriminate.
Qed.

Lemma initializeConnections_Inv env now : Inv (initializeConnections env now).
Proof.
  intros k c Hin. unfold initializeConnections in Hin. cbn in Hin.
  repeat (destruct Hin as [Hin|Hin];
          [inversion Hin; subst; apply createRpcConnections_ok|]).
  destruct Hin.
Qed.

Lemma Reachable_Inv s : Reachable s -> Inv s.
Proof.
  induction 1.
  - apply initializeConnections_Inv.
  - now apply hoare_getProvider.
  - now apply hoare_updateBlockInfo.
  - now apply hoare_getBlockNumber.
  - now apply hoare_getGasPrice.
  - now apply hoare_performHealthCheck.
  - eapply Inv_ext; [|exact IHReachable]. reflexivity.
Qed.


Lemma modifyConnection_Known chainId c f s :
  Known c s -> Known c (fst (modifyConnection chainId f s)).
Proof.
  intros [conn H]. unfold Known, modifyConnection, Eff.modify. simpl.
  destruct (JsMap.get ChainId_eqb chainId (cm_connections s)) as [c0|] eqn:E;
    [|eauto]. simpl.
  destruct (ChainId_eqb chainId c) eqn:Ec.
  - apply ChainId_eqb_spec in Ec. subst c.
    rewrite (JsMapFacts.get_set_same _ _ ChainId_eqb ChainId_eqb_spec). eauto.
  - rewrite (JsMapFacts.get_set_other _ _ ChainId_eqb ChainId_eqb_spec); eauto.
    intros ->. rewrite (proj2 (ChainId_eqb_spec c c) eq_refl) in Ec. discriminate.
Qed.

Lemma Known_ext c s s' : cm_connections s' = cm_connections s -> Known c s -> Known c s'.
Proof. unfold Known. intros ->. auto. Qed.

Section Resolve.
Variable world : RpcWorld.

Lemma hoare_connectOnce_Known chainId i u :
  hoare (Known chainId) (connectOnce world chainId i u) (fun _ s => Known chainId s).
Proof.
  unfold connectOnce. apply hoare_get. intros s0.
  eapply hoare_bind with (R := fun _ s => Known chainId s).
  { eapply hoare_weaken;
      [apply hoare_networkCall with (P := Known chainId)| |].
    - intros s s'. apply Known_ext.
    - now intros s [_ H].
    - intros [a|e] s H; exact H. }
  intros ?. apply hoare_get. intros s1.
  eapply hoare_bind with (R := fun _ s => Known chainId s).
  { intros s [_ H]. rewrite modifyRpc_result. now apply modifyConnection_Known. }
  intros ?. apply hoare_ret. auto.
Qed.

Lemma hoare_establishFrom_Cached chainId remaining : forall i,
  hoare (fun _ => True) (establishFrom world chainId i remaining)
    (fun r s => match r with
                | Js.Ok p => Cached chainId p s
                | Js.Throw _ => True
                end).
Proof.
  induction remaining as [|remaining IH]; intros i; simpl.
  - eapply hoare_bind with (R := fun _ _ => True).
    + intros s _. now rewrite modifyConnection_result.
    + intros ?. apply hoare_throw. auto.
  - apply hoare_get. intros s0.
    destruct (JsMap.get ChainId_eqb chainId (cm_connections s0)) as [c|] eqn:Ec;
      [|apply hoare_throw; auto].
    destruct (nth_error (connections c) i) as [rpc|];
      [|apply hoare_throw; auto].
    destruct (negb (isActive rpc) || Nat.leb (maxRetries rpc) (errorCount rpc)).
    { eapply hoare_weaken; [apply IH| |]; cbv beta; auto. }
    eapply hoare_try_catch with (R := fun _ _ => True).
    + eapply hoare_bind with (R := fun _ s => Known chainId s).
      * eapply hoare_weaken.
        -- apply (hoare_pRetry (fun _ s => Known chainId s)) with
             (k := 0%nat)
             (Q := fun r s => match r with
                              | Js.Ok _ => Known chainId s
                              | Js.Throw _ => True
                              end).
           ++ intros k. eapply hoare_weaken;
                [apply (hoare_connectOnce_Known chainId i)| |]; cbv beta; auto.
              intros [a|e] s H; exact H.
           ++ intros k e s H. rewrite modifyRpc_result.
              now apply modifyConnection_Known.
           ++ auto.
        -- intros s [-> _]. exists c. exact Ec.
        -- intros [a|e] s H; auto.
      * intros p. apply hoare_get. intros s1.
        eapply hoare_bind with (R := fun _ s => Cached chainId p s).
        -- intros s [-> [conn Hc]]. rewrite modifyConnection_result.
           unfold Cached, modifyConnection, Eff.modify. simpl. rewrite Hc. simpl.
           rewrite (JsMapFacts.get_set_same _ _ ChainId_eqb ChainId_eqb_spec).
           eexists. split; [reflexivity|]. auto.
        -- intros ?. apply hoare_ret. auto.
    + intros e. eapply hoare_bind with (R := fun _ _ => True).
      * intros s _. now rewrite modifyRpc_result.
      * intros ?. apply IH.
Qed.

(** A call that finds a healthy cached connection returns it at once. *)
Lemma getProvider_cached chainId p s :
  Cached chainId p s -> getProvider world chainId s = (s, Js.Ok p).
Proof.
  intros (c & Hget & Hp & Hh). unfold getProvider, Eff.bind, Eff.get.
  now rewrite Hget, Hp, Hh.
Qed.

Lemma hoare_getProvider_Cached chainId :
  hoare (fun _ => True) (getProvider world chainId)
    (fun r s => match r with
                | Js.Ok p => Cached chainId p s
                | Js.Throw _ => True
                end).
Proof.
  unfold getProvider. apply hoare_get. intros s0.
  destruct (JsMap.get ChainId_eqb chainId (cm_connections s0)) as [c|] eqn:Ec;
    [|apply hoare_throw; auto].
  assert (He : hoare (fun s => s = s0 /\ True)
                 (establishConnection world chainId c)
                 (fun r s => match r with
                             | Js.Ok p => Cached chainId p s
                             | Js.Throw _ => True
                             end)).
  { eapply hoare_weaken; [apply hoare_establishFrom_Cached| |]; cbv beta; auto. }
  destruct (provider c) as [p|] eqn:Ep; auto.
  destruct (isHealthy c) eqn:Eh; auto.
  apply hoare_ret. intros s [-> _]. exists c. auto.
Qed.

End Resolve.

(** C10. When the connection cached for a network exists and is marked
    healthy, [getProvider] returns it at once: the state of the manager,
    the log of network calls included, is what it was, so no request has
    been sent; a second call, whatever the network does, returns the same
    connection and again sends nothing. *)
Theorem healthy_cached_connection_is_returned world chainId s connection p :
  JsMap.get ChainId_eqb chainId (cm_connections s) = Some connection ->
  provider connection = Some p ->
  isHealthy connection = true ->
  getProvider world chainId s = (s, Js.Ok p) /\
  cm_io (fst (getProvider world chainId s)) = cm_io s /\
  forall world',
    getProvider world' chainId (fst (getProvider world chainId s)) = (s, Js.Ok p).
Proof.
  intros Hget Hp Hh.
  assert (Hc : Cached chainId p s) by (exists connection; auto).
  rewrite (getProvider_cached world chainId p s Hc). simpl.
  repeat split. intros world'. now apply getProvider_cached.
Qed.

(** After any call that returns a connection, the next call returns the
    same one and sends nothing. *)
Lemma second_resolve_is_free world world' chainId s s' p :
  getProvider world chainId s = (s', Js.Ok p) ->
  getProvider world' chainId s' = (s', Js.Ok p).
Proof.
  intros H. apply getProvider_cached.
  pose proof (hoare_getProvider_Cached world chainId s I) as Hc.
  now rewrite H in Hc.
Qed.

End ConnectionProps.

(* ===================================================================== *)
(** * The poller and the price cache *)
(* ===================================================================== *)

Module PollerProps.
Import DexMonitor PollerSpec EffFacts.

Lemma contains_app c (a b : string) :
  Js.contains c (a ++ b)%string = Js.contains c a || Js.contains c b.
Proof.
  induction a as [|d a IH]; simpl; auto. rewrite IH. now rewrite orb_assoc.
Qed.

(** The key under which a monitored pair is stored holds no slash. *)
Lemma cacheKey_no_slash dexConfig tokenPair :
  In tokenPair TOKEN_PAIRS ->
  Js.contains "/" (cacheKey dexConfig tokenPair) = false.
Proof.
  intros Hin. destruct dexConfig as [name chain v f a].
  unfold TOKEN_PAIRS in Hin. simpl in Hin.
  destruct Hin as [<-|[<-|[<-|[<-|[]]]]]; destruct name, chain; reflexivity.
Qed.

(** The key [getCachedPrice] looks up holds the slash of the pair name. *)
Lemma lookupKey_has_slash (a b pair : string) :
  Js.contains "/" pair = true ->
  Js.contains "/" (a ++ "-" ++ b ++ "-" ++ pair)%string = true.
Proof.
  intros H. rewrite !contains_app, H. now rewrite !orb_true_r.
Qed.

Section WithWorld.
Variable world : RpcWorld.
Variable venue : VenueWorld.
Variable this : AddressLookup.
Variable writeFile : DatabaseData -> Js.Result unit.

(** Work on the chain manager leaves the other two singletons alone. *)
Lemma onChainManager_frame {A} (m : Eff ChainManagerState A) b b' r :
  onChainManager m b = (b', r) ->
  dexMonitor b' = dexMonitor b /\ databaseService b' = databaseService b.
Proof.
  unfold onChainManager. destruct (m (chainManager b)). intros H.
  inversion H. auto.
Qed.

Lemma contractCall_frame {A} (answer : nat -> string -> Js.Result A) p a m b b' r :
  contractCall answer p a m b = (b', r) ->
  dexMonitor b' = dexMonitor b /\ databaseService b' = databaseService b.
Proof. apply onChainManager_frame. Qed.

Ltac frame_step H :=
  match type of H with
  | Eff.bind _ _ _ = _ =>
      let s1 := fresh "b" in let a := fresh "a" in let e := fresh "e" in
      let H1 := fresh "Hstep" in
      apply bind_inv in H;
      destruct H as [(s1 & a & H1 & H)|(e & H1 & H)]
  end.

(** A fetcher reads the chain: the cache and the database are as before,
    and the quote it returns is named base, slash, quote. *)
Lemma fetchUniswapV2Price_frame dexConfig tokenPair p blockNumber gasPrice b b' r :
  fetchUniswapV2Price world venue this dexConfig tokenPair p blockNumber gasPrice b
    = (b', r) ->
  dexMonitor b' = dexMonitor b /\ databaseService b' = databaseService b /\
  forall q, r = Js.Ok q ->
    pd_tokenPair q = (baseToken tokenPair ++ "/" ++ quoteToken tokenPair)%string.
Proof.
  unfold fetchUniswapV2Price.
  destruct (getPairAddress this dexConfig tokenPair p) as [addr|];
    [|intros H; inversion H; repeat split; auto; discriminate].
  destruct (String.eqb addr "");
    [intros H; inversion H; repeat split; auto; discriminate|].
  intros H.
  frame_step H;
    [|apply contractCall_frame in Hstep; destruct Hstep; subst;
      repeat split; auto; discriminate].
  apply contractCall_frame in Hstep. destruct Hstep as [Hd1 Hb1].
  frame_step H;
    [|apply contractCall_frame in Hstep; destruct Hstep; subst;
      repeat split; try congruence; discriminate].
  apply contractCall_frame in Hstep. destruct Hstep as [Hd2 Hb2].
  frame_step H;
    [|apply contractCall_frame in Hstep; destruct Hstep; subst;
      repeat split; try congruence; discriminate].
  apply contractCall_frame in Hstep. destruct Hstep as [Hd3 Hb3].
  unfold Eff.bind, Eff.get, Eff.ret in H. inversion H. subst.
  repeat split; try congruence.
  intros q Hq. inversion Hq. reflexivity.
Qed.

Lemma fetchUniswapV3Price_frame dexConfig tokenPair p blockNumber gasPrice b b' r :
  fetchUniswapV3Price world venue this dexConfig tokenPair p blockNumber gasPrice b
    = (b', r) ->
  dexMonitor b' = dexMonitor b /\ databaseService b' = databaseService b /\
  forall q, r = Js.Ok q ->
    pd_tokenPair q = (baseToken tokenPair ++ "/" ++ quoteToken tokenPair)%string.
Proof.
  unfold fetchUniswapV3Price.
  destruct (getPoolAddress this dexConfig tokenPair p) as [addr|];
    [|intros H; inversion H; repeat split; auto; discriminate].
  destruct (String.eqb addr "");
    [intros H; inversion H; repeat split; auto; discriminate|].
  intros H.
  frame_step H;
    [|apply contractCall_frame in Hstep; destruct Hstep; subst;
      repeat split; auto; discriminate].
  apply contractCall_frame in Hstep. destruct Hstep as [Hd1 Hb1].
  frame_step H;
    [|apply contractCall_frame in Hstep; destruct Hstep; subst;
      repeat split; try congruence; discriminate].
  apply contractCall_frame in Hstep. destruct Hstep as [Hd2 Hb2].
  unfold Eff.bind, Eff.get, Eff.ret in H. inversion H. subst.
  repeat split; try congruence.
  intros q Hq. inversion Hq. reflexivity.
Qed.

Lemma contractCall_answer {A} (answer : nat -> string -> Js.Result A) p a m b b' r :
  contractCall answer p a m b = (b', r) ->
  r = answer (List.length (cm_io (chainManager b))) a.
Proof.
  unfold contractCall, onChainManager. intros H. now inversion H.
Qed.

(** The numbers in a quote from a constant-product pool: the ratio and
    the sum of the two reserves, base and quote told apart by the address
    of [token0]. *)
Lemma fetchUniswapV2Price_quote dexConfig tokenPair p blockNumber gasPrice b b' q :
  fetchUniswapV2Price world venue this dexConfig tokenPair p blockNumber gasPrice b
    = (b', Js.Ok q) ->
  exists k address reserve0 reserve1 k' token0,
    pair_getReserves venue k address = Js.Ok (reserve0, reserve1) /\
    pair_token0 venue k' address = Js.Ok token0 /\
    let isToken0Base :=
      String.eqb (Js.toLowerCase token0)
                 (Js.toLowerCase (baseTokenAddress tokenPair)) in
    let baseReserve := if isToken0Base then reserve0 else reserve1 in
    let quoteReserve := if isToken0Base then reserve1 else reserve0 in
    pd_price q
    = (Js.Number_of_bigint quoteReserve / Js.Number_of_bigint baseReserve)%float /\
    pd_liquidity q
    = (Js.Number_of_bigint baseReserve + Js.Number_of_bigint quoteReserve)%float.
Proof.
  unfold fetchUniswapV2Price.
  destruct (getPairAddress this dexConfig tokenPair p) as [addr|]; [|discriminate].
  destruct (String.eqb addr ""); [discriminate|].
  intros H.
  frame_step H; [|discriminate H]. apply contractCall_answer in Hstep.
  frame_step H; [|discriminate H]. apply contractCall_answer in Hstep0.
  frame_step H; [|discriminate H].
  unfold Eff.bind, Eff.get, Eff.ret in H. inversion H. clear H. simpl.
  destruct a as [reserve0 reserve1]. eauto 10.
Qed.

(** The numbers in a quote from a concentrated-liquidity pool. *)
Lemma fetchUniswapV3Price_quote dexConfig tokenPair p blockNumber gasPrice b b' q :
  fetchUniswapV3Price world venue this dexConfig tokenPair p blockNumber gasPrice b
    = (b', Js.Ok q) ->
  exists k address sqrtPriceX96 k' liquidity,
    pool_slot0 venue k address = Js.Ok sqrtPriceX96 /\
    pool_liquidity venue k' address = Js.Ok liquidity /\
    pd_price q = calculateUniswapV3Price sqrtPriceX96 /\
    pd_liquidity q = Js.Number_of_bigint liquidity.
Proof.
  unfold fetchUniswapV3Price.
  destruct (getPoolAddress this dexConfig tokenPair p) as [addr|]; [|discriminate].
  destruct (String.eqb addr ""); [discriminate|].
  intros H.
  frame_step H; [|discriminate H]. apply contractCall_answer in Hstep.
  frame_step H; [|discriminate H]. apply contractCall_answer in Hstep0.
  unfold Eff.bind, Eff.get, Eff.ret in H. inversion H. clear H. simpl.
  eauto 10.
Qed.

Lemma cacheAndStore_effect key now q b b' r :
  cacheAndStore writeFile key now q b = (b', r) ->
  dexMonitor b' =
    mkDexMonitor (JsMap.set String.eqb key q (priceCache (dexMonitor b)))
                 (JsMap.set String.eqb key now (lastUpdateTime (dexMonitor b)))
  /\ performanceMetrics (databaseService b')
     = performanceMetrics (databaseService b)
  /\ ((forall x, writeFile x = Js.Ok tt) -> r = Js.Ok tt).
Proof.
  unfold cacheAndStore, onDexMonitor, onDatabase, DatabaseService.storePriceData,
    DatabaseService.saveData, Eff.bind, Eff.modify. simpl.
  destruct (writeFile _) as [[]|e] eqn:E; intros H; inversion H; simpl;
    repeat split; auto.
  intros Hw. rewrite Hw in E. discriminate E.
Qed.

(** The store is unconditional: whatever the quote, it is what the cache
    holds under the key afterwards. *)
Lemma cacheAndStore_stores key now q b :
  JsMap.get String.eqb key
    (priceCache (dexMonitor (fst (cacheAndStore writeFile key now q b))))
  = Some q.
Proof.
  destruct (cacheAndStore writeFile key now q b) as [b' r] eqn:E.
  apply cacheAndStore_effect in E. simpl. destruct E as [-> _]. simpl.
  apply (JsMapFacts.get_set_same _ _ String.eqb String.eqb_eq).
Qed.

Lemma tryBlock_effect dexConfig tokenPair key now b b' r :
  tryBlock world venue this writeFile dexConfig tokenPair key now b = (b', r) ->
  CacheStep world venue this writeFile dexConfig tokenPair key now (dexMonitor b) (dexMonitor b') r /\
  performanceMetrics (databaseService b') = performanceMetrics (databaseService b).
Proof.
  unfold tryBlock. intros H.
  frame_step H;
    [|apply onChainManager_frame in Hstep; destruct Hstep as [-> ->];
      split; [now left|reflexivity]].
  apply onChainManager_frame in Hstep. destruct Hstep as [Hd1 Hb1].
  frame_step H;
    [|apply onChainManager_frame in Hstep; destruct Hstep as [-> ->];
      rewrite Hd1, Hb1; split; [now left|reflexivity]].
  apply onChainManager_frame in Hstep. destruct Hstep as [Hd2 Hb2].
  frame_step H;
    [|apply onChainManager_frame in Hstep; destruct Hstep as [-> ->];
      rewrite Hd2, Hb2, Hd1, Hb1; split; [now left|reflexivity]].
  apply onChainManager_frame in Hstep. destruct Hstep as [Hd3 Hb3].
  assert (Hd : dexMonitor b2 = dexMonitor b) by congruence.
  assert (Hb : databaseService b2 = databaseService b) by congruence.
  clear Hd1 Hd2 Hd3 Hb1 Hb2 Hb3.
  destruct (dex_name dexConfig);
    try (unfold Eff.ret in H; inversion H; subst; rewrite Hd, Hb;
         split; [now left|reflexivity]);
    (frame_step H;
     [ pose proof Hstep as Hfetch;
       first [apply fetchUniswapV2Price_frame in Hstep
             |apply fetchUniswapV3Price_frame in Hstep];
       destruct Hstep as (Hd' & Hb' & _);
       apply cacheAndStore_effect in H; destruct H as (Hc & Hm & Hok);
       split;
       [ eapply cache_written; [eauto| |exact Hok]; rewrite Hc, Hd', Hd; reflexivity
       | rewrite Hm, Hb', Hb; reflexivity ]
     | first [apply fetchUniswapV2Price_frame in Hstep
             |apply fetchUniswapV3Price_frame in Hstep];
       destruct Hstep as (-> & -> & _); rewrite Hd, Hb;
       split; [now left|reflexivity] ]).
Qed.

(** [startTime] is visible in the [try] block and not in the [catch]
    block. *)
Example startTime_scope :
  resolves "startTime" tryBlockScope = true /\
  resolves "startTime" catchBlockScope = false.
Proof. split; reflexivity. Qed.

(** The [catch] block never reaches its call: [startTime] is not among the
    names it can see. *)
Lemma catchBlock_throws dexConfig startTime error b :
  catchBlock world writeFile dexConfig startTime error b
  = (b, Js.Throw (Js.mkError Js.ReferenceError "startTime is not defined")).
Proof. reflexivity. Qed.

Lemma fetchPriceForDex_unfold dexConfig tokenPair b :
  fetchPriceForDex world venue this writeFile dexConfig tokenPair b
  = let key := cacheKey dexConfig tokenPair in
    let now := Date_now world b in
    let lastUpdate :=
      match JsMap.get String.eqb key (lastUpdateTime (dexMonitor b)) with
      | Some t => t
      | None => 0
      end in
    if (now - lastUpdate <? SYSTEM_CONSTANTS.PRICE_UPDATE_INTERVAL)%Z
    then (b, Js.Ok tt)
    else Eff.try_catch (tryBlock world venue this writeFile dexConfig tokenPair key now)
                       (catchBlock world writeFile dexConfig now) b.
Proof.
  unfold fetchPriceForDex, Eff.bind, Eff.get. simpl.
  now destruct (_ <? _)%Z.
Qed.

Lemma fetchPriceForDex_effect dexConfig tokenPair b :
  let after := fetchPriceForDex world venue this writeFile dexConfig tokenPair b in
  (exists r, CacheStep world venue this writeFile dexConfig tokenPair (cacheKey dexConfig tokenPair)
               (Date_now world b) (dexMonitor b) (dexMonitor (fst after)) r) /\
  performanceMetrics (databaseService (fst after))
  = performanceMetrics (databaseService b) /\
  match snd after with
  | Js.Ok _ => True
  | Js.Throw e => Js.kind e = Js.ReferenceError
  end.
Proof.
  intros after. subst after. rewrite fetchPriceForDex_unfold. cbv zeta.
  destruct (_ <? _)%Z;
    [simpl; split; [exists (Js.Ok tt); now left|split; [reflexivity|exact I]]|].
  unfold Eff.try_catch.
  destruct (tryBlock world venue this writeFile dexConfig tokenPair
              (cacheKey dexConfig tokenPair) (Date_now world b) b)
    as [b' [[]|e]] eqn:E; apply tryBlock_effect in E; destruct E as [Hc Hm].
  - simpl. eauto.
  - rewrite catchBlock_throws. simpl. eauto.
Qed.

(** The frame of a failed fetch: when the [try] block rejects, and the
    file system is not the cause, the cache and the times of last update
    are what they were. *)
Lemma failed_fetch_leaves_cache dexConfig tokenPair key now b b' e :
  (forall x, writeFile x = Js.Ok tt) ->
  tryBlock world venue this writeFile dexConfig tokenPair key now b
    = (b', Js.Throw e) ->
  dexMonitor b' = dexMonitor b.
Proof.
  intros Hw H. apply tryBlock_effect in H. destruct H as [[Hs|q p bn gp b0 b1 _ _ Hok] _].
  - exact Hs.
  - specialize (Hok Hw). discriminate Hok.
Qed.

(** What the cache holds after a step was there before or has just been
    returned by a fetcher. *)
Lemma fetchPriceForDex_cache dexConfig tokenPair b k q :
  In (k, q) (priceCache (dexMonitor
    (fst (fetchPriceForDex world venue this writeFile dexConfig tokenPair b)))) ->
  In (k, q) (priceCache (dexMonitor b)) \/
  (k = cacheKey dexConfig tokenPair /\
   exists p blockNumber gasPrice b0 b1,
     fetchUniswapV2Price world venue this dexConfig tokenPair p blockNumber
       gasPrice b0 = (b1, Js.Ok q) \/
     fetchUniswapV3Price world venue this dexConfig tokenPair p blockNumber
       gasPrice b0 = (b1, Js.Ok q)).
Proof.
  destruct (fetchPriceForDex_effect dexConfig tokenPair b)
    as [[r [Hs|q0 p bn gp b0 b1 Hf Hd _]] _].
  - rewrite Hs. auto.
  - rewrite Hd. simpl. intros Hin.
    apply (JsMapFacts.in_set _ _ String.eqb String.eqb_eq) in Hin.
    destruct Hin as [[-> ->]|Hin]; [right|now left].
    split; [reflexivity|]. exists p, bn, gp, b0, b1. exact Hf.
Qed.


End WithWorld.


Lemma Reachable_KeysAndNames b : Reachable b -> KeysAndNames (dexMonitor b).
Proof.
  induction 1 as [cm db|world venue this writeFile dexConfig tokenPair b HR IH Hd Ht
                  |b HR IH|b cm db HR IH]; simpl.
  - intros k q [].
  - intros k q Hin. apply fetchPriceForDex_cache in Hin.
    destruct Hin as [Hin|[-> (p & bn & gp & b0 & b1 & Hfetch)]]; [now apply IH|].
    split; [now apply cacheKey_no_slash|].
    assert (Hn : pd_tokenPair q
                 = (baseToken tokenPair ++ "/" ++ quoteToken tokenPair)%string).
    { destruct Hfetch as [Hfetch|Hfetch];
        [apply fetchUniswapV2Price_frame in Hfetch
        |apply fetchUniswapV3Price_frame in Hfetch];
        destruct Hfetch as (_ & _ & Hn); now apply Hn. }
    rewrite Hn, contains_app. simpl. apply orb_true_r.
  - intros k q [].
  - exact IH.
Qed.

Lemma settled_state (m : Eff Bot unit) b : fst (settled m b) = fst (m b).
Proof.
  unfold settled, Eff.try_catch. now destruct (m b) as [b' [[]|e]].
Qed.

Lemma forEachFetch_reachable world venue this writeFile jobs :
  (forall dexConfig tokenPair, In (dexConfig, tokenPair) jobs ->
     In dexConfig getActiveDexConfigs /\ In tokenPair TOKEN_PAIRS) ->
  forall b, Reachable b ->
    Reachable (fst (forEachFetch world venue this writeFile jobs b)).
Proof.
  induction jobs as [|[dexConfig tokenPair] rest IH]; intros Hjobs b HR; simpl.
  - exact HR.
  - unfold Eff.bind.
    pose proof (settled_state
      (fetchPriceForDex world venue this writeFile dexConfig tokenPair) b) as Hs.
    destruct (settled _ b) as [b1 [[]|e]] eqn:E; simpl in Hs.
    + apply IH; [intros; apply Hjobs; now right|].
      rewrite Hs. destruct (Hjobs dexConfig tokenPair (or_introl eq_refl)).
      now apply reach_fetch.
    + unfold settled, Eff.try_catch in E.
      destruct (fetchPriceForDex _ _ _ _ _ _ b) as [b2 [[]|e2]]; discriminate E.
Qed.

(** A monitoring cycle keeps the poller among its reachable states. *)
Lemma monitorPrices_reachable world venue this writeFile b :
  Reachable b -> Reachable (fst (monitorPrices world venue this writeFile b)).
Proof.
  apply forEachFetch_reachable. intros dexConfig tokenPair Hin.
  unfold monitorJobs in Hin. apply in_flat_map in Hin.
  destruct Hin as (d & Hd & Hin). apply in_map_iff in Hin.
  destruct Hin as (t & Heq & Ht). inversion Heq. subst. auto.
Qed.

End PollerProps.

Module PollerExamples.
Import DexMonitor PollerSpec PollerProps Scenario.


Lemma fundedPool_quotes_are_valid :
  fetchersReturn calmNetwork fundedPool lookupFound (fun q => validQuote q = true).
Proof.
  intros dexConfig tokenPair p blockNumber gasPrice b b' q. split; intros H.
  - apply fetchUniswapV2Price_quote in H.
    destruct H as (k & a & r0 & r1 & k' & t0 & Hr & _ & Hq).
    inversion Hr. subst r0 r1. cbv zeta in Hq. destruct Hq as [Hp Hl].
    unfold validQuote. rewrite Hp, Hl.
    destruct (String.eqb _ _); vm_compute; reflexivity.
  - apply fetchUniswapV3Price_quote in H.
    destruct H as (k & a & sq & k' & l & Hs & Hl & Hp & Hq).
    inversion Hs. inversion Hl. subst sq l.
    unfold validQuote. rewrite Hp, Hq. vm_compute. reflexivity.
Qed.


Lemma warmBot_reachable : Reachable warmBot.
Proof.
  apply reach_fetch.
  - apply reach_start.
  - left. reflexivity.
  - left. reflexivity.
Qed.


(** C8 at two failing inputs. First the bot as shipped, whose address
    lookup is the placeholder: the fetch fails with "Pair address not
    found". Then a cache that holds a quote for ETH/USDC on Uniswap V2,
    and a fetch for the same key five seconds later, when the network is
    down. In both the cache and the times of last update are untouched,
    as claimed; but the [catch] block raises a [ReferenceError] before it
    can record the failure, and the list of metrics stays empty. *)
Theorem failed_fetch_records_no_metric :
  let shipped :=
    fetchPriceForDex calmNetwork fundedPool placeholders diskOk
      uniswapV2 ethUsdc freshBot in
  let after :=
    fetchPriceForDex deadNetwork fundedPool lookupFound diskOk
      uniswapV2 ethUsdc warmBot in
  (dexMonitor (fst shipped) = dexMonitor freshBot /\
   snd shipped
   = Js.Throw (Js.mkError Js.ReferenceError "startTime is not defined") /\
   performanceMetrics (databaseService (fst shipped)) = [])
  /\
  (dexMonitor (fst after) = dexMonitor warmBot /\
   priceCache (dexMonitor warmBot) <> [] /\
   snd after
   = Js.Throw (Js.mkError Js.ReferenceError "startTime is not defined") /\
   performanceMetrics (databaseService (fst after)) = []).
Proof.
  vm_compute. repeat split. discriminate.
Qed.

End PollerExamples.

Module ConnectionExamples.
Import ChainManager ConnectionSpec ConnectionProps Scenario.

(** The failover property of the specification: the connection uses the
    third endpoint, the first two are left with a raised error counter. *)
Example failover_to_third_endpoint :
  let after := getProvider twoDown ETHEREUM (initializeConnections noEnv 0) in
  option_map provider_url
    (match snd after with Js.Ok p => Some p | Js.Throw _ => None end)
  = Some "https://rpc.ankr.com/eth" /\
  option_map (fun c => (currentConnectionIndex c, isHealthy c,
                        map errorCount (connections c),
                        map isActive (connections c)))
    (JsMap.get ChainId_eqb ETHEREUM (cm_connections (fst after)))
  = Some (2%nat, true, [4; 4; 0; 0; 0]%nat, [false; false; true; true; true]) /\
  List.length (cm_io (fst after)) = 7%nat.
Proof. vm_compute. repeat split. Qed.

Lemma afterOutage_reachable : Reachable afterOutage.
Proof. apply reach_getProvider, reach_new. Qed.


Lemma healthy_cached_connection_is_returned_witness :
  exists p,
    getProvider deadNetwork ETHEREUM connected = (connected, Js.Ok p).
Proof.
  assert (E : exists connection p,
    JsMap.get ChainId_eqb ETHEREUM (cm_connections connected) = Some connection /\
    provider connection = Some p /\ isHealthy connection = true).
  { vm_compute. do 2 eexists. repeat split. }
  destruct E as (connection & p & Hget & Hp & Hh). exists p.
  exact (proj1 (healthy_cached_connection_is_returned deadNetwork ETHEREUM
                  connected connection p Hget Hp Hh)).
Defined.

End ConnectionExamples.

(* ===================================================================== *)
(** * The connection manager, operation by operation *)
(* ===================================================================== *)

Module ManagerProps.
Import ChainManager ConnectionSpec ManagerSpec EffFacts ConnectionProps.

Local Arguments pRetry : simpl never.

Lemma nth_error_list_modify_other {A} (g : A -> A) l : forall i j,
  i <> j -> nth_error (list_modify i g l) j = nth_error l j.
Proof.
  induction l as [|x l IH]; intros [|i] [|j] H; simpl; auto; try congruence.
Qed.

Lemma length_list_modify {A} (g : A -> A) l : forall i,
  List.length (list_modify i g l) = List.length l.
Proof.
  induction l as [|x l IH]; intros [|i]; simpl; auto.
Qed.

(** The record of a chain after a mutation of the record of [chainId]. *)
Lemma get_modifyConnection chainId f s c :
  JsMap.get ChainId_eqb c (cm_connections (fst (modifyConnection chainId f s)))
  = if ChainId_eqb chainId c
    then option_map f (JsMap.get ChainId_eqb c (cm_connections s))
    else JsMap.get ChainId_eqb c (cm_connections s).
Proof.
  unfold modifyConnection, Eff.modify. simpl.
  destruct (ChainId_eqb chainId c) eqn:E.
  - apply ChainId_eqb_spec in E. subst c.
    destruct (JsMap.get ChainId_eqb chainId (cm_connections s)) as [conn|] eqn:Eg;
      simpl.
    + apply (JsMapFacts.get_set_same _ _ ChainId_eqb ChainId_eqb_spec).
    + exact Eg.
  - destruct (JsMap.get ChainId_eqb chainId (cm_connections s)) as [conn|];
      simpl; auto.
    apply (JsMapFacts.get_set_other _ _ ChainId_eqb ChainId_eqb_spec).
    intros ->. rewrite (proj2 (ChainId_eqb_spec c c) eq_refl) in E. discriminate.
Qed.

Lemma At_modifyConnection chainId (P P' : ChainConnection -> Prop) f s :
  At chainId P s ->
  (forall connection, P connection -> P' (f connection)) ->
  At chainId P' (fst (modifyConnection chainId f s)).
Proof.
  intros (conn & Hget & HP) Hf. exists (f conn).
  rewrite get_modifyConnection, (proj2 (ChainId_eqb_spec _ _) eq_refl), Hget.
  auto.
Qed.

Lemma At_other chainId c (P : ChainConnection -> Prop) f s :
  chainId <> c -> At c P s -> At c P (fst (modifyConnection chainId f s)).
Proof.
  intros Hne (conn & Hget & HP). exists conn.
  rewrite get_modifyConnection.
  destruct (ChainId_eqb chainId c) eqn:E; auto.
  apply ChainId_eqb_spec in E. contradiction.
Qed.

Lemma At_ext c (P : ChainConnection -> Prop) s s' :
  cm_connections s' = cm_connections s -> At c P s -> At c P s'.
Proof. unfold At. intros ->. auto. Qed.

Lemma At_weaken c (P P' : ChainConnection -> Prop) s :
  (forall connection, P connection -> P' connection) -> At c P s -> At c P' s.
Proof. intros H (conn & Hget & HP). exists conn. auto. Qed.

(** ** Frames

    What every operation on the record of one chain preserves: a property
    of the manager that survives a request, a change of the fields of the
    record other than its endpoints, the reset of an endpoint after a
    success and its deactivation after a failure. *)
Section Frames.
Variable world : RpcWorld.
Variable chainId : ChainId.
Variable P : ChainManagerState -> Prop.

Hypothesis P_ext : forall s s',
  cm_connections s' = cm_connections s -> P s -> P s'.
Hypothesis P_fields : forall f s,
  (forall connection, connections (f connection) = connections connection) ->
  P s -> P (fst (modifyConnection chainId f s)).
Hypothesis P_reset : forall i t l s,
  P s ->
  P (fst (modifyRpc chainId i
            (fun r => mkRpcConnection (url r) (isActive r) t l 0 (maxRetries r)) s)).
Hypothesis P_off : forall i s,
  P s ->
  P (fst (modifyRpc chainId i (fun r => deactivate (incrementErrorCount r)) s)).

Lemma frame_networkCall {A} (answer : nat -> string -> Js.Result A) u m :
  hoare P (networkCall answer u m) (fun _ s => P s).
Proof. apply hoare_networkCall. exact P_ext. Qed.

Lemma frame_connectWebSocket i u :
  hoare P (connectWebSocket world chainId i u) (fun _ s => P s).
Proof.
  unfold connectWebSocket. apply hoare_get. intros s0.
  eapply hoare_bind with (R := fun _ s => P s).
  { eapply hoare_weaken; [apply frame_networkCall| |].
    - now intros s [_ H].
    - intros [a|e] s H; exact H. }
  intros ?. apply hoare_get. intros s1.
  eapply hoare_bind with (R := fun _ s => P s).
  { intros s [_ H]. rewrite modifyRpc_result. now apply P_reset. }
  intros ?. eapply hoare_bind with (R := fun _ s => P s).
  { intros s H. rewrite modifyConnection_result. now apply P_fields. }
  intros ?. apply hoare_ret. auto.
Qed.

Lemma frame_tryWebSockets l :
  hoare P (tryWebSockets world chainId l) (fun _ s => P s).
Proof.
  induction l as [|[i r] rest IH]; simpl.
  - apply hoare_throw. auto.
  - eapply hoare_try_catch with (R := fun _ s => P s).
    + eapply hoare_weaken; [apply frame_connectWebSocket|auto|].
      intros [a|e] s H; exact H.
    + intros e. eapply hoare_bind with (R := fun _ s => P s); [|intros ?; exact IH].
      intros s H. rewrite modifyRpc_result. now apply P_off.
Qed.

Lemma frame_getWebSocketProvider :
  hoare P (getWebSocketProvider world chainId) (fun _ s => P s).
Proof.
  unfold getWebSocketProvider. apply hoare_get. intros s0.
  destruct (JsMap.get ChainId_eqb chainId (cm_connections s0)) as [c|];
    [|apply hoare_throw; now intros s [_ H]].
  assert (He : hoare (fun s => s = s0 /\ P s)
                 (establishWebSocket world chainId c) (fun _ s => P s)).
  { unfold establishWebSocket. destruct (Nat.eqb _ 0).
    - apply hoare_throw. now intros s [_ H].
    - eapply hoare_weaken; [apply frame_tryWebSockets| |]; cbv beta; auto.
      now intros s [_ H]. }
  destruct (wsProvider c); auto.
  destruct (isHealthy c); auto.
  apply hoare_ret. now intros s [_ H].
Qed.

Hypothesis P_incr : forall i s,
  P s -> P (fst (modifyRpc chainId i incrementErrorCount s)).

Lemma frame_connectOnce i u :
  hoare P (connectOnce world chainId i u) (fun _ s => P s).
Proof.
  unfold connectOnce. apply hoare_get. intros s0.
  eapply hoare_bind with (R := fun _ s => P s).
  { eapply hoare_weaken; [apply frame_networkCall| |].
    - now intros s [_ H].
    - intros [a|e] s H; exact H. }
  intros ?. apply hoare_get. intros s1.
  eapply hoare_bind with (R := fun _ s => P s).
  { intros s [_ H]. rewrite modifyRpc_result. now apply P_reset. }
  intros ?. apply hoare_ret. auto.
Qed.

Lemma frame_establishFrom remaining : forall i,
  hoare P (establishFrom world chainId i remaining) (fun _ s => P s).
Proof.
  induction remaining as [|remaining IH]; intros i; simpl.
  - eapply hoare_bind with (R := fun _ s => P s).
    + intros s H. rewrite modifyConnection_result. now apply P_fields.
    + intros ?. apply hoare_throw. auto.
  - apply hoare_get. intros s0.
    destruct (JsMap.get ChainId_eqb chainId (cm_connections s0)) as [c|];
      [|apply hoare_throw; now intros s [_ H]].
    destruct (nth_error (connections c) i) as [rpc|];
      [|apply hoare_throw; now intros s [_ H]].
    destruct (negb (isActive rpc) || Nat.leb (maxRetries rpc) (errorCount rpc)).
    { eapply hoare_weaken; [apply IH| |]; cbv beta; auto. now intros s [_ H]. }
    eapply hoare_try_catch with (R := fun _ s => P s).
    + eapply hoare_bind with (R := fun _ s => P s).
      * eapply hoare_weaken.
        -- apply (hoare_pRetry (fun _ s => P s)) with
             (k := 0%nat) (Q := fun _ s => P s).
           ++ intros k. eapply hoare_weaken; [apply frame_connectOnce|auto|].
              intros [a|e] s H; exact H.
           ++ intros k e s H. rewrite modifyRpc_result. now apply P_incr.
           ++ auto.
        -- now intros s [_ H].
        -- intros [a|e] s H; exact H.
      * intros p. apply hoare_get. intros s1.
        eapply hoare_bind with (R := fun _ s => P s).
        -- intros s [_ H]. rewrite modifyConnection_result. now apply P_fields.
        -- intros ?. apply hoare_ret. auto.
    + intros e. eapply hoare_bind with (R := fun _ s => P s).
      * intros s H. rewrite modifyRpc_result. now apply P_off.
      * intros ?. apply IH.
Qed.

Lemma frame_getProvider :
  hoare P (getProvider world chainId) (fun _ s => P s).
Proof.
  unfold getProvider. apply hoare_get. intros s0.
  destruct (JsMap.get ChainId_eqb chainId (cm_connections s0)) as [c|];
    [|apply hoare_throw; now intros s [_ H]].
  assert (He : hoare (fun s => s = s0 /\ P s)
                 (establishConnection world chainId c) (fun _ s => P s)).
  { eapply hoare_weaken; [apply frame_establishFrom| |]; cbv beta; auto.
    now intros s [_ H]. }
  destruct (provider c); auto.
  destruct (isHealthy c); auto.
  apply hoare_ret. now intros s [_ H].
Qed.

Lemma frame_updateBlockInfo :
  hoare P (updateBlockInfo world chainId) (fun _ s => P s).
Proof.
  unfold updateBlockInfo. apply hoare_get. intros s0.
  destruct (JsMap.get ChainId_eqb chainId (cm_connections s0));
    [|apply hoare_ret; now intros s [_ H]].
  eapply hoare_try_catch with (R := fun _ s => P s).
  - eapply hoare_bind with (R := fun _ s => P s).
    { eapply hoare_weaken; [apply frame_getProvider| |].
      - now intros s [_ H].
      - intros [a|e] s H; exact H. }
    intros p. eapply hoare_bind with (R := fun _ s => P s).
    { eapply hoare_weaken; [apply frame_networkCall|auto|].
      intros [a|e] s H; exact H. }
    intros blockNumber. eapply hoare_bind with (R := fun _ s => P s).
    { eapply hoare_weaken; [apply frame_networkCall|auto|].
      intros [a|e] s H; exact H. }
    intros block s H. rewrite modifyConnection_result. now apply P_fields.
  - intros e s H. now apply P_fields.
Qed.

Lemma frame_getBlockNumber :
  hoare P (getBlockNumber world chainId) (fun _ s => P s).
Proof.
  unfold getBlockNumber. eapply hoare_bind with (R := fun _ s => P s).
  - eapply hoare_weaken; [apply frame_getProvider|auto|].
    intros [a|e] s H; exact H.
  - intros p. apply frame_networkCall.
Qed.

Lemma frame_getGasPrice :
  hoare P (getGasPrice world chainId) (fun _ s => P s).
Proof.
  unfold getGasPrice. eapply hoare_bind with (R := fun _ s => P s).
  - eapply hoare_weaken; [apply frame_getProvider|auto|].
    intros [a|e] s H; exact H.
  - intros p. eapply hoare_bind with (R := fun _ s => P s).
    + eapply hoare_weaken; [apply frame_networkCall|auto|].
      intros [a|e] s H; exact H.
    + intros g. apply hoare_ret. auto.
Qed.

End Frames.

(** What the methods built on [getProvider] preserve. *)
Section Above.
Variable world : RpcWorld.
Variable chainId : ChainId.
Variable P : ChainManagerState -> Prop.

Hypothesis P_ext : forall s s',
  cm_connections s' = cm_connections s -> P s -> P s'.
Hypothesis P_getProvider :
  hoare P (getProvider world chainId) (fun _ s => P s).
Hypothesis P_block : forall blockNumber blockTime s,
  P s ->
  P (fst (modifyConnection chainId (fun c =>
            mkChainConnection (cc_chainId c) (provider c) (wsProvider c)
              (connections c) (currentConnectionIndex c) (isHealthy c)
              blockNumber blockTime) s)).
Hypothesis P_unhealthy : forall s,
  P s -> P (fst (modifyConnection chainId markUnhealthy s)).

Lemma above_updateBlockInfo :
  hoare P (updateBlockInfo world chainId) (fun _ s => P s).
Proof.
  unfold updateBlockInfo. apply hoare_get. intros s0.
  destruct (JsMap.get ChainId_eqb chainId (cm_connections s0));
    [|apply hoare_ret; now intros s [_ H]].
  eapply hoare_try_catch with (R := fun _ s => P s).
  - eapply hoare_bind with (R := fun _ s => P s).
    { eapply hoare_weaken; [apply P_getProvider| |].
      - now intros s [_ H].
      - intros [a|e] s H; exact H. }
    intros p. eapply hoare_bind with (R := fun _ s => P s).
    { eapply hoare_weaken; [apply (frame_networkCall P P_ext)|auto|].
      intros [a|e] s H; exact H. }
    intros blockNumber. eapply hoare_bind with (R := fun _ s => P s).
    { eapply hoare_weaken; [apply (frame_networkCall P P_ext)|auto|].
      intros [a|e] s H; exact H. }
    intros block s H. rewrite modifyConnection_result. now apply P_block.
  - intros e s H. now apply P_unhealthy.
Qed.

Lemma above_getBlockNumber :
  hoare P (getBlockNumber world chainId) (fun _ s => P s).
Proof.
  unfold getBlockNumber. eapply hoare_bind with (R := fun _ s => P s).
  - eapply hoare_weaken; [apply P_getProvider|auto|].
    intros [a|e] s H; exact H.
  - intros p. apply (frame_networkCall P P_ext).
Qed.

Lemma above_getGasPrice :
  hoare P (getGasPrice world chainId) (fun _ s => P s).
Proof.
  unfold getGasPrice. eapply hoare_bind with (R := fun _ s => P s).
  - eapply hoare_weaken; [apply P_getProvider|auto|].
    intros [a|e] s H; exact H.
  - intros p. eapply hoare_bind with (R := fun _ s => P s).
    + eapply hoare_weaken; [apply (frame_networkCall P P_ext)|auto|].
      intros [a|e] s H; exact H.
    + intros g. apply hoare_ret. auto.
Qed.

End Above.

(** What every operation preserves, given that the resolutions do. *)
Section EveryStep.
Variable P : ChainManagerState -> Prop.

Hypothesis P_ext : forall s s',
  cm_connections s' = cm_connections s -> P s -> P s'.
Hypothesis P_getProvider : forall world chainId,
  hoare P (getProvider world chainId) (fun _ s => P s).
Hypothesis P_getWebSocketProvider : forall world chainId,
  hoare P (getWebSocketProvider world chainId) (fun _ s => P s).
Hypothesis P_block : forall chainId blockNumber blockTime s,
  P s ->
  P (fst (modifyConnection chainId (fun c =>
            mkChainConnection (cc_chainId c) (provider c) (wsProvider c)
              (connections c) (currentConnectionIndex c) (isHealthy c)
              blockNumber blockTime) s)).
Hypothesis P_unhealthy : forall chainId s,
  P s -> P (fst (modifyConnection chainId markUnhealthy s)).

Lemma every_updateBlockInfo world chainId :
  hoare P (updateBlockInfo world chainId) (fun _ s => P s).
Proof. apply above_updateBlockInfo; auto. Qed.

Lemma every_healthCheckEach world chains :
  hoare P (healthCheckEach world chains) (fun _ s => P s).
Proof.
  induction chains as [|c rest IH]; simpl.
  - apply hoare_ret. auto.
  - eapply hoare_bind with (R := fun _ s => P s); [|intros ?; apply IH].
    eapply hoare_try_catch with (R := fun _ s => P s).
    + eapply hoare_weaken;
        [apply every_updateBlockInfo|auto|intros [a|e] s H; exact H].
    + intros e s H. rewrite modifyConnection_result. now apply P_unhealthy.
Qed.

Lemma every_Step s s' : Step s s' -> P s -> P s'.
Proof.
  intros [world c s0|world c s0|world c s0|world c s0|world c s0|world s0
         |A answer u m s0] H.
  - now apply P_getProvider.
  - now apply P_getWebSocketProvider.
  - now apply every_updateBlockInfo.
  - apply above_getBlockNumber; auto.
  - apply above_getGasPrice; auto.
  - unfold performHealthCheck, Eff.bind, Eff.get.
    now apply every_healthCheckEach.
  - eapply P_ext; [|exact H]. reflexivity.
Qed.

Lemma every_Steps s s' : Steps s s' -> P s -> P s'.
Proof.
  induction 1 as [|s s' s'' _ IH Hstep]; auto.
  intros HP. eapply every_Step; eauto.
Qed.

End EveryStep.

(** ** The loop of [establishConnection] on a chain at rest *)

Lemma nth_error_list_modify_inv {A} (g : A -> A) l i j x' :
  nth_error (list_modify i g l) j = Some x' ->
  (j = i /\ exists x, nth_error l i = Some x /\ x' = g x) \/
  (j <> i /\ nth_error l j = Some x').
Proof.
  destruct (Nat.eq_dec j i) as [->|Hne].
  - rewrite nth_error_list_modify.
    destruct (nth_error l i) as [x|]; simpl; [|discriminate].
    intros H. inversion H. left. eauto.
  - rewrite nth_error_list_modify_other by auto. auto.
Qed.

(** [modifyRpc] as a change of the record of the chain. *)
Lemma At_modifyRpc chainId i g (P P' : ChainConnection -> Prop) s :
  At chainId P s ->
  (forall c, P c ->
     P' (mkChainConnection (cc_chainId c) (provider c) (wsProvider c)
           (list_modify i g (connections c)) (currentConnectionIndex c)
           (isHealthy c) (lastBlockNumber c) (lastBlockTime c))) ->
  At chainId P' (fst (modifyRpc chainId i g s)).
Proof. intros H Hf. unfold modifyRpc. eapply At_modifyConnection; eauto. Qed.

Section Loop.
Variable world : RpcWorld.
Variable chainId : ChainId.
Variable n : nat.

Lemma loop_connectOnce i u :
  hoare (At chainId (Trying n i u)) (connectOnce world chainId i u)
    (fun res s => match res with
                  | Js.Ok p => provider_url p = u /\ At chainId (Answered n i u) s
                  | Js.Throw _ => At chainId (Trying n i u) s
                  end).
Proof.
  unfold connectOnce. apply hoare_get. intros s0.
  eapply hoare_bind with (R := fun _ s => At chainId (Trying n i u) s).
  { eapply hoare_weaken.
    - apply hoare_networkCall with (P := At chainId (Trying n i u)).
      intros s s'. apply At_ext.
    - now intros s [_ H].
    - intros [a|e] s H; exact H. }
  intros ?. apply hoare_get. intros s1.
  eapply hoare_bind with (R := fun _ s => At chainId (Answered n i u) s).
  { intros s [_ H]. rewrite modifyRpc_result.
    eapply At_modifyRpc; [exact H|]. clear H.
    intros c [Hlen Hall]. split; simpl.
    - now rewrite length_list_modify.
    - intros j r' Hj. apply nth_error_list_modify_inv in Hj.
      destruct Hj as [[-> (r & Hr & ->)]|[Hne Hj]].
      + destruct (Hall _ _ Hr) as (Hmax & _ & Hlt & Hi).
        destruct (Hi eq_refl) as [Hact Hurl]. simpl.
        split; [split; auto|]. split; [intros; lia|auto].
      + destruct (Hall _ _ Hj) as (Hmax & Hs & Hlt & _).
        split; [auto|]. split; [auto|]. intros; contradiction. }
  intros ?. apply hoare_ret. intros s H. simpl. auto.
Qed.

Lemma loop_onFailedAttempt i u :
  hoare (At chainId (Trying n i u)) (modifyRpc chainId i incrementErrorCount)
    (fun res s => match res with
                  | Js.Ok _ => At chainId (Trying n i u) s
                  | Js.Throw _ => False
                  end).
Proof.
  intros s H. rewrite modifyRpc_result.
  eapply At_modifyRpc; [exact H|]. clear H.
  intros c [Hlen Hall]. split; simpl.
  - now rewrite length_list_modify.
  - intros j r' Hj. apply nth_error_list_modify_inv in Hj.
    destruct Hj as [[-> (r & Hr & ->)]|[Hne Hj]].
    + destruct (Hall _ _ Hr) as (Hmax & _ & Hlt & Hi). simpl.
      repeat split; auto; try (intros; contradiction); now apply Hi.
    + now apply Hall.
Qed.

Lemma loop_deactivate i u :
  hoare (At chainId (Trying n i u))
    (modifyRpc chainId i (fun r => deactivate (incrementErrorCount r)))
    (fun _ s => At chainId (Visiting n (S i)) s).
Proof.
  intros s H. eapply At_modifyRpc; [exact H|]. clear H.
  intros c [Hlen Hall]. split; simpl.
  - now rewrite length_list_modify.
  - intros j r' Hj. apply nth_error_list_modify_inv in Hj.
    destruct Hj as [[-> (r & Hr & ->)]|[Hne Hj]].
    + destruct (Hall _ _ Hr) as (Hmax & _). simpl.
      split; [split; simpl; [auto|discriminate]|auto].
    + destruct (Hall _ _ Hj) as (Hmax & Hs & Hlt & _).
      split; [auto|]. intros Hlt'. apply Hlt. lia.
Qed.

Lemma Visiting_all c : Visiting n n c -> Forall (fun r => isActive r = false /\
    maxRetries r = SYSTEM_CONSTANTS.MAX_RETRIES) (connections c).
Proof.
  intros [Hlen Hall]. apply Forall_forall. intros r Hin.
  apply In_nth_error in Hin. destruct Hin as [j Hj].
  destruct (Hall _ _ Hj) as [[Hmax _] Hoff]. split; auto.
  apply Hoff. rewrite <- Hlen. apply nth_error_Some. congruence.
Qed.

Lemma loop_establishFrom remaining : forall i,
  (i + remaining = n)%nat ->
  hoare (At chainId (Visiting n i)) (establishFrom world chainId i remaining)
    (fun res s => match res with
                  | Js.Ok p => At chainId (Resolved n p) s
                  | Js.Throw e => e = allFailed chainId /\ At chainId (Exhausted n) s
                  end).
Proof.
  induction remaining as [|remaining IH]; intros i Hn; simpl.
  - eapply hoare_bind with (R := fun _ s => At chainId (Exhausted n) s).
    + intros s H. rewrite modifyConnection_result.
      eapply At_modifyConnection; [exact H|].
      intros c Hc. replace i with n in Hc by lia.
      split; [exact (proj1 Hc)|]. split; [reflexivity|]. simpl.
      now apply Visiting_all.
    + intros ?. apply hoare_throw. auto.
  - apply hoare_get. intros s0.
    destruct (JsMap.get ChainId_eqb chainId (cm_connections s0)) as [c|] eqn:Ec;
      [|apply hoare_throw; intros s [-> (c & Hc & _)]; congruence].
    destruct (nth_error (connections c) i) as [rpc|] eqn:Er.
    2:{ apply hoare_throw. intros s [-> (c' & Hc & Hlen & _)].
        exfalso. rewrite Ec in Hc. inversion Hc. subst c'.
        apply nth_error_None in Er. lia. }
    destruct (negb (isActive rpc) || Nat.leb (maxRetries rpc) (errorCount rpc)) eqn:Eskip.
    { eapply hoare_weaken; [apply (IH (S i)); lia| |]; cbv beta; auto.
      intros s [-> (c' & Hc & Hlen & Hall)]. rewrite Ec in Hc. inversion Hc. subst c'.
      exists c. split; [exact Ec|]. split; [exact Hlen|].
      intros j r Hj. destruct (Hall _ _ Hj) as [Hs Hlt]. split; [exact Hs|].
      intros Hj'. destruct (Nat.eq_dec j i) as [->|Hne]; [|apply Hlt; lia].
      rewrite Er in Hj. inversion Hj. subst r.
      destruct Hs as [Hmax Hzero]. destruct (isActive rpc); auto.
      rewrite Hmax, (Hzero eq_refl) in Eskip. discriminate Eskip. }
    apply orb_false_iff in Eskip. destruct Eskip as [Eact _].
    apply negb_false_iff in Eact.
    eapply hoare_try_catch
      with (R := fun _ s => At chainId (Trying n i (url rpc)) s).
    + eapply hoare_bind
        with (R := fun p s => provider_url p = url rpc /\
                              At chainId (Answered n i (url rpc)) s).
      * eapply hoare_weaken.
        -- apply (hoare_pRetry (fun _ s => At chainId (Trying n i (url rpc)) s))
             with (k := 0%nat)
                  (Q := fun r s => match r with
                                   | Js.Ok p => provider_url p = url rpc /\
                                                At chainId (Answered n i (url rpc)) s
                                   | Js.Throw _ => At chainId (Trying n i (url rpc)) s
                                   end).
           ++ intros k. apply loop_connectOnce.
           ++ intros k e. eapply hoare_weaken; [apply (loop_onFailedAttempt i (url rpc))| |];
                cbv beta; auto.
              intros [a|e'] s H; [exact H|destruct H].
           ++ intros e s H. exact H.
        -- intros s [-> (c' & Hc & Hlen & Hall)].
           rewrite Ec in Hc. inversion Hc. subst c'.
           exists c. split; [exact Ec|]. split; [exact Hlen|].
           intros j r Hj. destruct (Hall _ _ Hj) as [Hs Hlt].
           split; [exact (proj1 Hs)|]. split; [auto|]. split; [exact Hlt|].
           intros ->. rewrite Er in Hj. inversion Hj. subst r. auto.
        -- intros [a|e] s H; exact H.
      * intros p. apply hoare_get. intros s1.
        eapply hoare_bind with (R := fun _ s => At chainId (Resolved n p) s).
        -- intros s [_ [Hurl H]]. rewrite modifyConnection_result.
           eapply At_modifyConnection; [exact H|].
           intros c' [Hlen Hall]. split; [exact Hlen|]. simpl. split.
           ++ apply Forall_forall. intros r Hin.
              apply In_nth_error in Hin. destruct Hin as [j Hj].
              now apply (Hall _ _ Hj).
           ++ exists i. unfold EstablishedAt. simpl.
              repeat split; auto.
              ** destruct (nth_error (connections c') i) as [r|] eqn:Hr.
                 --- exists r. destruct (Hall _ _ Hr) as (_ & _ & Hi).
                     destruct (Hi eq_refl) as (Hact & Hu & Hz).
                     repeat split; auto. congruence.
                 --- apply nth_error_None in Hr. lia.
              ** intros j r Hlt Hj. now apply (Hall _ _ Hj).
        -- intros ?. apply hoare_ret. auto.
    + intros e. eapply hoare_bind
        with (R := fun _ s => At chainId (Visiting n (S i)) s).
      * intros s H. rewrite modifyRpc_result.
        exact (loop_deactivate i (url rpc) s H).
      * intros ?. apply IH. lia.
Qed.

End Loop.

(** A resolution on a chain whose endpoints are at rest. *)
Lemma getProvider_at_rest world chainId s connection :
  JsMap.get ChainId_eqb chainId (cm_connections s) = Some connection ->
  Forall settled (connections connection) ->
  let n := List.length (connections connection) in
  match snd (getProvider world chainId s) with
  | Js.Ok p =>
      (fst (getProvider world chainId s) = s /\
       provider connection = Some p /\ isHealthy connection = true) \/
      At chainId (Resolved n p) (fst (getProvider world chainId s))
  | Js.Throw e =>
      e = allFailed chainId /\
      At chainId (Exhausted n) (fst (getProvider world chainId s))
  end.
Proof.
  intros Hget Hall n.
  assert (Hpre : At chainId (Visiting n 0) s).
  { exists connection. split; [exact Hget|]. split; [reflexivity|].
    intros j r Hj. split; [|lia].
    rewrite Forall_forall in Hall. apply Hall. eapply nth_error_In; eauto. }
  pose proof (loop_establishFrom world chainId n n 0%nat eq_refl s Hpre) as He.
  unfold getProvider, Eff.bind, Eff.get. rewrite Hget.
  unfold establishConnection. fold n.
  destruct (provider connection) as [p|] eqn:Ep.
  - destruct (isHealthy connection) eqn:Eh.
    + simpl. auto.
    + destruct (snd (establishFrom world chainId 0 n s)); auto.
  - destruct (snd (establishFrom world chainId 0 n s)); auto.
Qed.

(** ** Endpoints at rest *)

Lemma SettledAt_ext c s s' :
  cm_connections s' = cm_connections s -> SettledAt c s -> SettledAt c s'.
Proof. unfold SettledAt. intros ->. auto. Qed.

Lemma SettledAt_modifyConnection k c f s :
  (k = c -> forall connection,
     Forall settled (connections connection) ->
     Forall settled (connections (f connection))) ->
  SettledAt c s -> SettledAt c (fst (modifyConnection k f s)).
Proof.
  intros Hf H conn'. rewrite get_modifyConnection.
  destruct (ChainId_eqb k c) eqn:E; [|apply H].
  apply ChainId_eqb_spec in E.
  destruct (JsMap.get ChainId_eqb c (cm_connections s)) as [conn|] eqn:Eg;
    simpl; [|discriminate].
  intros Heq. inversion Heq. apply Hf; auto.
Qed.

Lemma SettledAt_modifyRpc k c i g s :
  (k = c -> forall r, maxRetries r = SYSTEM_CONSTANTS.MAX_RETRIES -> settled (g r)) ->
  SettledAt c s -> SettledAt c (fst (modifyRpc k i g s)).
Proof.
  intros Hg. apply SettledAt_modifyConnection. intros Hk conn Hall. simpl.
  apply Forall_list_modify; auto. intros r _ [Hmax _]. auto.
Qed.

Lemma SettledAt_getWebSocketProvider world k c :
  hoare (SettledAt c) (getWebSocketProvider world k) (fun _ s => SettledAt c s).
Proof.
  apply frame_getWebSocketProvider.
  - apply SettledAt_ext.
  - intros f s Hf. apply SettledAt_modifyConnection. intros _ conn.
    now rewrite Hf.
  - intros i t l s. apply SettledAt_modifyRpc. intros _ r Hmax.
    split; simpl; auto.
  - intros i s. apply SettledAt_modifyRpc. intros _ r Hmax.
    split; simpl; [auto|discriminate].
Qed.

Lemma SettledAt_getProvider world k c :
  hoare (SettledAt c) (getProvider world k) (fun _ s => SettledAt c s).
Proof.
  destruct (ChainId_eqb k c) eqn:E.
  - apply ChainId_eqb_spec in E. subst k. intros s H.
    destruct (JsMap.get ChainId_eqb c (cm_connections s)) as [conn|] eqn:Eg.
    + pose proof (getProvider_at_rest world c s conn Eg (H _ Eg)) as Hr.
      cbv zeta in Hr.
      destruct (snd (getProvider world c s)) as [p|e].
      * destruct Hr as [[-> _]|(conn' & Hg' & _ & Hall & _)]; auto.
        intros conn'' Hg''. congruence.
      * destruct Hr as [_ (conn' & Hg' & _ & _ & Hall)].
        intros conn'' Hg''. rewrite Hg' in Hg''. inversion Hg''. subst conn''.
        eapply Forall_impl; [|exact Hall]. intros r [Hoff Hmax].
        split; [auto|congruence].
    + unfold getProvider, Eff.bind, Eff.get. rewrite Eg. exact H.
  - assert (Hne : k = c -> False).
    { intros ->. rewrite (proj2 (ChainId_eqb_spec c c) eq_refl) in E. discriminate. }
    apply frame_getProvider.
    + apply SettledAt_ext.
    + intros f s _. apply SettledAt_modifyConnection. intros Hk. contradiction.
    + intros i t l s. apply SettledAt_modifyRpc. intros Hk. contradiction.
    + intros i s. apply SettledAt_modifyRpc. intros Hk. contradiction.
    + intros i s. apply SettledAt_modifyRpc. intros Hk. contradiction.
Qed.

Lemma SettledAt_Steps c s s' : Steps s s' -> SettledAt c s -> SettledAt c s'.
Proof.
  apply every_Steps.
  - apply SettledAt_ext.
  - intros world k. apply SettledAt_getProvider.
  - intros world k. apply SettledAt_getWebSocketProvider.
  - intros k bn bt s0. apply SettledAt_modifyConnection. auto.
  - intros k s0. apply SettledAt_modifyConnection. auto.
Qed.

Local Arguments createRpcConnections : simpl never.

Lemma createRpcConnections_settled chainConfig now :
  Forall settled (createRpcConnections chainConfig now).
Proof.
  unfold createRpcConnections. apply Forall_app.
  split; apply Forall_map, Forall_forall; intros u _; split; simpl; auto.
Qed.

Lemma initializeConnections_get env now c :
  JsMap.get ChainId_eqb c (cm_connections (initializeConnections env now))
  = Some (mkChainConnection c None None
            (createRpcConnections (getChainConfig env c) now) 0 false 0 (Some now)).
Proof. destruct c; reflexivity. Qed.

Lemma initializeConnections_settled env now c :
  SettledAt c (initializeConnections env now).
Proof.
  intros conn. rewrite initializeConnections_get. intros H. inversion H.
  apply createRpcConnections_settled.
Qed.

(** ** Known chains *)

Lemma Known_Steps c s s' : Steps s s' -> Known c s -> Known c s'.
Proof.
  apply every_Steps.
  - intros s0 s1. apply Known_ext.
  - intros world k. apply frame_getProvider.
    + intros s0 s1. apply Known_ext.
    + intros f s0 _. apply modifyConnection_Known.
    + intros i t l s0. apply modifyConnection_Known.
    + intros i s0. apply modifyConnection_Known.
    + intros i s0. apply modifyConnection_Known.
  - intros world k. apply frame_getWebSocketProvider.
    + intros s0 s1. apply Known_ext.
    + intros f s0 _. apply modifyConnection_Known.
    + intros i t l s0. apply modifyConnection_Known.
    + intros i s0. apply modifyConnection_Known.
  - intros k bn bt s0. apply modifyConnection_Known.
  - intros k s0. apply modifyConnection_Known.
Qed.

(** ** A chain without an active endpoint *)

Lemma set_get_same (m : JsMap.t ChainId ChainConnection) k v :
  JsMap.get ChainId_eqb k m = Some v -> JsMap.set ChainId_eqb k v m = m.
Proof.
  induction m as [|[k' v'] m IH]; simpl; [discriminate|].
  destruct (ChainId_eqb k k') eqn:E.
  - intros H. inversion H. reflexivity.
  - intros H. now rewrite IH.
Qed.

Lemma markUnhealthy_dead c s :
  Dead c s -> fst (modifyConnection c markUnhealthy s) = s.
Proof.
  intros (conn & Hget & Hh & _). unfold modifyConnection, Eff.modify. simpl.
  rewrite Hget. destruct conn as [id p w l k h bn bt]. simpl in Hh. subst h.
  unfold markUnhealthy. simpl. rewrite (set_get_same _ _ _ Hget).
  now destruct s.
Qed.

Lemma establishFrom_dead world c s remaining : forall i,
  Dead c s ->
  establishFrom world c i remaining s = (s, Js.Throw (allFailed c)).
Proof.
  induction remaining as [|remaining IH]; intros i HD; simpl.
  - unfold Eff.bind.
    change (modifyConnection c _ s) with
      (fst (modifyConnection c markUnhealthy s), Js.Ok tt).
    now rewrite (markUnhealthy_dead _ _ HD).
  - unfold Eff.bind, Eff.get. destruct HD as (conn & Hget & Hh & Hall).
    rewrite Hget. destruct (nth_error (connections conn) i) as [rpc|] eqn:Er;
      [|reflexivity].
    rewrite Forall_forall in Hall.
    rewrite (Hall rpc (nth_error_In _ _ Er)). simpl.
    apply IH. exists conn. rewrite Forall_forall. auto.
Qed.

Lemma getProvider_dead world c s :
  Dead c s -> getProvider world c s = (s, Js.Throw (allFailed c)).
Proof.
  intros HD. pose proof HD as (conn & Hget & Hh & Hall).
  unfold getProvider, Eff.bind, Eff.get. rewrite Hget, Hh.
  destruct (provider conn); apply establishFrom_dead; exact HD.
Qed.

Lemma wsConnections_from_dead l : forall i,
  Forall (fun r => isActive r = false) l -> wsConnections_from i l = [].
Proof.
  induction l as [|r l IH]; intros i H; simpl; auto.
  inversion H; subst. rewrite H2, andb_false_r. auto.
Qed.

Lemma getWebSocketProvider_dead world c s :
  Dead c s -> getWebSocketProvider world c s = (s, Js.Throw (noWebSocket c)).
Proof.
  intros (conn & Hget & Hh & Hall).
  unfold getWebSocketProvider, Eff.bind, Eff.get. rewrite Hget, Hh.
  unfold establishWebSocket. rewrite (wsConnections_from_dead _ _ Hall).
  now destruct (wsProvider conn).
Qed.

Lemma Dead_ext c s s' : cm_connections s' = cm_connections s -> Dead c s -> Dead c s'.
Proof. apply At_ext. Qed.

Lemma Dead_modifyConnection k c f s :
  (k = c -> forall connection,
     connections (f connection) = connections connection /\
     (isHealthy connection = false -> isHealthy (f connection) = false)) ->
  Dead c s -> Dead c (fst (modifyConnection k f s)).
Proof.
  intros Hf HD. destruct (ChainId_eqb k c) eqn:E.
  - apply ChainId_eqb_spec in E. subst k.
    eapply At_modifyConnection; [exact HD|].
    intros conn [Hh Hall]. destruct (Hf eq_refl conn) as [Hc Hk].
    rewrite Hc. auto.
  - apply At_other; auto. intros ->.
    rewrite (proj2 (ChainId_eqb_spec c c) eq_refl) in E. discriminate.
Qed.

Lemma Dead_getProvider world k c :
  hoare (Dead c) (getProvider world k) (fun _ s => Dead c s).
Proof.
  destruct (ChainId_eqb k c) eqn:E.
  - apply ChainId_eqb_spec in E. subst k. intros s H.
    now rewrite (getProvider_dead world c s H).
  - assert (Hne : k <> c).
    { intros ->. rewrite (proj2 (ChainId_eqb_spec c c) eq_refl) in E. discriminate. }
    apply frame_getProvider.
    + apply Dead_ext.
    + intros f s _. now apply At_other.
    + intros i t l s. now apply At_other.
    + intros i s. now apply At_other.
    + intros i s. now apply At_other.
Qed.

Lemma Dead_getWebSocketProvider world k c :
  hoare (Dead c) (getWebSocketProvider world k) (fun _ s => Dead c s).
Proof.
  destruct (ChainId_eqb k c) eqn:E.
  - apply ChainId_eqb_spec in E. subst k. intros s H.
    now rewrite (getWebSocketProvider_dead world c s H).
  - assert (Hne : k <> c).
    { intros ->. rewrite (proj2 (ChainId_eqb_spec c c) eq_refl) in E. discriminate. }
    apply frame_getWebSocketProvider.
    + apply Dead_ext.
    + intros f s _. now apply At_other.
    + intros i t l s. now apply At_other.
    + intros i s. now apply At_other.
Qed.

Lemma Dead_Steps c s s' : Steps s s' -> Dead c s -> Dead c s'.
Proof.
  apply every_Steps.
  - apply Dead_ext.
  - intros world k. apply Dead_getProvider.
  - intros world k. apply Dead_getWebSocketProvider.
  - intros k bn bt s0. apply Dead_modifyConnection. auto.
  - intros k s0. apply Dead_modifyConnection. auto.
Qed.

(** ** Endpoints keep their identity *)

Lemma endpointAt_modifyConnection k f s c i :
  (forall connection, connections (f connection) = connections connection) ->
  endpointAt (fst (modifyConnection k f s)) c i = endpointAt s c i.
Proof.
  intros Hf. unfold endpointAt. rewrite get_modifyConnection.
  destruct (ChainId_eqb k c); auto.
  destruct (JsMap.get ChainId_eqb c (cm_connections s)); simpl; auto.
  now rewrite Hf.
Qed.

Lemma Kept_modifyRpc k j g c i r s :
  (forall x, url (g x) = url x /\ maxRetries (g x) = maxRetries x /\
             (isActive x = false -> isActive (g x) = false)) ->
  Kept c i r s -> Kept c i r (fst (modifyRpc k j g s)).
Proof.
  intros Hg (r' & Hr' & Hu & Hm & Ha). unfold Kept, endpointAt in *.
  unfold modifyRpc. rewrite get_modifyConnection.
  destruct (ChainId_eqb k c); [|eauto].
  destruct (JsMap.get ChainId_eqb c (cm_connections s)) as [conn|];
    [|discriminate]. simpl.
  destruct (Nat.eq_dec j i) as [->|Hne].
  - rewrite nth_error_list_modify, Hr'. simpl.
    destruct (Hg r') as (Hu' & Hm' & Ha').
    exists (g r'). repeat split; try congruence. auto.
  - rewrite nth_error_list_modify_other by auto. eauto.
Qed.

Lemma Kept_fields k f c i r s :
  (forall connection, connections (f connection) = connections connection) ->
  Kept c i r s -> Kept c i r (fst (modifyConnection k f s)).
Proof.
  intros Hf (r' & Hr' & H). exists r'.
  now rewrite endpointAt_modifyConnection.
Qed.

Lemma Kept_ext c i r s s' :
  cm_connections s' = cm_connections s -> Kept c i r s -> Kept c i r s'.
Proof. unfold Kept, endpointAt. intros ->. auto. Qed.

Lemma Kept_Steps c i r s s' : Steps s s' -> Kept c i r s -> Kept c i r s'.
Proof.
  apply every_Steps.
  - apply Kept_ext.
  - intros world k. apply frame_getProvider.
    + apply Kept_ext.
    + intros f s0. apply Kept_fields.
    + intros j t l s0. apply Kept_modifyRpc. intros x. simpl. auto.
    + intros j s0. apply Kept_modifyRpc. intros x. simpl. auto.
    + intros j s0. apply Kept_modifyRpc. intros x. simpl. auto.
  - intros world k. apply frame_getWebSocketProvider.
    + apply Kept_ext.
    + intros f s0. apply Kept_fields.
    + intros j t l s0. apply Kept_modifyRpc. intros x. simpl. auto.
    + intros j s0. apply Kept_modifyRpc. intros x. simpl. auto.
  - intros k bn bt s0. apply Kept_fields. auto.
  - intros k s0. apply Kept_fields. auto.
Qed.

(** X1. Whatever the manager does, and whatever the network answers, an
    endpoint keeps its URL and its retry budget, and an endpoint that is
    inactive is never made active again. *)
Theorem endpoints_are_never_reactivated s s' chainId i r :
  Steps s s' ->
  endpointAt s chainId i = Some r ->
  exists r', endpointAt s' chainId i = Some r' /\
    url r' = url r /\ maxRetries r' = maxRetries r /\
    (isActive r = false -> isActive r' = false).
Proof.
  intros HS Hr. apply (Kept_Steps chainId i r s s' HS).
  exists r. auto.
Qed.

(** X2. From start-up on, once a resolution for a network has failed,
    the failure is final: the network is marked unhealthy and all its
    endpoints are inactive, and whatever the manager does afterwards,
    every later resolution for that network fails with the same error and
    leaves the state, the log of requests included, as it found it. *)
Theorem failed_resolution_is_final env now world world' chainId s s1 s2 e :
  Steps (initializeConnections env now) s ->
  getProvider world chainId s = (s1, Js.Throw e) ->
  Steps s1 s2 ->
  e = allFailed chainId /\
  isChainHealthy chainId s2 = false /\
  (forall i r, endpointAt s2 chainId i = Some r -> isActive r = false) /\
  getProvider world' chainId s2 = (s2, Js.Throw e).
Proof.
  intros Hs Hfail Hs2.
  pose proof (SettledAt_Steps chainId _ _ Hs
                (initializeConnections_settled env now chainId)) as Hrest.
  assert (Hk : Known chainId s).
  { apply (Known_Steps chainId _ _ Hs). eexists.
    apply initializeConnections_get. }
  destruct Hk as [conn Hget].
  pose proof (getProvider_at_rest world chainId s conn Hget (Hrest _ Hget)) as Hr.
  cbv zeta in Hr. rewrite Hfail in Hr. simpl in Hr. destruct Hr as [-> Hex].
  assert (HD1 : Dead chainId s1).
  { eapply At_weaken; [|exact Hex]. intros c (_ & Hh & Hall). split; auto.
    eapply Forall_impl; [|exact Hall]. now intros r [H _]. }
  pose proof (Dead_Steps chainId _ _ Hs2 HD1) as HD2.
  split; [reflexivity|]. split; [|split].
  - destruct HD2 as (c & Hc & Hh & _). unfold isChainHealthy. now rewrite Hc.
  - intros i r Hr. destruct HD2 as (c & Hc & _ & Hall).
    unfold endpointAt in Hr. rewrite Hc in Hr.
    rewrite Forall_forall in Hall. apply Hall. eapply nth_error_In; eauto.
  - now apply getProvider_dead.
Qed.

(** X3. From start-up on, a resolution that returns a connection either
    found it cached and healthy and changed nothing, or has just
    established it: the connection is then cached and marked healthy, its
    endpoint is the one at the current index, active and with an error
    counter of zero, and every endpoint before that index is inactive. *)
Theorem resolution_takes_first_answering_endpoint env now world chainId s s' p :
  Steps (initializeConnections env now) s ->
  getProvider world chainId s = (s', Js.Ok p) ->
  exists connection,
    JsMap.get ChainId_eqb chainId (cm_connections s') = Some connection /\
    provider connection = Some p /\
    isHealthy connection = true /\
    (s' = s \/
     exists r,
       nth_error (connections connection) (currentConnectionIndex connection)
         = Some r /\
       url r = provider_url p /\ isActive r = true /\ errorCount r = 0%nat /\
       forall j r', (j < currentConnectionIndex connection)%nat ->
         nth_error (connections connection) j = Some r' -> isActive r' = false).
Proof.
  intros Hs Hok.
  pose proof (SettledAt_Steps chainId _ _ Hs
                (initializeConnections_settled env now chainId)) as Hrest.
  assert (Hk : Known chainId s).
  { apply (Known_Steps chainId _ _ Hs). eexists.
    apply initializeConnections_get. }
  destruct Hk as [conn Hget].
  pose proof (getProvider_at_rest world chainId s conn Hget (Hrest _ Hget)) as Hr.
  cbv zeta in Hr. rewrite Hok in Hr. simpl in Hr.
  destruct Hr as [(-> & Hp & Hh)|(conn' & Hget' & _ & _ & k & He)].
  - exists conn. auto.
  - destruct He as (Hp & Hh & Hk & (r & Hr & Hu & Ha & Hz) & Hbefore).
    exists conn'. repeat split; auto. right. rewrite Hk. exists r.
    repeat split; auto.
Qed.

(** ** WebSocket resolution *)

Lemma wsConnections_from_complete l : forall i j r,
  nth_error l j = Some r ->
  String.prefix "wss://" (url r) = true -> isActive r = true ->
  In (i + j)%nat (map fst (wsConnections_from i l)).
Proof.
  induction l as [|x l IH]; intros i [|j] r; simpl; try discriminate.
  - intros H Hp Ha. inversion H. subst x. rewrite Hp, Ha. simpl.
    left. lia.
  - intros H Hp Ha.
    assert (Hin : In (S i + j)%nat (map fst (wsConnections_from (S i) l)))
      by (eapply IH; eauto).
    replace (i + S j)%nat with (S i + j)%nat by lia.
    destruct (String.prefix "wss://" (url x) && isActive x); simpl;
      [right|]; exact Hin.
Qed.

Section WebSocket.
Variable world : RpcWorld.
Variable chainId : ChainId.

(** A test that fails has sent one request and changed nothing else. *)
Lemma connectWebSocket_fails i u s s' e :
  connectWebSocket world chainId i u s = (s', Js.Throw e) ->
  s' = mkChainManager (cm_connections s) (cm_io s ++ [mkCall u "eth_blockNumber"]).
Proof.
  unfold connectWebSocket, Eff.bind, Eff.get, networkCall.
  destruct (rpc_getBlockNumber world _ u) as [bn|e0].
  - simpl. unfold Eff.ret. discriminate.
  - intros H. now inversion H.
Qed.

Lemma tryWebSockets_fails l : forall io,
  hoare (WsLoop chainId io l) (tryWebSockets world chainId l)
    (fun res s => match res with
                  | Js.Ok _ => True
                  | Js.Throw e =>
                      e = allWebSocketsFailed chainId /\
                      WsLoop chainId (io ++ map (fun x => testCall (snd x)) l) [] s
                  end).
Proof.
  induction l as [|[i r] rest IH]; intros io; simpl.
  - apply hoare_throw. intros s H. rewrite app_nil_r. auto.
  - intros s [Hio Hat]. unfold Eff.try_catch.
    destruct (connectWebSocket world chainId i (url r) s) as [s1 [p|e]] eqn:E;
      [exact I|].
    apply connectWebSocket_fails in E.
    assert (H1 : WsLoop chainId (io ++ [testCall r]) rest
                   (fst (modifyRpc chainId i
                           (fun x => deactivate (incrementErrorCount x)) s1))).
    { split.
      - subst s1. unfold modifyRpc, modifyConnection, Eff.modify. simpl.
        destruct (JsMap.get _ _ _); simpl; now rewrite Hio.
      - eapply At_modifyRpc.
        + eapply At_ext; [|exact Hat]. subst s1. reflexivity.
        + intros c [Hc Hall]. split; [exact Hc|]. simpl.
          intros j r' Hj Hp Ha. apply nth_error_list_modify_inv in Hj.
          destruct Hj as [[-> (x & _ & ->)]|[Hne Hj]]; [discriminate Ha|].
          destruct (Hall _ _ Hj Hp Ha) as [H|H]; [simpl in H; congruence|exact H]. }
    unfold Eff.bind.
    change (modifyRpc chainId i (fun x => deactivate (incrementErrorCount x)) s1)
      with (fst (modifyRpc chainId i
                   (fun x => deactivate (incrementErrorCount x)) s1), @Js.Ok unit tt).
    cbv iota beta.
    pose proof (IH _ _ H1) as H2.
    destruct (snd (tryWebSockets world chainId rest _)); auto.
    now rewrite <- app_assoc in H2.
Qed.

Lemma wsConnections_from_none l :
  Forall (fun r => String.prefix "wss://" (url r) && isActive r = false) l ->
  forall i, wsConnections_from i l = [].
Proof.
  induction 1 as [|r l Hr _ IH]; intros i; simpl; auto.
  rewrite Hr. apply IH.
Qed.

Lemma no_active_websocket c :
  (forall j r, nth_error (connections c) j = Some r ->
     String.prefix "wss://" (url r) = true -> isActive r = true ->
     In j (@nil nat)) ->
  wsConnections_from 0 (connections c) = [].
Proof.
  intros H. apply wsConnections_from_none.
  apply Forall_forall. intros r Hin. apply In_nth_error in Hin.
  destruct Hin as [j Hj].
  destruct (String.prefix "wss://" (url r)) eqn:Hp; auto.
  destruct (isActive r) eqn:Ha; auto. destruct (H _ _ Hj Hp Ha).
Qed.

(** What a failed resolution leaves behind. *)
Lemma getWebSocketProvider_fails s s' e connection :
  JsMap.get ChainId_eqb chainId (cm_connections s) = Some connection ->
  getWebSocketProvider world chainId s = (s', Js.Throw e) ->
  WsLoop chainId
    (cm_io s ++ map (fun x => testCall (snd x))
                    (wsConnections_from 0 (connections connection))) [] s'.
Proof.
  intros Hget. unfold getWebSocketProvider, Eff.bind, Eff.get. rewrite Hget.
  assert (He : noCachedWebSocket connection ->
               establishWebSocket world chainId connection s = (s', Js.Throw e) ->
               WsLoop chainId
                 (cm_io s ++ map (fun x => testCall (snd x))
                    (wsConnections_from 0 (connections connection))) [] s').
  { intros Hc. unfold establishWebSocket.
    destruct (wsConnections_from 0 (connections connection)) as [|x l] eqn:El.
    - simpl. unfold Eff.throw. intros H. inversion H. subst. rewrite app_nil_r.
      split; [reflexivity|]. exists connection. split; [exact Hget|].
      split; [exact Hc|]. intros j r Hj Hp Ha.
      pose proof (wsConnections_from_complete _ 0 j r Hj Hp Ha) as Hin.
      now rewrite El in Hin.
    - change (Nat.eqb (List.length (x :: l)) 0) with false. cbv iota. intros H.
      assert (Hpre : WsLoop chainId (cm_io s) (x :: l) s).
      { split; [reflexivity|]. exists connection. split; [exact Hget|].
        split; [exact Hc|]. intros j r Hj Hp Ha. rewrite <- El.
        apply (wsConnections_from_complete _ 0 j r Hj Hp Ha). }
      pose proof (tryWebSockets_fails (x :: l) _ s Hpre) as Hpost.
      rewrite H in Hpost. simpl in Hpost. now destruct Hpost. }
  destruct (wsProvider connection) as [w|] eqn:Ew.
  - destruct (isHealthy connection) eqn:Eh; [discriminate|].
    apply He. now right.
  - apply He. now left.
Qed.

Lemma getWebSocketProvider_none s io :
  WsLoop chainId io [] s ->
  getWebSocketProvider world chainId s = (s, Js.Throw (noWebSocket chainId)).
Proof.
  intros [_ (c & Hget & Hc & Hall)].
  unfold getWebSocketProvider, Eff.bind, Eff.get. rewrite Hget.
  unfold establishWebSocket. rewrite (no_active_websocket c Hall). simpl.
  destruct Hc as [Hc|Hc]; rewrite Hc; [reflexivity|].
  now destruct (wsProvider c).
Qed.

(** What a successful test leaves behind. *)
Lemma tryWebSockets_succeeds op l :
  hoare (At chainId (fun c => provider c = op)) (tryWebSockets world chainId l)
    (fun res s => match res with
                  | Js.Ok w =>
                      At chainId (fun c => provider c = op /\
                                           wsProvider c = Some w /\
                                           isHealthy c = true) s
                  | Js.Throw _ => True
                  end).
Proof.
  induction l as [|[i r] rest IH]; simpl.
  - apply hoare_throw. auto.
  - eapply hoare_try_catch
      with (R := fun _ s => At chainId (fun c => provider c = op) s).
    + unfold connectWebSocket. apply hoare_get. intros s0.
      eapply hoare_bind
        with (R := fun _ s => At chainId (fun c => provider c = op) s).
      { eapply hoare_weaken.
        - apply hoare_networkCall
            with (P := At chainId (fun c => provider c = op)).
          intros s s'. apply At_ext.
        - now intros s [_ H].
        - intros [a|e] s H; exact H. }
      intros ?. apply hoare_get. intros s1.
      eapply hoare_bind
        with (R := fun _ s => At chainId (fun c => provider c = op) s).
      { intros s [_ H]. rewrite modifyRpc_result.
        eapply At_modifyRpc; [exact H|]. auto. }
      intros ?.
      eapply hoare_bind
        with (R := fun _ s =>
                     At chainId (fun c => provider c = op /\
                                          wsProvider c =
                                            Some (mkProvider (url r)
                                                    (List.length (cm_io s0))) /\
                                          isHealthy c = true) s).
      { intros s H. rewrite modifyConnection_result.
        eapply At_modifyConnection; [exact H|]. simpl. auto. }
      intros ?. apply hoare_ret. auto.
    + intros e. eapply hoare_bind
        with (R := fun _ s => At chainId (fun c => provider c = op) s).
      * intros s H. rewrite modifyRpc_result.
        eapply At_modifyRpc; [exact H|]. auto.
      * intros ?. apply IH.
Qed.

End WebSocket.


(** X5. A resolution for WebSocket that succeeds caches the provider it
    returns and marks the whole chain healthy, leaving the cached HTTP
    provider as it was: if there is one, the next [getProvider] returns
    it at once, without a test, whatever its state before. *)
Theorem websocket_success_marks_chain_healthy
    world world' chainId s s' w connection :
  JsMap.get ChainId_eqb chainId (cm_connections s) = Some connection ->
  getWebSocketProvider world chainId s = (s', Js.Ok w) ->
  (exists connection',
     JsMap.get ChainId_eqb chainId (cm_connections s') = Some connection' /\
     wsProvider connection' = Some w /\
     isHealthy connection' = true /\
     provider connection' = provider connection) /\
  (forall p, provider connection = Some p ->
     getProvider world' chainId s' = (s', Js.Ok p)).
Proof.
  intros Hget Hok.
  assert (Hat : At chainId (fun c => provider c = provider connection /\
                                     wsProvider c = Some w /\
                                     isHealthy c = true) s').
  { revert Hok. unfold getWebSocketProvider, Eff.bind, Eff.get. rewrite Hget.
    assert (He : establishWebSocket world chainId connection s = (s', Js.Ok w) ->
                 At chainId (fun c => provider c = provider connection /\
                                      wsProvider c = Some w /\
                                      isHealthy c = true) s').
    { unfold establishWebSocket. destruct (Nat.eqb _ 0); [discriminate|].
      intros H.
      pose proof (tryWebSockets_succeeds world chainId (provider connection)
                    (wsConnections_from 0 (connections connection)) s) as Hpost.
      rewrite H in Hpost. apply Hpost. exists connection. auto. }
    destruct (wsProvider connection) as [w0|] eqn:Ew; auto.
    destruct (isHealthy connection) eqn:Eh; auto.
    unfold Eff.ret. intros H. inversion H. subst. exists connection. auto. }
  destruct Hat as (c' & Hc' & Hp & Hw & Hh). split.
  - exists c'. auto.
  - intros p Hpp. apply getProvider_cached. exists c'.
    repeat split; auto. congruence.
Qed.

(** ** Health checks *)

Lemma modifyConnection_eta chainId f s :
  modifyConnection chainId f s = (fst (modifyConnection chainId f s), Js.Ok tt).
Proof. reflexivity. Qed.

Lemma updateBlockInfo_result world chainId s :
  snd (updateBlockInfo world chainId s) = Js.Ok tt.
Proof.
  unfold updateBlockInfo, Eff.bind, Eff.get.
  destruct (JsMap.get ChainId_eqb chainId (cm_connections s)); [|reflexivity].
  unfold Eff.try_catch.
  destruct (getProvider world chainId s) as [s1 [p|e]]; [|reflexivity].
  unfold networkCall at 1. simpl.
  destruct (rpc_getBlockNumber world _ _) as [bn|e]; [|reflexivity].
  unfold networkCall. simpl.
  destruct (rpc_getBlock world _ _) as [b|e]; reflexivity.
Qed.

Lemma healthCheckEach_result world chains : forall s,
  snd (healthCheckEach world chains s) = Js.Ok tt.
Proof.
  induction chains as [|c rest IH]; intros s; simpl; [reflexivity|].
  unfold Eff.bind, Eff.try_catch.
  pose proof (updateBlockInfo_result world c s) as H.
  destruct (updateBlockInfo world c s) as [s1 [[]|e]]; [apply IH|discriminate H].
Qed.

(** X6. [updateBlockInfo] and [performHealthCheck] never reject, whatever
    the network does. A chain that [updateBlockInfo] leaves healthy has a
    cached provider through which the block number has just been read,
    and [lastBlockNumber] is what was read; in every other case the chain
    is left marked unhealthy. *)
Theorem health_check_never_rejects world chainId s :
  snd (updateBlockInfo world chainId s) = Js.Ok tt /\
  snd (performHealthCheck world s) = Js.Ok tt /\
  let s' := fst (updateBlockInfo world chainId s) in
  (isChainHealthy chainId s' = true ->
   exists connection p k,
     JsMap.get ChainId_eqb chainId (cm_connections s') = Some connection /\
     provider connection = Some p /\
     rpc_getBlockNumber world k (provider_url p)
       = Js.Ok (lastBlockNumber connection)).
Proof.
  split; [apply updateBlockInfo_result|]. split.
  { unfold performHealthCheck, Eff.bind, Eff.get. apply healthCheckEach_result. }
  cbv zeta. unfold updateBlockInfo, Eff.bind, Eff.get.
  destruct (JsMap.get ChainId_eqb chainId (cm_connections s)) as [c|] eqn:Eg.
  2:{ simpl. unfold isChainHealthy. rewrite Eg. discriminate. }
  unfold Eff.try_catch.
  assert (Hbad : forall s1, Known chainId s1 ->
            isChainHealthy chainId (fst (modifyConnection chainId markUnhealthy s1))
            = true -> False).
  { intros s1 [c1 Hc1]. unfold isChainHealthy.
    rewrite get_modifyConnection, (proj2 (ChainId_eqb_spec _ _) eq_refl), Hc1.
    simpl. discriminate. }
  assert (Hk : Known chainId s) by (exists c; exact Eg).
  pose proof (hoare_getProvider_Cached world chainId s I) as Hc.
  pose proof (frame_getProvider world chainId (Known chainId)
                (fun s0 s1 => Known_ext chainId s0 s1)
                (fun f s0 _ => modifyConnection_Known chainId chainId f s0)
                (fun i t l s0 => modifyConnection_Known chainId chainId _ s0)
                (fun i s0 => modifyConnection_Known chainId chainId _ s0)
                (fun i s0 => modifyConnection_Known chainId chainId _ s0)
                s Hk) as Hk1.
  destruct (getProvider world chainId s) as [s1 [p|e]]; simpl in Hc, Hk1.
  2:{ intros H. exfalso. eapply Hbad; eauto. }
  unfold networkCall at 1. simpl.
  destruct (rpc_getBlockNumber world (List.length (cm_io s1)) (provider_url p))
    as [bn|e] eqn:Ebn.
  2:{ intros H. exfalso. eapply Hbad; [|exact H].
      eapply Known_ext; [|exact Hk1]. reflexivity. }
  unfold networkCall. simpl.
  destruct (rpc_getBlock world _ _) as [b|e].
  2:{ intros H. exfalso. eapply Hbad; [|exact H].
      eapply Known_ext; [|exact Hk1]. reflexivity. }
  intros _. destruct Hc as (c1 & Hc1 & Hp1 & Hh1).
  eexists. exists p, (List.length (cm_io s1)).
  rewrite modifyConnection_eta. cbv iota beta. cbn [fst].
  rewrite get_modifyConnection, (proj2 (ChainId_eqb_spec _ _) eq_refl).
  simpl. rewrite Hc1. simpl. split; [reflexivity|]. simpl. auto.
Qed.

End ManagerProps.

(* ===================================================================== *)
(** * Start-up *)
(* ===================================================================== *)

Module StartupProps.
Import ChainManager ConnectionSpec ManagerSpec EffFacts ConnectionProps
  ManagerProps.

(** A resolution for one chain leaves the connection cached for another
    chain as it was. *)
Lemma Cached_other world k c p s :
  k <> c -> Cached c p s -> Cached c p (fst (getProvider world k s)).
Proof.
  intros Hne. apply (frame_getProvider world k (Cached c p)).
  - intros s0 s1 E H. unfold Cached in *. now rewrite E.
  - intros f s0 _ H. now apply (At_other k c _ f s0 Hne).
  - intros i t l s0 H. now apply (At_other k c _ _ s0 Hne).
  - intros i s0 H. now apply (At_other k c _ _ s0 Hne).
  - intros i s0 H. now apply (At_other k c _ _ s0 Hne).
Qed.

Lemma testChainConnections_each_healthy world chains :
  NoDup chains ->
  forall s s',
    MevBot.testChainConnections_each world chains s = (s', Js.Ok tt) ->
    forall c,
      In c chains \/ (~ In c chains /\ exists p, Cached c p s) ->
      exists p, Cached c p s'.
Proof.
  induction 1 as [|k rest Hk Hnd IH]; intros s s'; simpl.
  - unfold Eff.ret. intros H c [[]|[_ Hc]]. now inversion H; subst.
  - intros H c Hc.
    apply bind_inv in H. destruct H as [(s1 & p1 & Hget & H)|(e & _ & H)];
      [|discriminate H].
    apply bind_inv in H. destruct H as [(s2 & bn & Hcall & H)|(e & _ & H)];
      [|discriminate H].
    assert (Hs2 : cm_connections s2 = cm_connections s1).
    { unfold networkCall in Hcall. inversion Hcall. reflexivity. }
    assert (Hext : forall c0 p0, Cached c0 p0 s1 -> Cached c0 p0 s2).
    { intros c0 p0 Hc0. unfold Cached in *. now rewrite Hs2. }
    apply (IH _ _ H c).
    destruct (ChainId_eqb k c) eqn:E.
    + apply ChainId_eqb_spec in E. subst c. right. split; [exact Hk|].
      exists p1. apply Hext.
      pose proof (hoare_getProvider_Cached world k s I) as Hp.
      now rewrite Hget in Hp.
    + assert (Hne : k <> c).
      { intros ->. rewrite (proj2 (ChainId_eqb_spec c c) eq_refl) in E.
        discriminate. }
      destruct Hc as [[Hc|Hc]|[Hn [p Hc]]]; [contradiction|now left|].
      right. split; [intros Hin; apply Hn; now right|].
      exists p. apply Hext.
      pose proof (Cached_other world k c p s Hne Hc) as Hp.
      now rewrite Hget in Hp.
Qed.

(** X7. When the connection test of the start-up completes without an
    error, every one of the four chains has a cached provider and is
    marked healthy: the bot does not start with a chain it could not
    resolve. *)
Theorem startup_test_leaves_every_chain_healthy world s s' :
  MevBot.testChainConnections world s = (s', Js.Ok tt) ->
  forall chainId,
    isChainHealthy chainId s' = true /\
    exists connection p,
      JsMap.get ChainId_eqb chainId (cm_connections s') = Some connection /\
      provider connection = Some p.
Proof.
  intros H chainId.
  assert (Hnd : NoDup [ETHEREUM; ARBITRUM; POLYGON; BASE]).
  { repeat constructor; simpl; intuition discriminate. }
  destruct (testChainConnections_each_healthy world _ Hnd s s' H chainId)
    as (p & c & Hc & Hp & Hh).
  { left. destruct chainId; simpl; auto. }
  split.
  - unfold isChainHealthy. now rewrite Hc.
  - eauto.
Qed.

End StartupProps.

Module ManagerExamples.
Import ChainManager ConnectionSpec ManagerSpec ManagerProps StartupProps Scenario.

Lemma endpoints_are_never_reactivated_witness :
  exists r',
    endpointAt (fst (performHealthCheck calmNetwork afterOutage)) ETHEREUM 0
      = Some r' /\
    isActive r' = false.
Proof.
  assert (E : exists r, endpointAt afterOutage ETHEREUM 0 = Some r /\
                        isActive r = false).
  { vm_compute. eexists. split; reflexivity. }
  destruct E as (r & Hr & Hoff).
  destruct (endpoints_are_never_reactivated afterOutage
              (fst (performHealthCheck calmNetwork afterOutage)) ETHEREUM 0 r
              (steps_more (steps_none afterOutage)
                 (step_performHealthCheck calmNetwork afterOutage))
              Hr)
    as (r' & Hr' & _ & _ & Hkeep).
  exists r'. split; [exact Hr'|exact (Hkeep Hoff)].
Defined.

Lemma failed_resolution_is_final_witness :
  let later := fst (performHealthCheck calmNetwork afterOutage) in
  getProvider calmNetwork ETHEREUM later
  = (later, Js.Throw (allFailed ETHEREUM)).
Proof.
  intros later.
  assert (E : exists e,
    getProvider deadNetwork ETHEREUM (initializeConnections noEnv 0)
    = (afterOutage, Js.Throw e)).
  { vm_compute. eexists. reflexivity. }
  destruct E as (e & He).
  destruct (failed_resolution_is_final noEnv 0 deadNetwork calmNetwork ETHEREUM
              (initializeConnections noEnv 0) afterOutage later e
              (steps_none _) He
              (steps_more (steps_none afterOutage)
                 (step_performHealthCheck calmNetwork afterOutage)))
    as (Heq & _ & _ & Hagain).
  rewrite <- Heq. exact Hagain.
Defined.

Lemma resolution_takes_first_answering_endpoint_witness :
  exists connection p,
    JsMap.get ChainId_eqb ETHEREUM
      (cm_connections
         (fst (getProvider twoDown ETHEREUM (initializeConnections noEnv 0))))
    = Some connection /\
    provider connection = Some p /\ isHealthy connection = true.
Proof.
  assert (E : exists s' p,
    getProvider twoDown ETHEREUM (initializeConnections noEnv 0) = (s', Js.Ok p)).
  { vm_compute. do 2 eexists. reflexivity. }
  destruct E as (s' & p & He).
  destruct (resolution_takes_first_answering_endpoint noEnv 0 twoDown ETHEREUM
              (initializeConnections noEnv 0) s' p (steps_none _) He)
    as (connection & Hc & Hp & Hh & _).
  exists connection, p. rewrite He. auto.
Defined.


Lemma websocket_success_marks_chain_healthy_witness :
  let stale := fst (updateBlockInfo deadNetwork ETHEREUM connected) in
  isChainHealthy ETHEREUM stale = false /\
  exists p,
    getProvider deadNetwork ETHEREUM
      (fst (getWebSocketProvider calmNetwork ETHEREUM stale))
    = (fst (getWebSocketProvider calmNetwork ETHEREUM stale), Js.Ok p).
Proof.
  intros stale. split; [vm_compute; reflexivity|].
  assert (E : exists connection p s' w,
    JsMap.get ChainId_eqb ETHEREUM (cm_connections stale) = Some connection /\
    provider connection = Some p /\
    getWebSocketProvider calmNetwork ETHEREUM stale = (s', Js.Ok w)).
  { vm_compute. do 4 eexists. repeat split. }
  destruct E as (connection & p & s' & w & Hc & Hp & Hw).
  exists p. rewrite Hw.
  exact (proj2 (websocket_success_marks_chain_healthy calmNetwork deadNetwork
                  ETHEREUM stale s' w connection Hc Hw) p Hp).
Defined.

Lemma startup_test_leaves_every_chain_healthy_witness :
  isChainHealthy BASE
    (fst (MevBot.testChainConnections calmNetwork
            (initializeConnections noEnv 0))) = true.
Proof.
  assert (E : exists s',
    MevBot.testChainConnections calmNetwork (initializeConnections noEnv 0)
    = (s', Js.Ok tt)).
  { vm_compute. eexists. reflexivity. }
  destruct E as (s' & He). rewrite He.
  exact (proj1 (startup_test_leaves_every_chain_healthy calmNetwork _ s' He BASE)).
Defined.

End ManagerExamples.

(* ===================================================================== *)
(** * The poller, fetch by fetch *)
(* ===================================================================== *)

Module CacheProps.
Import DexMonitor PollerSpec CacheSpec EffFacts PollerProps.

Section WithWorld.
Variable world : RpcWorld.
Variable venue : VenueWorld.
Variable this : AddressLookup.
Variable writeFile : DatabaseData -> Js.Result unit.

Ltac step H :=
  match type of H with
  | Eff.bind _ _ _ = _ =>
      let s1 := fresh "b" in let a := fresh "a" in let e := fresh "e" in
      let H1 := fresh "Hstep" in
      apply bind_inv in H;
      destruct H as [(s1 & a & H1 & H)|(e & H1 & H)]
  end.

(** The fields of a quote that come from the configuration. *)
Lemma fetchUniswapV2Price_fields dexConfig tokenPair p blockNumber gasPrice b b' q :
  fetchUniswapV2Price world venue this dexConfig tokenPair p blockNumber gasPrice b
    = (b', Js.Ok q) ->
  pd_chainId q = dex_chainId dexConfig /\ pd_dexName q = dex_name dexConfig /\
  pd_baseToken q = baseToken tokenPair /\ pd_quoteToken q = quoteToken tokenPair.
Proof.
  unfold fetchUniswapV2Price.
  destruct (getPairAddress this dexConfig tokenPair p) as [addr|]; [|discriminate].
  destruct (String.eqb addr ""); [discriminate|].
  intros H.
  step H; [|discriminate H]. step H; [|discriminate H]. step H; [|discriminate H].
  unfold Eff.bind, Eff.get, Eff.ret in H. inversion H. clear H. simpl. auto.
Qed.

Lemma fetchUniswapV3Price_fields dexConfig tokenPair p blockNumber gasPrice b b' q :
  fetchUniswapV3Price world venue this dexConfig tokenPair p blockNumber gasPrice b
    = (b', Js.Ok q) ->
  pd_chainId q = dex_chainId dexConfig /\ pd_dexName q = dex_name dexConfig /\
  pd_baseToken q = baseToken tokenPair /\ pd_quoteToken q = quoteToken tokenPair.
Proof.
  unfold fetchUniswapV3Price.
  destruct (getPoolAddress this dexConfig tokenPair p) as [addr|]; [|discriminate].
  destruct (String.eqb addr ""); [discriminate|].
  intros H.
  step H; [|discriminate H]. step H; [|discriminate H].
  unfold Eff.bind, Eff.get, Eff.ret in H. inversion H. clear H. simpl. auto.
Qed.

Lemma cacheAndStore_database key now q b b' r :
  cacheAndStore writeFile key now q b = (b', r) ->
  databaseService b' =
    mkDatabase (DatabaseService.push_capped (10 * 1000)
                  (prices (databaseService b)) q)
               (opportunities (databaseService b))
               (performanceMetrics (databaseService b)) /\
  r = writeFile (databaseService b').
Proof.
  unfold cacheAndStore, onDexMonitor, onDatabase, DatabaseService.storePriceData,
    DatabaseService.saveData, Eff.bind, Eff.modify. simpl.
  intros H. inversion H. simpl. auto.
Qed.

(** The [try] block either leaves the cache and the database alone, or
    it has cached and stored one quote of a fetcher, which only happens
    for a DEX the [switch] knows. *)
Lemma tryBlock_cases dexConfig tokenPair key now b b' r :
  tryBlock world venue this writeFile dexConfig tokenPair key now b = (b', r) ->
  (dexMonitor b' = dexMonitor b /\ databaseService b' = databaseService b /\
   (supported (dex_name dexConfig) = true -> exists e, r = Js.Throw e))
  \/
  (supported (dex_name dexConfig) = true /\
   exists q p blockNumber gasPrice b0 b1,
     (fetchUniswapV2Price world venue this dexConfig tokenPair p
        blockNumber gasPrice b0 = (b1, Js.Ok q) \/
      fetchUniswapV3Price world venue this dexConfig tokenPair p
        blockNumber gasPrice b0 = (b1, Js.Ok q)) /\
     dexMonitor b' =
       mkDexMonitor (JsMap.set String.eqb key q (priceCache (dexMonitor b)))
                    (JsMap.set String.eqb key now (lastUpdateTime (dexMonitor b))) /\
     databaseService b' =
       mkDatabase (DatabaseService.push_capped (10 * 1000)
                     (prices (databaseService b)) q)
                  (opportunities (databaseService b))
                  (performanceMetrics (databaseService b)) /\
     r = writeFile (databaseService b')).
Proof.
  unfold tryBlock. intros H.
  step H;
    [|apply onChainManager_frame in Hstep; destruct Hstep as [-> ->];
      left; subst r; eauto].
  apply onChainManager_frame in Hstep. destruct Hstep as [Hd1 Hb1].
  step H;
    [|apply onChainManager_frame in Hstep; destruct Hstep as [-> ->];
      rewrite Hd1, Hb1; left; subst r; eauto].
  apply onChainManager_frame in Hstep. destruct Hstep as [Hd2 Hb2].
  step H;
    [|apply onChainManager_frame in Hstep; destruct Hstep as [-> ->];
      rewrite Hd2, Hb2, Hd1, Hb1; left; subst r; eauto].
  apply onChainManager_frame in Hstep. destruct Hstep as [Hd3 Hb3].
  assert (Hd : dexMonitor b2 = dexMonitor b) by congruence.
  assert (Hb : databaseService b2 = databaseService b) by congruence.
  clear Hd1 Hd2 Hd3 Hb1 Hb2 Hb3.
  destruct (dex_name dexConfig);
    try (unfold Eff.ret in H; inversion H; subst; rewrite Hd, Hb;
         left; repeat split; discriminate);
    (step H;
     [ pose proof Hstep as Hfetch;
       first [apply fetchUniswapV2Price_frame in Hstep
             |apply fetchUniswapV3Price_frame in Hstep];
       destruct Hstep as (Hd' & Hb' & _);
       pose proof H as Hdb;
       apply cacheAndStore_effect in H; destruct H as (Hc & _ & _);
       apply cacheAndStore_database in Hdb; destruct Hdb as (Hdb & Hr);
       right; split; [reflexivity|];
       do 6 eexists; split; [eauto|];
       split; [rewrite Hc, Hd', Hd; reflexivity|];
       split; [rewrite Hdb, Hb', Hb; reflexivity|exact Hr]
     | first [apply fetchUniswapV2Price_frame in Hstep
             |apply fetchUniswapV3Price_frame in Hstep];
       destruct Hstep as (-> & -> & _); rewrite Hd, Hb;
       left; subst r; eauto ]).
Qed.

(** The same for a whole fetch. *)
Lemma fetchPriceForDex_cases dexConfig tokenPair b :
  let key := cacheKey dexConfig tokenPair in
  let now := Date_now world b in
  let after := fetchPriceForDex world venue this writeFile dexConfig tokenPair b in
  (dexMonitor (fst after) = dexMonitor b /\
   databaseService (fst after) = databaseService b)
  \/
  (supported (dex_name dexConfig) = true /\
   exists q p blockNumber gasPrice b0 b1,
     (fetchUniswapV2Price world venue this dexConfig tokenPair p
        blockNumber gasPrice b0 = (b1, Js.Ok q) \/
      fetchUniswapV3Price world venue this dexConfig tokenPair p
        blockNumber gasPrice b0 = (b1, Js.Ok q)) /\
     dexMonitor (fst after) =
       mkDexMonitor (JsMap.set String.eqb key q (priceCache (dexMonitor b)))
                    (JsMap.set String.eqb key now (lastUpdateTime (dexMonitor b))) /\
     databaseService (fst after) =
       mkDatabase (DatabaseService.push_capped (10 * 1000)
                     (prices (databaseService b)) q)
                  (opportunities (databaseService b))
                  (performanceMetrics (databaseService b)) /\
     (snd after = Js.Ok tt <-> writeFile (databaseService (fst after)) = Js.Ok tt)).
Proof.
  intros key now after. subst after. rewrite fetchPriceForDex_unfold. cbv zeta.
  fold key. fold now.
  destruct (_ <? _)%Z; [left; auto|].
  unfold Eff.try_catch.
  destruct (tryBlock world venue this writeFile dexConfig tokenPair key now b)
    as [b' [[]|e]] eqn:E; apply tryBlock_cases in E.
  - destruct E as [(Hd & Hb & _)|(Hs & q & p & bn & gp & b0 & b1 & Hf & Hd & Hb & Hr)].
    + left. auto.
    + right. split; [exact Hs|]. exists q, p, bn, gp, b0, b1. simpl.
      repeat split; auto.
  - rewrite catchBlock_throws.
    destruct E as [(Hd & Hb & _)|(Hs & q & p & bn & gp & b0 & b1 & Hf & Hd & Hb & Hr)].
    + left. auto.
    + right. split; [exact Hs|]. exists q, p, bn, gp, b0, b1. simpl.
      repeat split; auto; try discriminate. intros Hw. rewrite Hw in Hr. discriminate.
Qed.

End WithWorld.

(** X8. A fetch for a DEX that the [switch] of [fetchPriceForDex] has no
    case for (Camelot, QuickSwap, Aerodrome, BaseSwap: four of the twelve
    active configurations) never prices anything: whatever the network
    answers, the cache, the times of last update and the database are
    left as they were. *)
Theorem unsupported_dex_is_never_priced
    world venue this writeFile dexConfig tokenPair b :
  supported (dex_name dexConfig) = false ->
  let after := fetchPriceForDex world venue this writeFile dexConfig tokenPair b in
  dexMonitor (fst after) = dexMonitor b /\
  databaseService (fst after) = databaseService b /\
  List.length (filter (fun d => negb (supported (dex_name d))) getActiveDexConfigs)
  = 4%nat.
Proof.
  intros Hs after.
  destruct (fetchPriceForDex_cases world venue this writeFile dexConfig tokenPair b)
    as [[Hd Hb]|[Hs' _]].
  - auto.
  - rewrite Hs in Hs'. discriminate Hs'.
Qed.

(** With the address lookups that the class ships, no fetcher returns a
    quote. *)
Lemma placeholders_fetch world venue writeFile dexConfig tokenPair b :
  let after :=
    fetchPriceForDex world venue placeholders writeFile dexConfig tokenPair b in
  dexMonitor (fst after) = dexMonitor b /\
  databaseService (fst after) = databaseService b.
Proof.
  destruct (fetchPriceForDex_cases world venue placeholders writeFile
              dexConfig tokenPair b)
    as [H|[_ (q & p & bn & gp & b0 & b1 & [Hf|Hf] & _)]]; auto; discriminate Hf.
Qed.

Lemma forEachFetch_result world venue this writeFile jobs : forall b,
  forEachFetch world venue this writeFile jobs b
  = (afterFetches world venue this writeFile jobs b, Js.Ok tt).
Proof.
  induction jobs as [|[dexConfig tokenPair] rest IH]; intros b; simpl.
  - reflexivity.
  - unfold Eff.bind, settled, Eff.try_catch, afterFetches. simpl.
    destruct (fetchPriceForDex world venue this writeFile dexConfig tokenPair b)
      as [b1 [[]|e]]; simpl; apply IH.
Qed.

Lemma placeholders_fetches world venue writeFile jobs : forall b,
  let after := afterFetches world venue placeholders writeFile jobs b in
  dexMonitor after = dexMonitor b /\ databaseService after = databaseService b.
Proof.
  induction jobs as [|[dexConfig tokenPair] rest IH]; intros b; simpl; auto.
  destruct (placeholders_fetch world venue writeFile dexConfig tokenPair b)
    as [Hd Hb].
  destruct (IH (fst (fetchPriceForDex world venue placeholders writeFile
                       dexConfig tokenPair b))) as [Hd' Hb'].
  unfold afterFetches in *. simpl. split; congruence.
Qed.

(** X9. With the address lookups as the class ships them
    ([getPairAddress] and [getPoolAddress] return null), a monitoring
    cycle that starts with an empty cache ends with an empty cache: no
    quote is ever cached or stored, the detector is not called, the
    database is left as it was, and the cycle completes without an
    error. *)
Theorem shipped_lookups_price_nothing
    world venue writeFile config feeData b :
  priceCache (dexMonitor b) = [] ->
  let after :=
    MevBot.monitoringCycle world venue placeholders writeFile config feeData b in
  snd after = Js.Ok tt /\
  getAllCachedPrices (dexMonitor (fst after)) = [] /\
  dexMonitor (fst after) = dexMonitor b /\
  databaseService (fst after) = databaseService b.
Proof.
  intros Hempty after. subst after.
  unfold MevBot.monitoringCycle, Eff.try_catch, Eff.bind, monitorPrices.
  rewrite forEachFetch_result. unfold Eff.get.
  destruct (placeholders_fetches world venue writeFile monitorJobs b) as [Hd Hb].
  remember (afterFetches world venue placeholders writeFile monitorJobs b) as b1.
  unfold getAllCachedPrices. rewrite Hd, Hempty. simpl. rewrite Hd, Hempty. auto.
Qed.

(** X10. The throttle. After a fetch that has cached a quote, a fetch of
    the same pair on the same DEX that starts less than
    [PRICE_UPDATE_INTERVAL] after the first one started does nothing:
    whatever the network would answer, no request is sent, no state is
    changed, and the fetch completes. *)
Theorem fetch_within_interval_does_nothing
    world venue this writeFile world2 venue2 this2 writeFile2
    dexConfig tokenPair b :
  let first := fetchPriceForDex world venue this writeFile dexConfig tokenPair b in
  dexMonitor (fst first) <> dexMonitor b ->
  Date_now world2 (fst first) - Date_now world b
    < SYSTEM_CONSTANTS.PRICE_UPDATE_INTERVAL ->
  fetchPriceForDex world2 venue2 this2 writeFile2 dexConfig tokenPair (fst first)
  = (fst first, Js.Ok tt).
Proof.
  intros first Hchanged Hsoon.
  destruct (fetchPriceForDex_cases world venue this writeFile dexConfig tokenPair b)
    as [[Hd _]|[_ (q & p & bn & gp & b0 & b1 & _ & Hd & _)]].
  - contradiction.
  - fold first in Hd. rewrite fetchPriceForDex_unfold. cbv zeta.
    rewrite Hd. simpl.
    rewrite (JsMapFacts.get_set_same _ _ String.eqb String.eqb_eq).
    apply Z.ltb_lt in Hsoon. now rewrite Hsoon.
Qed.



(** ** The shape of the cache *)

Lemma keys_set {V1 V2} k (v1 : V1) (v2 : V2) (m1 : JsMap.t string V1) :
  forall m2 : JsMap.t string V2,
  JsMap.keys m1 = JsMap.keys m2 ->
  JsMap.keys (JsMap.set String.eqb k v1 m1)
  = JsMap.keys (JsMap.set String.eqb k v2 m2).
Proof.
  induction m1 as [|[k1 x1] m1 IH]; intros [|[k2 x2] m2]; simpl;
    try discriminate; auto.
  intros H. inversion H. subst k2.
  destruct (String.eqb k k1); simpl; f_equal; auto.
Qed.

Lemma keys_set_in {V} k (v : V) (m : JsMap.t string V) k' :
  In k' (JsMap.keys (JsMap.set String.eqb k v m)) <->
  k' = k \/ In k' (JsMap.keys m).
Proof.
  induction m as [|[k0 v0] m IH]; simpl.
  - intuition.
  - destruct (String.eqb k k0) eqn:E; simpl.
    + apply String.eqb_eq in E. subst k0. intuition.
    + rewrite IH. intuition.
Qed.

Lemma keys_set_NoDup {V} k (v : V) (m : JsMap.t string V) :
  NoDup (JsMap.keys m) -> NoDup (JsMap.keys (JsMap.set String.eqb k v m)).
Proof.
  induction m as [|[k0 v0] m IH]; simpl.
  - intros _. constructor; [intros []|constructor].
  - intros H. inversion H as [|? ? Hn Hd]; subst.
    destruct (String.eqb k k0) eqn:E; simpl.
    + constructor; auto.
    + constructor; auto. rewrite keys_set_in. intros [->|Hin]; auto.
      rewrite String.eqb_refl in E. discriminate E.
Qed.

Lemma get_of_in {V} k (v : V) (m : JsMap.t string V) :
  NoDup (JsMap.keys m) -> In (k, v) m -> JsMap.get String.eqb k m = Some v.
Proof.
  induction m as [|[k0 v0] m IH]; simpl; [tauto|].
  intros H Hin. inversion H as [|? ? Hn Hd]; subst.
  destruct Hin as [Heq|Hin].
  - inversion Heq. subst. now rewrite String.eqb_refl.
  - destruct (String.eqb k k0) eqn:E; auto.
    apply String.eqb_eq in E. subst k0. exfalso. apply Hn.
    unfold JsMap.keys. apply in_map_iff. exists (k, v). auto.
Qed.

Lemma cacheKey_ownKey dexConfig tokenPair q :
  pd_chainId q = dex_chainId dexConfig -> pd_dexName q = dex_name dexConfig ->
  pd_baseToken q = baseToken tokenPair -> pd_quoteToken q = quoteToken tokenPair ->
  cacheKey dexConfig tokenPair = ownKey q.
Proof.
  intros H1 H2 H3 H4. unfold cacheKey, ownKey. now rewrite H1, H2, H3, H4.
Qed.

Lemma Reachable_Keyed b : Reachable b -> Keyed (dexMonitor b).
Proof.
  induction 1 as [cm db|world venue this writeFile dexConfig tokenPair b HR IH Hd Ht
                  |b HR IH|b cm db HR IH]; simpl.
  - split; [intros k q []|split; [constructor|reflexivity]].
  - destruct (fetchPriceForDex_cases world venue this writeFile dexConfig tokenPair b)
      as [[Hsame _]|[_ (q & p & bn & gp & b0 & b1 & Hf & Hnew & _)]].
    + now rewrite Hsame.
    + rewrite Hnew. destruct IH as (Hk & Hn & Ht').
      split; [|split]; cbn [priceCache lastUpdateTime].
      * intros k q' H.
        apply (JsMapFacts.in_set _ _ String.eqb String.eqb_eq) in H.
        destruct H as [[-> ->]|H]; [|now apply Hk]. split.
        -- destruct Hf as [Hf|Hf];
             [apply fetchUniswapV2Price_fields in Hf
             |apply fetchUniswapV3Price_fields in Hf];
             destruct Hf as (H1 & H2 & H3 & H4); now apply cacheKey_ownKey.
        -- exists dexConfig, tokenPair. split; [|reflexivity].
           unfold monitorJobs. apply in_flat_map. exists dexConfig.
           split; [exact Hd|].
           now apply (in_map (fun t => (dexConfig, t))).
      * now apply keys_set_NoDup.
      * now apply keys_set.
  - split; [intros k q []|split; [constructor|reflexivity]].
  - exact IH.
Qed.

(** X13. In every state the poller can reach, each cached quote is found
    under the key built, with hyphens, from its own chain, DEX, base
    token and quote token: the key the poller writes under. *)
Theorem cached_quote_is_found_under_its_own_key b :
  Reachable b ->
  forall q, In q (getAllCachedPrices (dexMonitor b)) ->
    JsMap.get String.eqb (ownKey q) (priceCache (dexMonitor b)) = Some q.
Proof.
  intros HR q Hq. apply Reachable_Keyed in HR. destruct HR as (Hk & Hn & _).
  apply JsMapFacts.in_values in Hq. destruct Hq as [k Hin].
  destruct (Hk _ _ Hin) as [-> _]. now apply get_of_in.
Qed.

(** X14. In every state the poller can reach, the cache holds at most
    one quote for each active DEX configuration and monitored pair, so
    the number of cached quotes that [getMonitoringStats] reports is at
    most the number of active configurations times the number of pairs;
    and the times of last update are kept under the same keys, in the
    same order, as the quotes. *)
Theorem cache_is_bounded_by_configuration b :
  Reachable b ->
  forall activeDexes cachedPrices lastUpdateTimes,
    getMonitoringStats (dexMonitor b)
    = (activeDexes, cachedPrices, lastUpdateTimes) ->
    (cachedPrices <= activeDexes * List.length TOKEN_PAIRS)%nat /\
    NoDup (JsMap.keys (priceCache (dexMonitor b))) /\
    JsMap.keys lastUpdateTimes = JsMap.keys (priceCache (dexMonitor b)).
Proof.
  intros HR n m t Hstats. apply Reachable_Keyed in HR.
  destruct HR as (Hk & Hn & Ht). unfold getMonitoringStats in Hstats.
  inversion Hstats. subst. split; [|auto].
  change (12 * List.length TOKEN_PAIRS)%nat
    with (List.length (map (fun job => cacheKey (fst job) (snd job)) monitorJobs)).
  replace (List.length (priceCache (dexMonitor b)))
    with (List.length (JsMap.keys (priceCache (dexMonitor b))))
    by apply length_map.
  apply NoDup_incl_length; [exact Hn|].
  intros k Hin. unfold JsMap.keys in Hin. apply in_map_iff in Hin.
  destruct Hin as ([k' q] & <- & Hin). cbn [fst].
  destruct (Hk _ _ Hin) as (_ & dexConfig & tokenPair & Hjob & ->).
  exact (in_map (fun job => cacheKey (fst job) (snd job)) monitorJobs
           (dexConfig, tokenPair) Hjob).
Qed.

End CacheProps.

Module CacheExamples.
Import DexMonitor PollerSpec CacheSpec CacheProps Scenario.

Lemma unsupported_dex_is_never_priced_witness :
  let camelot := mkDexConfig CAMELOT ARBITRUM "v2" None true in
  dexMonitor (fst (fetchPriceForDex calmNetwork fundedPool lookupFound diskOk
                     camelot ethUsdc freshBot))
  = dexMonitor freshBot.
Proof.
  intros camelot.
  exact (proj1 (unsupported_dex_is_never_priced calmNetwork fundedPool
                  lookupFound diskOk camelot ethUsdc freshBot eq_refl)).
Defined.

Lemma shipped_lookups_price_nothing_witness :
  getAllCachedPrices
    (dexMonitor
       (fst (MevBot.monitoringCycle calmNetwork fundedPool placeholders diskOk
               config cheapGas freshBot)))
  = [].
Proof.
  exact (proj1 (proj2 (shipped_lookups_price_nothing calmNetwork fundedPool
                         diskOk config cheapGas freshBot eq_refl))).
Defined.

Lemma fetch_within_interval_does_nothing_witness :
  fetchPriceForDex calmNetwork drainedPool placeholders diskOk
    uniswapV2 ethUsdc warmBot
  = (warmBot, Js.Ok tt).
Proof.
  apply (fetch_within_interval_does_nothing calmNetwork fundedPool lookupFound
           diskOk calmNetwork drainedPool placeholders diskOk
           uniswapV2 ethUsdc freshBot).
  - vm_compute. discriminate.
  - vm_compute. reflexivity.
Defined.


Lemma cached_quote_is_found_under_its_own_key_witness :
  exists q,
    ownKey q = "1-uniswap_v2-ETH-USDC" /\
    JsMap.get String.eqb (ownKey q) (priceCache (dexMonitor warmBot)) = Some q.
Proof.
  assert (E : exists q, In q (getAllCachedPrices (dexMonitor warmBot)) /\
                        ownKey q = "1-uniswap_v2-ETH-USDC").
  { vm_compute. eexists. split; [left; reflexivity|reflexivity]. }
  destruct E as (q & Hin & Hk). exists q. split; [exact Hk|].
  exact (cached_quote_is_found_under_its_own_key warmBot
           PollerExamples.warmBot_reachable q Hin).
Defined.

Lemma cache_is_bounded_by_configuration_witness :
  (List.length (priceCache (dexMonitor warmBot)) <= 12 * 4)%nat.
Proof.
  exact (proj1 (cache_is_bounded_by_configuration warmBot
                  PollerExamples.warmBot_reachable _ _ _ eq_refl)).
Defined.

End CacheExamples.

(* ===================================================================== *)
(** * The detector: grouping, pairing and validation *)
(* ===================================================================== *)

Module FloatOrder.

Lemma SFcompare_Lt_antisym x y :
  SFcompare x y = Some Lt -> SFcompare y x <> Some Lt.
Proof.
  destruct x as [sx|sx| |sx mx ex], y as [sy|sy| |sy my ey]; simpl;
    try discriminate;
    try (destruct sx; discriminate);
    try (destruct sy; discriminate);
    try (destruct sx, sy; discriminate).
  destruct sx, sy; try discriminate.
  - rewrite (Z.compare_antisym ex ey).
    destruct (ex ?= ey)%Z eqn:E; simpl; try discriminate.
    rewrite !Pos.compare_cont_spec. simpl.
    rewrite (Pos.compare_antisym mx my).
    destruct (mx ?= my)%positive; simpl; discriminate.
  - rewrite (Z.compare_antisym ex ey).
    destruct (ex ?= ey)%Z eqn:E; simpl; try discriminate.
    rewrite !Pos.compare_cont_spec. simpl.
    rewrite (Pos.compare_antisym mx my).
    destruct (mx ?= my)%positive; simpl; discriminate.
Qed.

(** [a < b] and [b < a] do not both hold. *)
Lemma ltb_antisym (a b : float) :
  PrimFloat.ltb a b = true -> PrimFloat.ltb b a = false.
Proof.
  rewrite !ltb_spec. unfold SFltb. intros H.
  destruct (SFcompare (Prim2SF a) (Prim2SF b)) as [[| |]|] eqn:E;
    try discriminate H.
  apply SFcompare_Lt_antisym in E.
  destruct (SFcompare (Prim2SF b) (Prim2SF a)) as [[| |]|]; congruence.
Qed.

End FloatOrder.

Module DetectorMore.
Import PriceCalculator DetectorSpec DetectorProps.

Section Detector.
Variable config : TradingConfig.
Variable feeData : ChainId -> Js.Result (option Z).
Variable now : Z.
Variable writeFile : DatabaseData -> Js.Result unit.

(** The groups while the loop of [groupPricesByPair] runs. *)
Lemma groupPricesByPair_from_get priceData k : forall grouped,
  JsMap.get String.eqb k (groupPricesByPair_from priceData grouped)
  = match JsMap.get String.eqb k grouped,
          filter (fun p => String.eqb (pd_tokenPair p) k) priceData with
    | None, [] => None
    | None, l => Some l
    | Some bucket, l => Some (bucket ++ l)
    end.
Proof.
  induction priceData as [|p rest IH]; intros grouped; simpl.
  - destruct (JsMap.get String.eqb k grouped); [now rewrite app_nil_r|reflexivity].
  - rewrite IH. destruct (String.eqb (pd_tokenPair p) k) eqn:E.
    + apply String.eqb_eq in E. subst k.
      rewrite (JsMapFacts.get_set_same _ _ String.eqb String.eqb_eq).
      destruct (JsMap.get String.eqb (pd_tokenPair p) grouped) as [bucket|].
      * now rewrite <- app_assoc.
      * reflexivity.
    + rewrite (JsMapFacts.get_set_other _ _ String.eqb String.eqb_eq).
      * reflexivity.
      * intros Heq. rewrite Heq, String.eqb_refl in E. discriminate E.
Qed.

Lemma groupPricesByPair_from_NoDup priceData : forall grouped,
  NoDup (JsMap.keys grouped) ->
  NoDup (JsMap.keys (groupPricesByPair_from priceData grouped)).
Proof.
  induction priceData as [|p rest IH]; intros grouped H; simpl; auto.
  apply IH. now apply CacheProps.keys_set_NoDup.
Qed.

(** X15. [groupPricesByPair] partitions the quotes by pair name: the
    group of a name holds exactly the quotes of the input with that name,
    in the order of the input; a name without a quote has no group; and
    no name has two groups. *)
Theorem grouping_partitions_quotes_by_pair priceData k :
  JsMap.get String.eqb k (groupPricesByPair priceData)
  = match filter (fun p => String.eqb (pd_tokenPair p) k) priceData with
    | [] => None
    | l => Some l
    end
  /\ NoDup (JsMap.keys (groupPricesByPair priceData)).
Proof.
  split.
  - unfold groupPricesByPair. now rewrite groupPricesByPair_from_get.
  - apply groupPricesByPair_from_NoDup. constructor.
Qed.

Lemma group_members priceData k l q :
  In (k, l) (groupPricesByPair priceData) -> In q l ->
  In q priceData /\ pd_tokenPair q = k.
Proof.
  intros Hin Hq.
  assert (Hget : JsMap.get String.eqb k (groupPricesByPair priceData) = Some l).
  { apply CacheProps.get_of_in; auto.
    apply groupPricesByPair_from_NoDup. constructor. }
  unfold groupPricesByPair in Hget. rewrite groupPricesByPair_from_get in Hget.
  simpl in Hget.
  assert (Hl : l = filter (fun p => String.eqb (pd_tokenPair p) k) priceData).
  { destruct (filter _ priceData); [discriminate|]. now inversion Hget. }
  subst l. apply filter_In in Hq. destruct Hq as [Hq He].
  apply String.eqb_eq in He. auto.
Qed.

(** The two sides of a generated record. *)
Lemma calculateOpportunity_sides s t o :
  calculateOpportunity config feeData now s t = Some o ->
  exists buy sell,
    ((buy = s /\ sell = t) \/ (buy = t /\ sell = s)) /\
    sourceChain o = pd_chainId buy /\ sourceDex o = pd_dexName buy /\
    sourcePrice o = pd_price buy /\
    targetChain o = pd_chainId sell /\ targetDex o = pd_dexName sell /\
    targetPrice o = pd_price sell /\
    Js.lt (pd_price sell) (pd_price buy) = false /\
    op_tokenPair o = pd_tokenPair s /\
    Js.lt (priceDifferencePercent o) (minProfitThreshold config) = false.
Proof.
  unfold calculateOpportunity.
  destruct (Js.lt _ (minProfitThreshold config)) eqn:Ethr; [discriminate|].
  intros H. inversion H. clear H. simpl.
  destruct (Js.lt (pd_price s) (pd_price t)) eqn:E.
  - exists s, t. repeat split; auto.
    apply FloatOrder.ltb_antisym. exact E.
  - exists t, s. repeat split; auto.
Qed.

(** X16. Every record a detection pass returns is flagged profitable and
    is computed from two quotes of the input that carry the same pair
    name and differ in chain or in DEX: the detector never pairs quotes
    of different pairs, and never a venue with itself. *)
Theorem detector_pairs_one_pair_across_venues priceData db db' r o :
  calculateArbitrageOpportunities config feeData now writeFile priceData db
    = (db', Js.Ok r) ->
  In o r ->
  isProfitable o = true /\
  ChainId_eqb (sourceChain o) (targetChain o)
    && DexName_eqb (sourceDex o) (targetDex o) = false /\
  exists s t,
    In s priceData /\ In t priceData /\
    pd_tokenPair s = pd_tokenPair t /\
    sameVenue s t = false /\
    calculateOpportunity config feeData now s t = Some o.
Proof.
  intros H Ho. unfold calculateArbitrageOpportunities in H.
  destruct (forEachPair_ok config feeData now writeFile _ _ _ _ _ _ H Ho)
    as [[]|(k & l & Hin & Hr)].
  apply filter_In in Hr. destruct Hr as [Hr Hp].
  apply survivors_from in Hr. destruct Hr as (s & t & Hs & Ht & Hv & Hc).
  apply filter_In in Hs, Ht. destruct Hs as [Hs _], Ht as [Ht _].
  destruct (group_members _ _ _ _ Hin Hs) as [Hs1 Hs2].
  destruct (group_members _ _ _ _ Hin Ht) as [Ht1 Ht2].
  split; [exact Hp|]. split.
  - destruct (calculateOpportunity_sides _ _ _ Hc)
      as (buy & sell & Hside & H1 & H2 & _ & H3 & H4 & _).
    rewrite H1, H2, H3, H4. unfold sameVenue in Hv.
    destruct Hside as [[-> ->]|[-> ->]]; [exact Hv|].
    destruct (ChainId_eqb (pd_chainId t) (pd_chainId s)) eqn:E1;
      destruct (DexName_eqb (pd_dexName t) (pd_dexName s)) eqn:E2; auto.
    apply ChainId_eqb_spec in E1. apply DexName_eqb_spec in E2.
    rewrite E1, E2 in Hv.
    rewrite (proj2 (ChainId_eqb_spec _ _) eq_refl),
            (proj2 (DexName_eqb_spec _ _) eq_refl) in Hv.
    discriminate Hv.
  - exists s, t. repeat split; auto. congruence.
Qed.

(** X17. In every record that [calculateOpportunity] generates, the
    source fields (chain, DEX, price) all come from one of the two
    quotes and the target fields from the other, and the target price is
    not below the source price: the record buys on the cheaper venue. *)
Theorem record_buys_on_the_cheaper_venue s t o :
  calculateOpportunity config feeData now s t = Some o ->
  Js.lt (targetPrice o) (sourcePrice o) = false /\
  exists buy sell,
    ((buy = s /\ sell = t) \/ (buy = t /\ sell = s)) /\
    sourceChain o = pd_chainId buy /\ sourceDex o = pd_dexName buy /\
    sourcePrice o = pd_price buy /\
    targetChain o = pd_chainId sell /\ targetDex o = pd_dexName sell /\
    targetPrice o = pd_price sell.
Proof.
  intros H. destruct (calculateOpportunity_sides _ _ _ H)
    as (buy & sell & Hside & H1 & H2 & H3 & H4 & H5 & H6 & Hlt & _).
  split; [now rewrite H3, H6|].
  exists buy, sell. repeat split; auto.
Qed.

End Detector.

(** X18. A record validated under the fee data it was computed with is
    valid exactly when it was flagged profitable, as long as it is not
    older than [MAX_PRICE_AGE]; once it is older, it is invalid whatever
    its numbers. *)
Theorem validation_agrees_with_the_flag config feeData now now' s t o :
  calculateOpportunity config feeData now s t = Some o ->
  (now' - now <= SYSTEM_CONSTANTS.MAX_PRICE_AGE ->
   validateOpportunity config feeData now' o = isProfitable o) /\
  (SYSTEM_CONSTANTS.MAX_PRICE_AGE < now' - now ->
   validateOpportunity config feeData now' o = false).
Proof.
  unfold calculateOpportunity.
  destruct (Js.lt _ (minProfitThreshold config)); [discriminate|].
  intros H. inversion H. clear H. unfold validateOpportunity. simpl. split.
  - intros Hage. apply Z.ltb_ge in Hage. now rewrite Hage.
  - intros Hage. apply Z.ltb_lt in Hage. now rewrite Hage.
Qed.

End DetectorMore.

Module DetectorExamples.
Import PriceCalculator DetectorMore Scenario.

Lemma detector_pairs_one_pair_across_venues_witness :
  exists o s t,
    isProfitable o = true /\
    pd_tokenPair s = pd_tokenPair t /\
    sameVenue s t = false /\
    calculateOpportunity config cheapGas 0 s t = Some o.
Proof.
  assert (E : exists db' r o,
    calculateArbitrageOpportunities config cheapGas 0 diskOk [venueX; venueY]
      emptyDb = (db', Js.Ok r) /\ In o r).
  { vm_compute. do 3 eexists. split; [reflexivity|left; reflexivity]. }
  destruct E as (db' & r & o & Hrun & Hin).
  destruct (detector_pairs_one_pair_across_venues config cheapGas 0 diskOk
              [venueX; venueY] emptyDb db' r o Hrun Hin)
    as (Hp & _ & s & t & _ & _ & Hn & Hv & Hc).
  exists o, s, t. auto.
Defined.

Lemma record_buys_on_the_cheaper_venue_witness :
  exists o,
    calculateOpportunity config cheapGas 0 venueY venueX = Some o /\
    Js.lt (targetPrice o) (sourcePrice o) = false.
Proof.
  eexists. split; [reflexivity|].
  apply (record_buys_on_the_cheaper_venue config cheapGas 0 venueY venueX).
  reflexivity.
Defined.

Lemma validation_agrees_with_the_flag_witness :
  exists o,
    calculateOpportunity config cheapGas 0 venueX venueY = Some o /\
    validateOpportunity config cheapGas 60000 o = isProfitable o /\
    validateOpportunity config cheapGas 60001 o = false.
Proof.
  eexists. split; [reflexivity|].
  destruct (validation_agrees_with_the_flag config cheapGas 0 60000
              venueX venueY _ eq_refl) as [H1 _].
  destruct (validation_agrees_with_the_flag config cheapGas 0 60001
              venueX venueY _ eq_refl) as [_ H2].
  split; [apply H1|apply H2]; vm_compute; congruence.
Defined.

End DetectorExamples.

(* ===================================================================== *)
(** * The database and the environment *)
(* ===================================================================== *)

Module JsArrayFacts.
Import Sorted Permutation.

Section Sort.
Variable A : Type.
Variable before : A -> A -> bool.
Hypothesis before_total : forall a b, before a b = true \/ before b a = true.
Hypothesis before_trans : forall a b c,
  before a b = true -> before b c = true -> before a c = true.

Lemma insert_perm x l : Permutation (JsArray.insert before x l) (x :: l).
Proof.
  induction l as [|y r IH]; simpl; auto.
  destruct (before x y); auto.
  apply perm_trans with (y :: x :: r); [now constructor|apply perm_swap].
Qed.

Lemma sort_perm l : Permutation (JsArray.sort before l) l.
Proof.
  induction l as [|x l IH]; simpl; auto.
  apply perm_trans with (x :: JsArray.sort before l);
    [apply insert_perm|now constructor].
Qed.

Lemma insert_sorted x l :
  StronglySorted (fun a b => before a b = true) l ->
  StronglySorted (fun a b => before a b = true) (JsArray.insert before x l).
Proof.
  induction 1 as [|y r Hs IH Hall]; simpl.
  - repeat constructor.
  - destruct (before x y) eqn:E.
    + constructor; [now constructor|].
      constructor; auto. eapply Forall_impl; [|exact Hall].
      intros z. now apply before_trans.
    + constructor; auto.
      apply (@Permutation_Forall A _ (x :: r) (JsArray.insert before x r)
               (Permutation_sym (insert_perm x r))).
      constructor; auto.
      destruct (before_total x y) as [H|H]; [congruence|exact H].
Qed.

Lemma sort_sorted l :
  StronglySorted (fun a b => before a b = true) (JsArray.sort before l).
Proof.
  induction l as [|x l IH]; simpl; [constructor|now apply insert_sorted].
Qed.

End Sort.

Lemma slice_to_firstn {A} (limit : Z) (l : list A) :
  exists k, JsArray.slice_to limit l = firstn k l /\
            (0 <= limit -> k = Z.to_nat limit).
Proof.
  unfold JsArray.slice_to. destruct (limit <? 0)%Z eqn:E.
  - eexists. split; [reflexivity|]. apply Z.ltb_lt in E. lia.
  - eexists. split; [reflexivity|]. auto.
Qed.

Lemma In_firstn {A} (x : A) l : forall k, In x (firstn k l) -> In x l.
Proof.
  induction l as [|y l IH]; intros [|k]; simpl; try tauto.
  intros [H|H]; eauto.
Qed.

Lemma In_skipn {A} (x : A) l : forall k, In x (skipn k l) -> In x l.
Proof.
  induction l as [|y l IH]; intros [|k]; simpl; try tauto. eauto.
Qed.

Lemma StronglySorted_firstn {A} (R : A -> A -> Prop) l : forall k,
  StronglySorted R l -> StronglySorted R (firstn k l).
Proof.
  intros k H. revert k. induction H as [|x l Hs IH Hall]; intros [|k]; simpl;
    try constructor; auto.
  apply Forall_forall. intros y Hy. rewrite Forall_forall in Hall.
  apply Hall. eapply In_firstn. exact Hy.
Qed.

Lemma StronglySorted_split {A} (R : A -> A -> Prop) l : forall k x y,
  StronglySorted R l -> In x (firstn k l) -> In y (skipn k l) -> R x y.
Proof.
  intros k x y H. revert k. induction H as [|z l Hs IH Hall]; intros [|k]; simpl;
    try tauto.
  intros [->|Hx] Hy.
  - rewrite Forall_forall in Hall. apply Hall. eapply In_skipn. exact Hy.
  - eapply IH; eauto.
Qed.

End JsArrayFacts.

Module StorageProps.
Import Sorted Permutation StorageSpec DatabaseService JsArrayFacts.

Lemma push_capped_Appended {A} n (l : list A) x :
  (1 <= n)%nat -> Appended n l x (push_capped n l x).
Proof.
  intros Hn. unfold push_capped, Appended.
  destruct (Nat.ltb n (List.length (l ++ [x]))) eqn:E.
  - apply Nat.ltb_lt in E. rewrite length_app in *. simpl in *.
    set (k := (List.length l + 1 - n)%nat).
    assert (Hk : (k <= List.length l)%nat) by (unfold k; lia).
    rewrite skipn_app. replace (k - List.length l)%nat with 0%nat by lia.
    simpl. split; [|split].
    + rewrite length_app, length_skipn. simpl. unfold k. lia.
    + eauto.
    + exists (firstn k l). rewrite app_assoc, firstn_skipn. reflexivity.
  - apply Nat.ltb_ge in E. split; [exact E|]. split; [eauto|].
    exists []. reflexivity.
Qed.


(** The comparator of the queries orders by time, newest first. *)
Lemma newestFirst_total {A} (timestamp : A -> Z) a b :
  newestFirst timestamp a b = true \/ newestFirst timestamp b a = true.
Proof. unfold newestFirst. rewrite !Z.leb_le. lia. Qed.

Lemma newestFirst_trans {A} (timestamp : A -> Z) a b c :
  newestFirst timestamp a b = true -> newestFirst timestamp b c = true ->
  newestFirst timestamp a c = true.
Proof. unfold newestFirst. rewrite !Z.leb_le. lia. Qed.

Lemma newestFirst_sorted {A} (timestamp : A -> Z) l :
  StronglySorted (fun a b => timestamp b <= timestamp a)
    (JsArray.sort (newestFirst timestamp) l).
Proof.
  pose proof (sort_sorted A (newestFirst timestamp)
                (newestFirst_total timestamp) (newestFirst_trans timestamp) l) as H.
  induction H as [|x r Hs IH Hall]; constructor; auto.
  eapply Forall_impl; [|exact Hall]. intros y Hy. unfold newestFirst in Hy.
  apply Z.leb_le in Hy. lia.
Qed.

Lemma newest_slice {A} (timestamp : A -> Z) limit candidates :
  NewestOf timestamp limit candidates
    (JsArray.slice_to limit (JsArray.sort (newestFirst timestamp) candidates)).
Proof.
  set (sorted := JsArray.sort (newestFirst timestamp) candidates).
  assert (Hs : StronglySorted (fun a b => timestamp b <= timestamp a) sorted)
    by apply newestFirst_sorted.
  assert (Hp : Permutation sorted candidates) by apply sort_perm.
  destruct (slice_to_firstn limit sorted) as (k & -> & Hk).
  split; [now apply StronglySorted_firstn|]. split; [|split].
  - intros H0. rewrite (Hk H0), length_firstn. lia.
  - intros Hlen. destruct (Z_lt_le_dec limit 0) as [Hneg|H0]; [lia|].
    rewrite (Hk H0), firstn_all2; auto.
    rewrite (Permutation_length Hp). lia.
  - exists (skipn k sorted). split.
    + now rewrite firstn_skipn.
    + intros x y Hx Hy.
      exact (StronglySorted_split _ sorted k x y Hs Hx Hy).
Qed.



Lemma filter_filter_weaker {A} (f g : A -> bool) l :
  (forall x, g x = true -> f x = true) ->
  filter g (filter f l) = filter g l.
Proof.
  intros H. induction l as [|x l IH]; simpl; auto.
  destruct (f x) eqn:Ef; simpl.
  - now rewrite IH.
  - destruct (g x) eqn:Eg; auto. rewrite (H x Eg) in Ef. discriminate.
Qed.


(** ** Alerts *)

Lemma notifyFirst_none alertId now alerts :
  (forall a, In a alerts -> pa_id a <> alertId) ->
  notifyFirst alertId now alerts = None.
Proof.
  induction alerts as [|a rest IH]; simpl; auto.
  intros H. destruct (String.eqb (pa_id a) alertId) eqn:E.
  - apply String.eqb_eq in E. exfalso. apply (H a); auto.
  - rewrite IH; auto.
Qed.

Lemma notifyFirst_some alertId now alerts a :
  In a alerts -> pa_id a = alertId ->
  NoDup (map pa_id alerts) ->
  exists alerts' a',
    notifyFirst alertId now alerts = Some alerts' /\
    pa_isNotified a' = true /\ pa_notificationSentAt a' = Some now /\
    pa_id a' = alertId /\
    forall x, In x alerts' <-> x = a' \/ (In x alerts /\ pa_id x <> alertId).
Proof.
  intros Hin Hid Hnd. subst alertId.
  induction alerts as [|b rest IH]; [destruct Hin|].
  simpl in Hnd. inversion Hnd as [|? ? Hnot Hnd']; subst. simpl.
  destruct (String.eqb (pa_id b) (pa_id a)) eqn:E.
  - apply String.eqb_eq in E.
    set (m := mkPriceAlert (pa_id b) (pa_opportunityId b) (pa_tokenPair b)
                (pa_profitMargin b) (pa_netProfit b) (pa_sourceChain b)
                (pa_targetChain b) (pa_timestamp b) true (Some now)).
    exists (m :: rest), m. split; [reflexivity|].
    cbn [pa_isNotified pa_notificationSentAt pa_id m].
    split; [reflexivity|]. split; [reflexivity|]. split; [exact E|].
    intros x. simpl. split.
    + intros [Hx|Hx]; [left; now symmetry|]. right. split; [now right|].
      intros Hx'. apply Hnot. rewrite E, <- Hx'. now apply in_map.
    + intros [Hx|[[Hx|Hx] Hne]]; [left; now symmetry| |now right].
      subst x. contradiction.
  - destruct Hin as [Hin|Hin];
      [subst b; rewrite String.eqb_refl in E; discriminate|].
    destruct (IH Hin Hnd') as (alerts' & a' & Heq & H1 & H2 & H3 & H4).
    rewrite Heq. exists (b :: alerts'), a'. simpl.
    split; [reflexivity|]. split; [exact H1|]. split; [exact H2|].
    split; [exact H3|]. intros x. split.
    + intros [Hx|Hx].
      * subst x. right. split; [now left|]. intros Heq'.
        rewrite Heq', String.eqb_refl in E. discriminate.
      * apply H4 in Hx. destruct Hx as [Hx|[Hx Hne]]; [now left|].
        right. split; [now right|exact Hne].
    + intros [Hx|[[Hx|Hx] Hne]].
      * right. apply H4. now left.
      * now left.
      * right. apply H4. right. auto.
Qed.

Lemma getUnprocessedAlerts_In t a :
  In a (getUnprocessedAlerts t) <-> In a (priceAlerts t) /\ pa_isNotified a = false.
Proof.
  unfold getUnprocessedAlerts. split.
  - intros H. apply (Permutation_in _ (sort_perm _ _ _)) in H.
    apply filter_In in H. destruct H as [H1 H2].
    apply negb_true_iff in H2. auto.
  - intros [H1 H2]. apply (Permutation_in _ (Permutation_sym (sort_perm _ _ _))).
    apply filter_In. split; auto. now apply negb_true_iff.
Qed.


End StorageProps.

Module EnvironmentProps.
Import StorageSpec.

Lemma unset_false env v :
  unset env v = false <-> exists u, env v = Some u /\ u <> "".
Proof.
  unfold unset. destruct (env v) as [u|].
  - split.
    + intros H. exists u. split; auto. intros ->. discriminate H.
    + intros (u' & Hu & Hne). inversion Hu. subst u'.
      destruct (String.eqb u "") eqn:E; auto.
      apply String.eqb_eq in E. contradiction.
  - split; [discriminate|]. intros (u & Hu & _). discriminate Hu.
Qed.

Lemma validateEnvironment_ok env :
  validateEnvironment env = Js.Ok tt <->
  forall v, In v requiredVars -> unset env v = false.
Proof.
  unfold validateEnvironment.
  destruct (filter (unset env) requiredVars) as [|m rest] eqn:E.
  - simpl. split; auto. intros _ v Hv.
    destruct (unset env v) eqn:Eu; auto.
    assert (Hin : In v (filter (unset env) requiredVars))
      by (apply filter_In; auto).
    rewrite E in Hin. destruct Hin.
  - cbn [List.length Nat.ltb Nat.leb]. split; [discriminate|].
    intros H. assert (Hin : In m (filter (unset env) requiredVars))
      by (rewrite E; now left).
    apply filter_In in Hin. destruct Hin as [Hin Hu].
    rewrite (H m Hin) in Hu. discriminate Hu.
Qed.

(** X24. [validateEnvironment] passes exactly when each of the eight
    endpoint variables is set to a non-empty string; it rejects
    otherwise, naming the missing variables. When it passes, the first
    HTTP endpoint and the first WebSocket endpoint of every chain are the
    configured ones, and no built-in fallback URL is used in their
    place. *)
Theorem validated_environment_configures_every_chain env :
  (validateEnvironment env = Js.Ok tt <->
   forall v, In v requiredVars -> exists u, env v = Some u /\ u <> "") /\
  (validateEnvironment env <> Js.Ok tt ->
   validateEnvironment env
   = Js.Throw (Js.mkError Js.PlainError
       ("Missing required environment variables: "
        ++ String.concat ", " (filter (unset env) requiredVars))%string)) /\
  (validateEnvironment env = Js.Ok tt ->
   forall chainId, exists http ws,
     env (httpVariable chainId) = Some http /\
     env (wsVariable chainId) = Some ws /\
     nth_error (cfg_http (getChainConfig env chainId)) 0 = Some http /\
     nth_error (cfg_ws (getChainConfig env chainId)) 0 = Some ws).
Proof.
  split; [|split].
  - rewrite validateEnvironment_ok. split; intros H v Hv.
    + apply unset_false. auto.
    + apply unset_false. auto.
  - unfold validateEnvironment.
    destruct (Nat.ltb 0 _); [reflexivity|congruence].
  - intros H chainId. rewrite validateEnvironment_ok in H.
    assert (Hh : unset env (httpVariable chainId) = false)
      by (apply H; destruct chainId; simpl; auto 10).
    assert (Hw : unset env (wsVariable chainId) = false)
      by (apply H; destruct chainId; simpl; auto 10).
    apply unset_false in Hh, Hw.
    destruct Hh as (http & Hh & Hhne), Hw as (ws & Hw & Hwne).
    apply String.eqb_neq in Hhne, Hwne.
    exists http, ws. split; [exact Hh|]. split; [exact Hw|].
    destruct chainId; simpl in *; unfold envOr; rewrite Hh, Hw, Hhne, Hwne; auto.
Qed.

End EnvironmentProps.

Module StorageExamples.
Import StorageSpec StorageProps DatabaseService Scenario.


End StorageExamples.

(* ===================================================================== *)
(** * The detector when the database cannot be written *)
(* ===================================================================== *)

Module DetectorFailure.
Import PriceCalculator DetectorSpec DetectorProps.

Section Detector.
Variable config : TradingConfig.
Variable feeData : ChainId -> Js.Result (option Z).
Variable now : Z.
Variable writeFile : DatabaseData -> Js.Result unit.
Variable e : Js.Error.
Hypothesis refused : forall d, writeFile d = Js.Throw e.

Local Abbreviation compareWith :=
  (PriceCalculator.compareWith config feeData now writeFile).
Local Abbreviation compareAll :=
  (PriceCalculator.compareAll config feeData now writeFile).
Local Abbreviation candidate := (DetectorSpec.candidate config feeData now).
Local Abbreviation survivors := (DetectorSpec.survivors config feeData now).

(** What a pass makes of the profitable records [found] when no write
    goes through. *)
Local Abbreviation aborted db acc found :=
  (match found with
   | [] => (db, Js.Ok acc)
   | o :: _ => (stored db [o], Js.Throw e)
   end).

Lemma compareWith_refused s targets : forall acc db,
  compareWith s targets acc db
  = aborted db acc (filter isProfitable (flat_map (candidate s) targets)).
Proof.
  induction targets as [|t rest IH]; intros acc db; simpl.
  - reflexivity.
  - unfold DetectorSpec.candidate at 1.
    destruct (sameVenue s t); [apply IH|].
    destruct (PriceCalculator.calculateOpportunity config feeData now s t) as [o|];
      [|apply IH].
    simpl. destruct (isProfitable o) eqn:Ep; [|apply IH].
    unfold Eff.bind at 1.
    unfold DatabaseService.storeArbitrageOpportunity, DatabaseService.saveData,
      Eff.bind, Eff.modify. rewrite refused. reflexivity.
Qed.

Lemma compareAll_refused l : forall acc db,
  compareAll l acc db = aborted db acc (filter isProfitable (survivors l)).
Proof.
  induction l as [|s rest IH]; intros acc db; simpl.
  - reflexivity.
  - unfold Eff.bind. rewrite compareWith_refused, filter_app.
    destruct (filter isProfitable (flat_map (candidate s) rest)) as [|o found];
      simpl; [apply IH|reflexivity].
Qed.

Lemma calculatePairOpportunities_refused tokenPair prices db :
  PriceCalculator.calculatePairOpportunities config feeData now writeFile
    tokenPair prices db
  = aborted db [] (filter isProfitable (survivors (filter (isRecent now) prices))).
Proof.
  unfold PriceCalculator.calculatePairOpportunities.
  destruct (Nat.ltb _ 2) eqn:E.
  - apply Nat.ltb_lt in E. rewrite (survivors_short _ _ _ _ E). reflexivity.
  - apply compareAll_refused.
Qed.

Lemma forEachPair_refused groups : forall acc db db' r,
  forEachPair config feeData now writeFile groups acc db = (db', Js.Ok r) ->
  r = acc /\ db' = db.
Proof.
  induction groups as [|[k l] rest IH]; intros acc db db' r; simpl.
  - unfold Eff.ret. intros H. inversion H. auto.
  - unfold Eff.bind at 1. rewrite calculatePairOpportunities_refused.
    destruct (filter isProfitable _) as [|o found]; [|discriminate].
    intros H. apply IH in H. now rewrite app_nil_r in H.
Qed.

End Detector.

(** X25. When the database file cannot be written, a detection pass over
    the quotes of one pair stops at the first profitable record: that
    record is added to the table in memory, the pass rejects with the
    error of the write, and the pairs after it are not examined; a pass
    that finds no profitable record returns the empty list and leaves the
    database alone. So a whole detection that completes has returned
    nothing and changed nothing. *)
Theorem failed_store_aborts_detection
    config feeData now writeFile e tokenPair prices priceData db :
  (forall d, writeFile d = Js.Throw e) ->
  calculatePairOpportunities config feeData now writeFile tokenPair prices db
  = match filter isProfitable
            (survivors config feeData now (filter (isRecent now) prices)) with
    | [] => (db, Js.Ok [])
    | o :: _ => (stored db [o], Js.Throw e)
    end
  /\
  (forall db' r,
     calculateArbitrageOpportunities config feeData now writeFile priceData db
     = (db', Js.Ok r) ->
     r = [] /\ db' = db).
Proof.
  intros refused. split.
  - now apply calculatePairOpportunities_refused.
  - intros db' r H. unfold calculateArbitrageOpportunities in H.
    now apply (forEachPair_refused config feeData now writeFile e refused) in H.
Qed.

End DetectorFailure.

Module DetectorFailureExamples.
Import PriceCalculator DetectorSpec DetectorFailure Scenario.

Lemma failed_store_aborts_detection_witness :
  exists o,
    calculatePairOpportunities config cheapGas 0 diskFull "ETH/USDC"
      [venueX; venueY] emptyDb
    = (mkDatabase [] [o] [],
       Js.Throw (Js.mkError Js.PlainError "ENOSPC: no space left on device")).
Proof.
  assert (E : exists o,
    filter isProfitable
      (survivors config cheapGas 0 (filter (isRecent 0) [venueX; venueY]))
    = [o]).
  { vm_compute. eexists. reflexivity. }
  destruct E as (o & Ho). exists o.
  rewrite (proj1 (failed_store_aborts_detection config cheapGas 0 diskFull _
                    "ETH/USDC" [venueX; venueY] [] emptyDb (fun _ => eq_refl))).
  rewrite Ho. reflexivity.
Defined.

End DetectorFailureExamples.

(* ===================================================================== *)
(** * The cache: order of caching and storing, and the keys of the jobs *)
(* ===================================================================== *)

Module CacheMore.
Import DexMonitor PollerSpec CacheSpec EffFacts PollerProps CacheProps.

Lemma push_capped_last {A} n (l : list A) x :
  (0 < n)%nat -> exists kept, DatabaseService.push_capped n l x = kept ++ [x].
Proof.
  intros Hn. unfold DatabaseService.push_capped.
  destruct (Nat.ltb n _) eqn:E; [|eauto].
  apply Nat.ltb_lt in E. rewrite length_app in *. simpl in *.
  rewrite skipn_app.
  replace (List.length l + 1 - n - List.length l)%nat with 0%nat by lia.
  simpl. eauto.
Qed.


(** No two monitoring jobs share a cache key. *)
Lemma keys_distinct :
  NoDup (map (fun job => cacheKey (fst job) (snd job)) monitorJobs).
Proof.
  assert (E : nodup string_dec
                (map (fun job => cacheKey (fst job) (snd job)) monitorJobs)
              = map (fun job => cacheKey (fst job) (snd job)) monitorJobs)
    by (vm_compute; reflexivity).
  rewrite <- E. apply NoDup_nodup.
Qed.

Lemma NoDup_map_injective {A B} (f : A -> B) (l : list A) :
  NoDup (map f l) -> forall x y, In x l -> In y l -> f x = f y -> x = y.
Proof.
  induction l as [|a l IH]; simpl; [tauto|].
  intros H x y Hx Hy E. inversion H as [|? ? Hn Hd]; subst.
  destruct Hx as [->|Hx], Hy as [->|Hy]; auto.
  - exfalso. apply Hn. rewrite E. now apply in_map.
  - exfalso. apply Hn. rewrite <- E. now apply in_map.
Qed.

(** X27. The cache keys of the monitoring jobs (one per active DEX
    configuration and monitored pair) are pairwise distinct, so the
    fetch of one job never touches the entry of another: the quote and
    the time of last update cached for any other job are the same after
    the fetch as before, whatever the fetch does. *)
Theorem fetch_leaves_the_quotes_of_other_jobs
    world venue this writeFile dexConfig tokenPair dexConfig' tokenPair' b :
  In (dexConfig, tokenPair) monitorJobs ->
  In (dexConfig', tokenPair') monitorJobs ->
  (dexConfig, tokenPair) <> (dexConfig', tokenPair') ->
  let after := fetchPriceForDex world venue this writeFile dexConfig tokenPair b in
  let key' := cacheKey dexConfig' tokenPair' in
  cacheKey dexConfig tokenPair <> key' /\
  JsMap.get String.eqb key' (priceCache (dexMonitor (fst after)))
  = JsMap.get String.eqb key' (priceCache (dexMonitor b)) /\
  JsMap.get String.eqb key' (lastUpdateTime (dexMonitor (fst after)))
  = JsMap.get String.eqb key' (lastUpdateTime (dexMonitor b)).
Proof.
  intros Hjob Hjob' Hne after key'.
  assert (Hk : cacheKey dexConfig tokenPair <> key').
  { intros E. apply Hne.
    exact (NoDup_map_injective (fun job => cacheKey (fst job) (snd job))
             monitorJobs keys_distinct _ _ Hjob Hjob' E). }
  split; [exact Hk|].
  destruct (fetchPriceForDex_cases world venue this writeFile dexConfig tokenPair b)
    as [[Hd _]|[_ (q & p & bn & gp & b0 & b1 & _ & Hd & _)]];
    fold after in Hd; rewrite Hd; [auto|].
  cbn [priceCache lastUpdateTime].
  split; now apply (JsMapFacts.get_set_other _ _ String.eqb String.eqb_eq).
Qed.

End CacheMore.

Module CacheMoreExamples.
Import DexMonitor PollerSpec CacheSpec CacheMore Scenario.


Lemma fetch_leaves_the_quotes_of_other_jobs_witness :
  let sushi := mkDexConfig SUSHISWAP ETHEREUM "v2" None true in
  JsMap.get String.eqb "1-uniswap_v2-ETH-USDC"
    (priceCache (dexMonitor
       (fst (fetchPriceForDex calmNetwork drainedPool lookupFound diskOk
               sushi ethUsdc warmBot))))
  = JsMap.get String.eqb "1-uniswap_v2-ETH-USDC" (priceCache (dexMonitor warmBot)).
Proof.
  intros sushi.
  refine (proj1 (proj2 (fetch_leaves_the_quotes_of_other_jobs calmNetwork
            drainedPool lookupFound diskOk sushi ethUsdc uniswapV2 ethUsdc
            warmBot _ _ _))).
  - vm_compute. auto 20.
  - vm_compute. auto 20.
  - discriminate.
Defined.

End CacheMoreExamples.

(* ===================================================================== *)
(** * The requests of a resolution that fails *)
(* ===================================================================== *)

Module FailoverProps.
Import ChainManager ConnectionSpec ManagerSpec FailoverSpec EffFacts
  ConnectionProps ManagerProps.

Lemma list_modify_app {A} (g : A -> A) (pre : list A) x post :
  list_modify (List.length pre) g (pre ++ x :: post) = pre ++ g x :: post.
Proof.
  induction pre as [|a pre IH]; simpl; [reflexivity|]. now rewrite IH.
Qed.

Lemma nth_error_middle {A} (pre : list A) x post :
  nth_error (pre ++ x :: post) (List.length pre) = Some x.
Proof.
  induction pre as [|a pre IH]; simpl; auto.
Qed.

Section WithWorld.
Variable world : RpcWorld.
Variable chainId : ChainId.

(** The record of [chainId] with other endpoints. *)
Local Abbreviation withConnections c l :=
  (mkChainConnection (cc_chainId c) (provider c) (wsProvider c) l
     (currentConnectionIndex c) (isHealthy c) (lastBlockNumber c)
     (lastBlockTime c)).

Lemma connectOnce_fails i u s s' e :
  connectOnce world chainId i u s = (s', Js.Throw e) ->
  s' = mkChainManager (cm_connections s) (cm_io s ++ [mkCall u "eth_blockNumber"]).
Proof.
  unfold connectOnce, Eff.bind, Eff.get, networkCall.
  destruct (rpc_getBlockNumber world _ u) as [bn|e0].
  - simpl. unfold Eff.ret. discriminate.
  - intros H. now inversion H.
Qed.

Lemma get_modifyRpc_same i g s c :
  JsMap.get ChainId_eqb chainId (cm_connections s) = Some c ->
  JsMap.get ChainId_eqb chainId (cm_connections (fst (modifyRpc chainId i g s)))
  = Some (withConnections c (list_modify i g (connections c))).
Proof.
  intros H. unfold modifyRpc.
  now rewrite get_modifyConnection, (proj2 (ChainId_eqb_spec _ _) eq_refl), H.
Qed.

Lemma get_modifyConnection_other f s k :
  k <> chainId ->
  JsMap.get ChainId_eqb k (cm_connections (fst (modifyConnection chainId f s)))
  = JsMap.get ChainId_eqb k (cm_connections s).
Proof.
  intros Hk. rewrite get_modifyConnection.
  destruct (ChainId_eqb chainId k) eqn:E; auto.
  apply ChainId_eqb_spec in E. congruence.
Qed.

Lemma io_modifyConnection f s :
  cm_io (fst (modifyConnection chainId f s)) = cm_io s.
Proof.
  unfold modifyConnection, Eff.modify. simpl.
  now destruct (JsMap.get ChainId_eqb chainId (cm_connections s)).
Qed.

(** A [pRetry] that gives up has run the test once more than it has
    retries, and has counted one error for each run. *)
Lemma pRetry_exhausted i u n : forall s s' e c,
  JsMap.get ChainId_eqb chainId (cm_connections s) = Some c ->
  pRetry (connectOnce world chainId i u)
         (fun _ => modifyRpc chainId i incrementErrorCount) n s
  = (s', Js.Throw e) ->
  cm_io s' = cm_io s ++ repeat (mkCall u "eth_blockNumber") (S n) /\
  JsMap.get ChainId_eqb chainId (cm_connections s')
  = Some (withConnections c
            (Nat.iter (S n) (list_modify i incrementErrorCount) (connections c))) /\
  (forall k, k <> chainId ->
     JsMap.get ChainId_eqb k (cm_connections s')
     = JsMap.get ChainId_eqb k (cm_connections s)).
Proof.
  induction n as [|n IH]; intros s s' e c Hget; cbn [pRetry];
    unfold Eff.try_catch;
    destruct (connectOnce world chainId i u s) as [sa [p|e0]] eqn:Ec;
    try discriminate;
    apply connectOnce_fails in Ec;
    unfold Eff.bind at 1; unfold modifyRpc at 1; rewrite modifyConnection_eta;
    cbv iota beta;
    fold (modifyRpc chainId i incrementErrorCount);
    assert (Hsa : JsMap.get ChainId_eqb chainId (cm_connections sa) = Some c)
      by (subst sa; exact Hget);
    assert (Hio_a : cm_io sa = cm_io s ++ [mkCall u "eth_blockNumber"])
      by (subst sa; reflexivity);
    assert (Hoth_a : cm_connections sa = cm_connections s)
      by (subst sa; reflexivity);
    clear Ec;
    pose proof (get_modifyRpc_same i incrementErrorCount sa c Hsa) as Hsb;
    assert (Hio_b : cm_io (fst (modifyRpc chainId i incrementErrorCount sa))
                    = cm_io sa)
      by (unfold modifyRpc; apply io_modifyConnection);
    assert (Hoth_b : forall k, k <> chainId ->
              JsMap.get ChainId_eqb k
                (cm_connections (fst (modifyRpc chainId i incrementErrorCount sa)))
              = JsMap.get ChainId_eqb k (cm_connections sa))
      by (intros k Hk; unfold modifyRpc; now apply get_modifyConnection_other);
    remember (fst (modifyRpc chainId i incrementErrorCount sa)) as sb eqn:Esb;
    clear Esb.
  - unfold Eff.throw. intros H. inversion H. subst sb e0. clear H.
    split; [|split].
    + now rewrite Hio_b, Hio_a.
    + exact Hsb.
    + intros k Hk. now rewrite (Hoth_b k Hk), Hoth_a.
  - intros H. destruct (IH _ _ _ _ Hsb H) as (Hio & Hc & Hother).
    split; [|split].
    + rewrite Hio, Hio_b, Hio_a, <- app_assoc. reflexivity.
    + rewrite Hc. cbn [connections cc_chainId provider wsProvider
        currentConnectionIndex isHealthy lastBlockNumber lastBlockTime].
      rewrite <- (Nat.iter_succ_r (S n)). reflexivity.
    + intros k Hk. now rewrite (Hother k Hk), (Hoth_b k Hk), Hoth_a.
Qed.

Lemma givenUp_tried r :
  skipped r = false ->
  deactivate (incrementErrorCount (Nat.iter 3 incrementErrorCount r)) = givenUp r.
Proof.
  intros H. unfold givenUp. rewrite H. unfold deactivate, incrementErrorCount.
  simpl. f_equal. lia.
Qed.

(** The loop of [establishConnection], when it fails, from the endpoint
    after [pre]. *)
Lemma establishFrom_exhausted post : forall pre s c s' e,
  JsMap.get ChainId_eqb chainId (cm_connections s) = Some c ->
  connections c = pre ++ post ->
  establishFrom world chainId (List.length pre) (List.length post) s
  = (s', Js.Throw e) ->
  e = allFailed chainId /\
  cm_io s' = cm_io s ++ flat_map testsOf post /\
  JsMap.get ChainId_eqb chainId (cm_connections s')
  = Some (mkChainConnection (cc_chainId c) (provider c) (wsProvider c)
            (pre ++ map givenUp post) (currentConnectionIndex c) false
            (lastBlockNumber c) (lastBlockTime c)) /\
  (forall k, k <> chainId ->
     JsMap.get ChainId_eqb k (cm_connections s')
     = JsMap.get ChainId_eqb k (cm_connections s)).
Proof.
  induction post as [|rpc post IH]; intros pre s c s' e Hget Hl.
  - cbn [List.length establishFrom]. unfold Eff.bind.
    rewrite modifyConnection_eta. cbv iota beta. unfold Eff.throw.
    match goal with
    | |- (fst (modifyConnection _ ?f _), _) = _ -> _ =>
        pose proof (io_modifyConnection f s) as Hio0;
        pose proof (get_modifyConnection chainId f s chainId) as Hc0;
        assert (Hoth0 : forall k, k <> chainId ->
                  JsMap.get ChainId_eqb k
                    (cm_connections (fst (modifyConnection chainId f s)))
                  = JsMap.get ChainId_eqb k (cm_connections s))
          by (intros k Hk; now apply get_modifyConnection_other);
        remember (fst (modifyConnection chainId f s)) as s0 eqn:Es0; clear Es0
    end.
    rewrite (proj2 (ChainId_eqb_spec _ _) eq_refl), Hget in Hc0.
    intros H. inversion H. subst s0. clear H.
    split; [reflexivity|]. split; [|split].
    + rewrite Hio0. simpl. now rewrite app_nil_r.
    + rewrite Hc0. simpl. rewrite Hl. reflexivity.
    + exact Hoth0.
  - cbn [List.length establishFrom]. unfold Eff.bind at 1, Eff.get at 1.
    rewrite Hget, Hl, nth_error_middle.
    fold (skipped rpc).
    assert (Hlen : S (List.length pre) = List.length (pre ++ [rpc]))
      by (rewrite length_app; simpl; lia).
    destruct (skipped rpc) eqn:Eskip.
    + rewrite Hlen. intros H.
      destruct (IH (pre ++ [rpc]) s c s' e Hget) as (He & Hio & Hc & Hother);
        [now rewrite Hl, <- app_assoc|exact H|].
      split; [exact He|]. split; [|split].
      * rewrite Hio. simpl. unfold testsOf at 2. now rewrite Eskip.
      * rewrite Hc. simpl. unfold givenUp at 2. rewrite Eskip.
        now rewrite <- app_assoc.
      * exact Hother.
    + unfold Eff.try_catch, Eff.bind at 1.
      destruct (pRetry _ _ 2 s) as [s1 [p|e1]] eqn:Ep.
      { unfold Eff.bind, Eff.get. rewrite modifyConnection_eta.
        cbv iota beta. unfold Eff.ret. discriminate. }
      apply (pRetry_exhausted _ _ _ _ _ _ c Hget) in Ep.
      destruct Ep as (Hio1 & Hc1 & Hother1).
      unfold Eff.bind at 1. unfold modifyRpc at 1.
      rewrite modifyConnection_eta. cbv iota beta.
      fold (modifyRpc chainId (List.length pre)
              (fun r => deactivate (incrementErrorCount r))).
      rewrite Hlen. intros H.
      pose proof (get_modifyRpc_same (List.length pre)
                    (fun r => deactivate (incrementErrorCount r)) s1 _ Hc1) as Hc2.
      cbn [connections cc_chainId provider wsProvider currentConnectionIndex
           isHealthy lastBlockNumber lastBlockTime] in Hc2.
      unfold Nat.iter, nat_rect in Hc2.
      rewrite Hl, !list_modify_app in Hc2.
      change (incrementErrorCount (incrementErrorCount (incrementErrorCount rpc)))
        with (Nat.iter 3 incrementErrorCount rpc) in Hc2.
      rewrite (givenUp_tried rpc Eskip) in Hc2.
      set (g := givenUp rpc) in *.
      assert (Hlen' : List.length (pre ++ [rpc]) = List.length (pre ++ [g]))
        by (rewrite !length_app; reflexivity).
      rewrite Hlen' in H.
      destruct (IH (pre ++ [g]) _ _ s' e Hc2) as (He & Hio & Hc & Hother);
        [cbn [connections]; now rewrite <- app_assoc|exact H|].
      split; [exact He|]. split; [|split].
      * rewrite Hio. unfold modifyRpc. rewrite io_modifyConnection, Hio1.
        simpl. unfold testsOf at 2. rewrite Eskip. unfold testCall.
        rewrite <- app_assoc. reflexivity.
      * rewrite Hc. cbn [connections cc_chainId provider wsProvider
          currentConnectionIndex isHealthy lastBlockNumber lastBlockTime].
        simpl. now rewrite <- app_assoc.
      * intros k Hk. rewrite (Hother k Hk). unfold modifyRpc.
        rewrite get_modifyConnection_other; auto.
Qed.

End WithWorld.

Lemma givenUp_skipped r : skipped (givenUp r) = true.
Proof.
  unfold givenUp. destruct (skipped r) eqn:E; [exact E|reflexivity].
Qed.


End FailoverProps.

Module FailoverExamples.
Import ChainManager ConnectionSpec ManagerSpec FailoverSpec FailoverProps Scenario.


End FailoverExamples.
